(** * Wikipedia category scraper: a shallow embedding of
      [src/tokenizer/wiki_scraper.py] and the properties of its crawl
      pipeline.

    The program is sequential Python that talks to a remote HTTP API, sleeps,
    prints, mutates one shared [set] and appends to one file.  It is embedded
    as functions in a state-and-exception monad over a [world] that holds

    - the number of HTTP requests issued so far ([clock]), which indexes the
      answers of the remote side (a [session] is any function from the request
      number, the URL and the query parameters to the outcome of the request);
    - the [trace] of effects in program order;
    - the heap of Python [set] objects ([sets]), addressed by reference, so that
      the sharing of [seen_pages] along the recursion is explicit;
    - the file system ([files]).

    Python [str] values are modelled by their UTF-8 encoding, as Rocq
    [string]s (one [ascii] per byte).  Python [int]s are [Z]; the two counts
    [max_pages_per_cat] and [depth] are [nat].  Loops that depend on the remote
    side ([while True] in the enumerator, [for] loops over a generator) take
    fuel and end in [Diverge] when it runs out. *)

From Stdlib Require Import ZArith Ascii Decimal DecimalZ.
From stdpp Require Import base gmap strings list.

Local Open Scope Z_scope.

Set Warnings "-clear-no-such-hyp".

(* ================================================================= *)
(** * Python strings *)

Module PyStr.

Definition code (a : ascii) : N := N_of_ascii a.

Definition chr (n : N) : ascii := ascii_of_N n.

Definition between (lo hi n : N) : bool := ((lo <=? n) && (n <=? hi))%N.

(** [str.startswith] *)
Definition startswith (s p : string) : bool := String.prefix p s.

Fixpoint drop_bytes (n : nat) (s : string) : string :=
  match n, s with
  | S k, String _ s' => drop_bytes k s'
  | _, _ => s
  end.

(** [s.replace(old, new)] for a non-empty [old] (the only use the program
    makes of it): occurrences are found left to right and do not overlap.
    [skip] counts the bytes of a matched occurrence still to be dropped. *)
Fixpoint replace_from (old new : string) (skip : nat) (s : string) : string :=
  match s with
  | EmptyString => EmptyString
  | String c s' =>
      match skip with
      | S k => replace_from old new k s'
      | O =>
          if String.prefix old s
          then new +:+ replace_from old new (String.length old - 1) s'
          else String c (replace_from old new O s')
      end
  end.

Definition replace (old new s : string) : string := replace_from old new O s.

(** The characters [str.isspace] accepts, read off their UTF-8 encoding:
    U+0009..U+000D, U+001C..U+0020, U+0085, U+00A0, U+1680,
    U+2000..U+200A, U+2028, U+2029, U+202F, U+205F, U+3000.
    [space1], [space2] and [space3] recognise the encodings of one, two and
    three bytes. *)
Definition space1 (a : ascii) : bool :=
  between 9 13 (code a) || between 28 32 (code a).

Definition space2 (a b : ascii) : bool :=
  (code a =? 194)%N && ((code b =? 133)%N || (code b =? 160)%N).

Definition space3 (a b c : ascii) : bool :=
  ((code a =? 225)%N && (code b =? 154)%N && (code c =? 128)%N)
  || ((code a =? 226)%N && (code b =? 128)%N
      && (between 128 138 (code c) || between 168 169 (code c)
          || (code c =? 175)%N))
  || ((code a =? 226)%N && (code b =? 129)%N && (code c =? 159)%N)
  || ((code a =? 227)%N && (code b =? 128)%N && (code c =? 128)%N).

(** Width in bytes of the white-space character at the head of [s]
    ([0] when [s] does not start with one). *)
Definition space_width (s : string) : nat :=
  match s with
  | String a s1 =>
      if space1 a then 1%nat
      else match s1 with
           | String b s2 =>
               if space2 a b then 2%nat
               else match s2 with
                    | String c _ => if space3 a b c then 3%nat else 0%nat
                    | EmptyString => 0%nat
                    end
           | EmptyString => 0%nat
           end
  | EmptyString => 0%nat
  end.

(** The same at the tail of a string, given its bytes last first. *)
Definition space_width_back (r : list ascii) : nat :=
  match r with
  | c :: r1 =>
      if space1 c then 1%nat
      else match r1 with
           | b :: r2 =>
               if space2 b c then 2%nat
               else match r2 with
                    | a :: _ => if space3 a b c then 3%nat else 0%nat
                    | [] => 0%nat
                    end
           | [] => 0%nat
           end
  | [] => 0%nat
  end.

Fixpoint lstrip_fuel (fuel : nat) (s : string) : string :=
  match fuel with
  | O => s
  | S k =>
      match space_width s with
      | O => s
      | S w => lstrip_fuel k (drop_bytes (S w) s)
      end
  end.

Definition lstrip (s : string) : string := lstrip_fuel (String.length s) s.

Fixpoint rstrip_fuel (fuel : nat) (r : list ascii) : list ascii :=
  match fuel with
  | O => r
  | S k =>
      match space_width_back r with
      | O => r
      | S w => rstrip_fuel k (drop (S w) r)
      end
  end.

Definition rstrip (s : string) : string :=
  let r := rev (String.list_ascii_of_string s) in
  String.string_of_list_ascii (rev (rstrip_fuel (List.length r) r)).

(** [s.strip()] *)
Definition strip (s : string) : string := rstrip (lstrip s).

(** Python truth value of a [str]: [not s] holds of the empty string. *)
Definition is_empty (s : string) : bool :=
  match s with EmptyString => true | String _ _ => false end.

(** [urllib.parse.quote(s)] with its default [safe='/']: the bytes of the
    UTF-8 encoding that are ASCII letters, digits or one of [_.-~/] stay,
    every other byte becomes [%XX] with upper-case hexadecimal digits. *)
Definition is_safe (a : ascii) : bool :=
  let n := code a in
  between 65 90 n || between 97 122 n || between 48 57 n
  || (n =? 95)%N || (n =? 46)%N || (n =? 45)%N || (n =? 126)%N
  || (n =? 47)%N.

Definition hex_upper (n : N) : ascii :=
  if (n <? 10)%N then chr (48 + n) else chr (55 + n).

Definition hex_lower (n : N) : ascii :=
  if (n <? 10)%N then chr (48 + n) else chr (87 + n).

Definition quote_byte (a : ascii) : string :=
  if is_safe a then String a EmptyString
  else String "%" (String (hex_upper (code a / 16))
                     (String (hex_upper (code a mod 16)) EmptyString)).

Fixpoint quote (s : string) : string :=
  match s with
  | EmptyString => EmptyString
  | String a s' => quote_byte a +:+ quote s'
  end.

(** [" > ".join(l)] and friends are not needed: printed lines are kept as
    structured values (see [log_line]). *)

End PyStr.

(* ================================================================= *)
(** * JSON values and [json.dumps] *)

#[warnings="-register-all"]
Inductive json : Type :=
| JNull
| JBool (b : bool)
| JInt (z : Z)
| JFloat (literal : string)
| JStr (s : string)
| JList (items : list json)
| JDict (fields : list (string * json)).

Module Json.

Fixpoint uint_str (d : uint) : string :=
  match d with
  | Nil => EmptyString
  | D0 d' => String "0" (uint_str d')
  | D1 d' => String "1" (uint_str d')
  | D2 d' => String "2" (uint_str d')
  | D3 d' => String "3" (uint_str d')
  | D4 d' => String "4" (uint_str d')
  | D5 d' => String "5" (uint_str d')
  | D6 d' => String "6" (uint_str d')
  | D7 d' => String "7" (uint_str d')
  | D8 d' => String "8" (uint_str d')
  | D9 d' => String "9" (uint_str d')
  end.

(** [repr] of a Python [int] *)
Definition dump_int (z : Z) : string :=
  match Z.to_int z with
  | Pos d => uint_str d
  | Neg d => String "-" (uint_str d)
  end.

(** One character of a string under [json.dumps(..., ensure_ascii=False)]:
    the quote, the backslash and the control characters below U+0020 are
    escaped, every other byte is written as it is. *)
Definition escape_byte (a : ascii) : string :=
  let n := PyStr.code a in
  if (n =? 34)%N then String "\" (String a EmptyString)
  else if (n =? 92)%N then String "\" (String a EmptyString)
  else if (n =? 10)%N then "\n"
  else if (n =? 13)%N then "\r"
  else if (n =? 9)%N then "\t"
  else if (n =? 8)%N then "\b"
  else if (n =? 12)%N then "\f"
  else if (n <? 32)%N then
    String "\" (String "u" (String "0" (String "0"
      (String (PyStr.hex_lower (n / 16))
         (String (PyStr.hex_lower (n mod 16)) EmptyString)))))
  else String a EmptyString.

Fixpoint escape (s : string) : string :=
  match s with
  | EmptyString => EmptyString
  | String a s' => escape_byte a +:+ escape s'
  end.

Definition dquote : string := String (PyStr.chr 34) EmptyString.

Definition dump_str (s : string) : string := dquote +:+ escape s +:+ dquote.

(** [json.dumps(v, ensure_ascii=False)] with the default separators
    [", "] and [": "]. *)
Fixpoint dumps (v : json) : string :=
  match v with
  | JNull => "null"
  | JBool true => "true"
  | JBool false => "false"
  | JInt z => dump_int z
  | JFloat lit => lit
  | JStr s => dump_str s
  | JList items =>
      "[" +:+
      (fix items_str (l : list json) : string :=
         match l with
         | [] => EmptyString
         | x :: l' =>
             match l' with
             | [] => dumps x
             | _ :: _ => dumps x +:+ ", " +:+ items_str l'
             end
         end) items
      +:+ "]"
  | JDict fields =>
      "{" +:+
      (fix fields_str (l : list (string * json)) : string :=
         match l with
         | [] => EmptyString
         | (k, x) :: l' =>
             match l' with
             | [] => dump_str k +:+ ": " +:+ dumps x
             | _ :: _ => dump_str k +:+ ": " +:+ dumps x +:+ ", " +:+ fields_str l'
             end
         end) fields
      +:+ "}"
  end.

End Json.


(* ================================================================= *)
(** * Data exchanged with the remote API *)

(** A value of the query-parameter dictionary: the program stores integers
    ([cmlimit], [explaintext], [pageids]) and strings in it. *)
Inductive qval : Type :=
| QInt (z : Z)
| QStr (s : string).

(** [params]: a Python [dict] with string keys.  [params.update(cont)] is
    [cont ∪ params] (the union of [gmap] prefers its left argument) and
    [params[k] = v] is [<[k:=v]> params]. *)
Abbreviation dict := (gmap string qval).

(** CategoryMember: an element of [query.categorymembers]; the program reads
    [member["pageid"]] and [member["title"]]. *)
Record member : Type := Member {
  m_pageid : Z;
  m_title : string;
}.

(** An entry of [query.pages]; the program reads it with [p.get], so each
    field may be missing. *)
Record page : Type := Page {
  p_pageid : option Z;
  p_title : option string;
  p_extract : option string;
}.

(** The parsed body [resp.json()], seen through the three paths the program
    reads: [data.get("query", {}).get("categorymembers", [])],
    [data.get("query", {}).get("pages", {})] (a dictionary, in the order of
    [.items()]) and [data["continue"]] when ["continue" in data]. *)
Record body : Type := Body {
  b_members : list member;
  b_pages : list (string * page);
  b_continue : option dict;
}.

(** What one [session.get(...)] followed by [resp.json()] does inside the
    [try] block of [api_get]: it raises a [requests.RequestException], or it
    gives a response with a status code and a body. *)
Inductive attempt : Type :=
| RequestException (e : string)
| Response (status_code : Z) (data : body).

(** The remote side: the outcome of the [n]-th request of the run, which may
    depend on the URL and the parameters it is asked with. *)
Definition session : Type := nat -> string -> dict -> attempt.

(** The exceptions the program raises or lets escape. *)
Inductive exn : Type :=
| RuntimeError (msg : string)
| ValueError (msg : string)
| AttributeError (msg : string).

(* ================================================================= *)
(** * Effects *)

(** Lines given to [print], with the values their f-strings interpolate. *)
Inductive log_line : Type :=
| LogHttpStatus (status_code : Z) (url : string) (params : dict)
| LogRequestFailed (e : string)
| LogCrawling (lang : string) (category_path : list string) (depth : nat)
| LogPageFailed (title : string) (e : exn)
| LogCrawlError (lang cat : string) (e : exn).

Inductive event : Type :=
| EPrint (line : log_line)
| ESleep (milliseconds : Z)
| EGet (url : string) (params : dict)
| ENewSet (ref : nat)
| EOpen (path : string)
| EWrite (data : string).

(** The state a run works on: the number of requests sent so far, the
    events so far, the [set] objects, the reference of the next one, and the
    files.  [files] maps a path to the text handed so far to the file object
    opened on it.  A Python text file is buffered: this text is what the file
    holds once the file object is flushed or closed, which [main] does when
    it leaves its [with] block, that is, when the run ends. *)
Record world : Type := World {
  clock : nat;
  trace : list event;
  sets : nat -> gset Z;
  next_set : nat;
  files : gmap string string;
}.

Inductive result (A : Type) : Type :=
| Ok (a : A)
| Raise (e : exn)
| Diverge.

Arguments Ok {A} a.
Arguments Raise {A} e.
Arguments Diverge {A}.

Definition M (A : Type) : Type := world -> result A * world.

Definition ret {A} (a : A) : M A := fun w => (Ok a, w).

Definition bind {A B} (m : M A) (k : A -> M B) : M B :=
  fun w =>
    match m w with
    | (Ok a, w') => k a w'
    | (Raise e, w') => (Raise e, w')
    | (Diverge, w') => (Diverge, w')
    end.

Definition raise {A} (e : exn) : M A := fun w => (Raise e, w).

Definition diverge {A} : M A := fun w => (Diverge, w).

(** [try: m  except Exception as e: handler e] *)
Definition try_except {A} (m : M A) (handler : exn -> M A) : M A :=
  fun w =>
    match m w with
    | (Raise e, w') => handler e w'
    | r => r
    end.

Notation "x <- m ;; k" := (bind m (fun x => k))
  (at level 100, m at next level, right associativity, only parsing).
Notation "m ;;; k" := (bind m (fun _ => k))
  (at level 100, right associativity, only parsing).

Definition emit (e : event) : M unit :=
  fun w => (Ok tt, World (clock w) (trace w ++ [e]) (sets w) (next_set w) (files w)).

(** [print(...)] *)
Definition print (line : log_line) : M unit := emit (EPrint line).

(** [time.sleep(...)] *)
Definition sleep (milliseconds : Z) : M unit := emit (ESleep milliseconds).

(** [session.get(url, params=params, headers=headers, timeout=30)] and the
    reading of the response. *)
Definition session_get (s : session) (url : string) (params : dict) : M attempt :=
  fun w =>
    (Ok (s (clock w) url params),
     World (S (clock w)) (trace w ++ [EGet url params]) (sets w) (next_set w) (files w)).

(** [set()] *)
Definition new_set : M nat :=
  fun w =>
    let r := next_set w in
    (Ok r,
     World (clock w) (trace w ++ [ENewSet r])
       (fun i => if decide (i = r) then ∅ else sets w i) (S r) (files w)).

(** [x in s] *)
Definition set_contains (r : nat) (x : Z) : M bool :=
  fun w => (Ok (bool_decide (x ∈ sets w r)), w).

(** [s.add(x)] *)
Definition set_add (r : nat) (x : Z) : M unit :=
  fun w =>
    (Ok tt,
     World (clock w) (trace w)
       (fun i => if decide (i = r) then {[x]} ∪ sets w i else sets w i)
       (next_set w) (files w)).

(** [open(path, "w", encoding="utf-8")]: the file is created or emptied. *)
Definition open_w (path : string) : M unit :=
  fun w =>
    (Ok tt,
     World (clock w) (trace w ++ [EOpen path]) (sets w) (next_set w)
       (<[path := EmptyString]> (files w))).

(** [out_fh.write(data)] on the file opened at [path]: [data] is added to
    the text handed to the file object, which reaches the file when the
    object is flushed or closed. *)
Definition write (path : string) (data : string) : M unit :=
  fun w =>
    (Ok tt,
     World (clock w) (trace w ++ [EWrite data]) (sets w) (next_set w)
       (alter (fun content => content +:+ data) path (files w))).

Fixpoint for_each {A} (l : list A) (f : A -> M unit) : M unit :=
  match l with
  | [] => ret tt
  | x :: l' => f x ;;; for_each l' f
  end.

(* ================================================================= *)
(** * The program *)

(** Durations are in milliseconds. *)
Definition SLEEP_BETWEEN_REQUESTS : Z := 500.
Definition RETRY_WAIT : Z := 5000.
Definition MAX_RETRIES : nat := 3.

Definition mw_api_endpoint (lang : string) : string :=
  "https://" +:+ lang +:+ ".wikipedia.org/w/api.php".

Definition fetch_failed (url : string) : exn :=
  RuntimeError ("Failed to fetch " +:+ url +:+ " after "
                +:+ Json.dump_int (Z.of_nat MAX_RETRIES) +:+ " retries.").

(** The [for attempt in range(...)] loop of [api_get], with the number of
    attempts left. *)
Fixpoint api_get_attempts (attempts : nat) (s : session) (url : string)
    (params : dict) : M body :=
  match attempts with
  | O => raise (fetch_failed url)
  | S n =>
      r <- session_get s url params ;;
      match r with
      | Response status_code data =>
          if status_code =? 200 then ret data
          else
            print (LogHttpStatus status_code url params) ;;;
            sleep RETRY_WAIT ;;;
            api_get_attempts n s url params
      | RequestException e =>
          print (LogRequestFailed e) ;;;
          sleep RETRY_WAIT ;;;
          api_get_attempts n s url params
      end
  end.

Definition api_get (s : session) (url : string) (params : dict) : M body :=
  api_get_attempts MAX_RETRIES s url params.

(** The state of the generator [get_category_members]: its [params], the
    members of the current batch not yielded yet, and what the [while] loop
    does once they are: [Some cont] to go round again with [cont], [None] to
    stop.  A fresh generator has an empty batch and [cont = {}]. *)
Record generator : Type := Generator {
  g_params : dict;
  g_members : list member;
  g_cont : option dict;
}.

Definition get_category_members (category cmtype : string) (limit : Z) : generator :=
  Generator
    (<["action" := QStr "query"]>
       (<["format" := QStr "json"]>
          (<["list" := QStr "categorymembers"]>
             (<["cmtitle" := QStr ("Category:" +:+ category)]>
                (<["cmlimit" := QInt limit]>
                   (<["cmtype" := QStr cmtype]> ∅))))))
    [] (Some ∅).

(** [next(g)]: the next member and the generator after it, or [None] when the
    generator returns.  Each round of the [while True] loop takes one unit of
    fuel. *)
Fixpoint gen_next (fuel : nat) (s : session) (api_url : string) (g : generator)
    : M (option (member * generator)) :=
  match g_members g with
  | m :: ms => ret (Some (m, Generator (g_params g) ms (g_cont g)))
  | [] =>
      match g_cont g with
      | None => ret None
      | Some cont =>
          match fuel with
          | O => diverge
          | S fuel' =>
              let params := cont ∪ g_params g in
              data <- api_get s api_url params ;;
              gen_next fuel' s api_url
                (Generator params (b_members data) (b_continue data))
          end
      end
  end.

(** [list(g)]: the generator run to its end. *)
Fixpoint gen_list (fuel : nat) (s : session) (api_url : string) (g : generator)
    : M (list member) :=
  match fuel with
  | O => diverge
  | S fuel' =>
      x <- gen_next fuel' s api_url g ;;
      match x with
      | None => ret []
      | Some (m, g') =>
          ms <- gen_list fuel' s api_url g' ;;
          ret (m :: ms)
      end
  end.

(** The dictionary [get_page_extract] returns. *)
Record info : Type := Info {
  i_pageid : option Z;
  i_title : option string;
  i_extract : string;
}.

Definition get_page_extract (s : session) (api_url : string)
    (pageid : option Z) (title : option string) : M (option info) :=
  let params : dict :=
    <["action" := QStr "query"]>
      (<["format" := QStr "json"]>
         (<["prop" := QStr "extracts"]>
            (<["explaintext" := QInt 1]>
               (<["exlimit" := QStr "1"]> ∅)))) in
  params <-
    match pageid, title with
    | Some pid, _ => ret (<["pageids" := QInt pid]> params)
    | None, Some t => ret (<["titles" := QStr t]> params)
    | None, None => raise (ValueError "pageid or title required")
    end ;;
  data <- api_get s api_url params ;;
  match b_pages data with
  | (pid, p) :: _ =>
      if PyStr.startswith pid "-" then ret None
      else ret (Some (Info (p_pageid p) (p_title p)
                        (default EmptyString (p_extract p))))
  | [] => ret None
  end.

(** OutputRecord: the dictionary [out_obj]. *)
Record OutputRecord : Type := Record_ {
  r_lang : string;
  r_category_path : list string;
  r_title : string;
  r_pageid : option Z;
  r_text : string;
  r_url : string;
}.

Definition page_url (lang title : string) : string :=
  "https://" +:+ lang +:+ ".wikipedia.org/wiki/"
  +:+ PyStr.quote (PyStr.replace " " "_" title).

Definition json_of_pageid (o : option Z) : json :=
  match o with Some z => JInt z | None => JNull end.

Definition out_obj (r : OutputRecord) : json :=
  JDict [ ("lang", JStr (r_lang r));
          ("category_path", JList (JStr <$> r_category_path r));
          ("title", JStr (r_title r));
          ("pageid", json_of_pageid (r_pageid r));
          ("text", JStr (r_text r));
          ("url", JStr (r_url r)) ].

Definition newline : string := String (PyStr.chr 10) EmptyString.

Definition record_line (r : OutputRecord) : string :=
  Json.dumps (out_obj r) +:+ newline.

Section Crawl.

Variable s : session.
Variable api_url : string.
Variable out_fh : string.
Variable lang : string.
Variable max_pages_per_cat : nat.

(** The body of the first [for] loop of [crawl_category] for one [member],
    with [pages_count] on entry: [None] is [break], [Some c] goes on to the
    next member with [pages_count = c]. *)
Definition crawl_member (seen_pages : nat) (category_path : list string)
    (pages_count : nat) (m : member) : M (option nat) :=
  if (max_pages_per_cat <=? pages_count)%nat then ret None
  else
    let pageid := m_pageid m in
    let title := m_title m in
    seen <- set_contains seen_pages pageid ;;
    if (seen : bool) then ret (Some pages_count)
    else
      fetched <-
        try_except
          (i <- get_page_extract s api_url (Some pageid) None ;; ret (inr i))
          (fun e => ret (inl e)) ;;
      match fetched with
      | inl e => print (LogPageFailed title e) ;;; ret (Some pages_count)
      | inr None => ret (Some pages_count)
      | inr (Some i) =>
          if PyStr.is_empty (PyStr.strip (i_extract i))
          then ret (Some pages_count)
          else
            set_add seen_pages pageid ;;;
            match i_title i with
            | None =>
                raise (AttributeError
                         "'NoneType' object has no attribute 'replace'")
            | Some t =>
                write out_fh
                  (record_line
                     (Record_ lang category_path t (i_pageid i)
                        (i_extract i) (page_url lang t))) ;;;
                sleep SLEEP_BETWEEN_REQUESTS ;;;
                ret (Some (S pages_count))
            end
      end.

(** [for member in get_category_members(..., cmtype="page", ...)] *)
Fixpoint crawl_members (fuel : nat) (seen_pages : nat)
    (category_path : list string) (g : generator) (pages_count : nat)
    : M unit :=
  match fuel with
  | O => diverge
  | S fuel' =>
      x <- gen_next fuel' s api_url g ;;
      match x with
      | None => ret tt
      | Some (m, g') =>
          c <- crawl_member seen_pages category_path pages_count m ;;
          match c with
          | None => ret tt
          | Some pages_count' =>
              crawl_members fuel' seen_pages category_path g' pages_count'
          end
      end
  end.

(** Lines 109 to 139: the pages of the category itself. *)
Definition crawl_pages (fuel : nat) (category : string) (seen_pages : nat)
    (category_path : list string) : M unit :=
  crawl_members fuel seen_pages category_path
    (get_category_members category "page" 500) O.

(** The body of the second [for] loop for one [member]; [recurse] is the
    recursive call of [crawl_category] with [depth - 1]. *)
Definition crawl_subcat (recurse : string -> list string -> M unit)
    (category_path : list string) (m : member) : M unit :=
  let subcat_title := PyStr.replace "Category:" EmptyString (m_title m) in
  if bool_decide (subcat_title ∈ category_path) then ret tt
  else recurse subcat_title (category_path ++ [subcat_title]).

(** [for member in get_category_members(..., cmtype="subcat", ...)] *)
Fixpoint crawl_subcats (fuel : nat)
    (recurse : string -> list string -> M unit)
    (category_path : list string) (g : generator) : M unit :=
  match fuel with
  | O => diverge
  | S fuel' =>
      x <- gen_next fuel' s api_url g ;;
      match x with
      | None => ret tt
      | Some (m, g') =>
          crawl_subcat recurse category_path m ;;;
          crawl_subcats fuel' recurse category_path g'
      end
  end.

Fixpoint crawl_category (fuel : nat) (depth : nat) (category : string)
    (seen_pages : option nat) (category_path : option (list string))
    : M unit :=
  seen_pages <-
    match seen_pages with
    | None => new_set
    | Some r => ret r
    end ;;
  let category_path := default [category] category_path in
  print (LogCrawling lang category_path depth) ;;;
  crawl_pages fuel category seen_pages category_path ;;;
  match depth with
  | O => ret tt
  | S depth' =>
      crawl_subcats fuel
        (fun subcat_title path =>
           crawl_category fuel depth' subcat_title
             (Some seen_pages) (Some path))
        category_path
        (get_category_members category "subcat" 500)
  end.

End Crawl.

(** The body of the inner loop of [main] for one language and category. *)
Definition crawl_pair (s : session) (fuel : nat) (out_fh : string)
    (max_pages depth : nat) (lang cat : string) : M unit :=
  try_except
    (crawl_category s (mw_api_endpoint lang) out_fh lang max_pages
       fuel depth cat None None)
    (fun e => print (LogCrawlError lang cat e) ;;; sleep RETRY_WAIT).

Definition main (s : session) (fuel : nat) (langs categories : list string)
    (outpath : string) (max_pages depth : nat) : M unit :=
  open_w outpath ;;;
  for_each langs (fun lang =>
    for_each categories (fun cat =>
      crawl_pair s fuel outpath max_pages depth lang cat)).

(* ================================================================= *)
(** * Reading JSON back

    What it means for a line of the output file to be valid JSON: a parser
    for the JSON grammar (RFC 8259, as [json.loads] reads it) over UTF-8
    text.  It is used only to state properties of the lines the program
    writes. *)

Module JsonParse.

Definition is_ws (a : ascii) : bool :=
  let n := PyStr.code a in
  (n =? 32)%N || (n =? 9)%N || (n =? 10)%N || (n =? 13)%N.

Fixpoint skip_ws (s : string) : string :=
  match s with
  | String a s' => if is_ws a then skip_ws s' else s
  | EmptyString => s
  end.

Definition digit (a : ascii) : option (uint -> uint) :=
  let n := PyStr.code a in
  if (n =? 48)%N then Some D0 else if (n =? 49)%N then Some D1
  else if (n =? 50)%N then Some D2 else if (n =? 51)%N then Some D3
  else if (n =? 52)%N then Some D4 else if (n =? 53)%N then Some D5
  else if (n =? 54)%N then Some D6 else if (n =? 55)%N then Some D7
  else if (n =? 56)%N then Some D8 else if (n =? 57)%N then Some D9
  else None.

(** The longest run of decimal digits at the head of [s]. *)
Fixpoint digits (s : string) : uint * string :=
  match s with
  | String a s' =>
      match digit a with
      | Some d => let '(ds, r) := digits s' in (d ds, r)
      | None => (Nil, s)
      end
  | EmptyString => (Nil, s)
  end.

Definition leading_zero (d : uint) : bool :=
  match d with
  | D0 Nil => false
  | D0 _ => true
  | _ => false
  end.

(** [frac = "." digit+], optional; the outer [None] is a syntax error. *)
Definition fraction (s : string) : option (string * string) :=
  match s with
  | String a s' =>
      if (PyStr.code a =? 46)%N then
        match digits s' with
        | (Nil, _) => None
        | (d, r) => Some (String a (Json.uint_str d), r)
        end
      else Some (EmptyString, s)
  | EmptyString => Some (EmptyString, s)
  end.

(** [exp = ("e" | "E") ["+" | "-"] digit+], optional. *)
Definition exponent (s : string) : option (string * string) :=
  match s with
  | String a s' =>
      if (PyStr.code a =? 101)%N || (PyStr.code a =? 69)%N then
        let '(sign, s'') :=
          match s' with
          | String b t =>
              if (PyStr.code b =? 43)%N || (PyStr.code b =? 45)%N
              then (String b EmptyString, t) else (EmptyString, s')
          | EmptyString => (EmptyString, s')
          end in
        match digits s'' with
        | (Nil, _) => None
        | (d, r) => Some (String a (sign +:+ Json.uint_str d), r)
        end
      else Some (EmptyString, s)
  | EmptyString => Some (EmptyString, s)
  end.

Definition is_nil (d : uint) : bool :=
  match d with Nil => true | _ => false end.

Definition sign (s : string) : bool * string :=
  match s with
  | String a s' => if (PyStr.code a =? 45)%N then (true, s') else (false, s)
  | EmptyString => (false, s)
  end.

Definition number (s : string) : option (json * string) :=
  let '(neg, s1) := sign s in
  let '(d, s2) := digits s1 in
  if is_nil d || leading_zero d then None
  else
    match fraction s2 with
    | None => None
    | Some (f, s3) =>
        match exponent s3 with
        | None => None
        | Some (e, s4) =>
            if PyStr.is_empty f && PyStr.is_empty e
            then Some (JInt (Z.of_int (if neg then Neg d else Pos d)), s4)
            else Some (JFloat ((if neg then "-" else EmptyString)
                               +:+ Json.uint_str d +:+ f +:+ e), s4)
        end
    end.

Definition hex (a : ascii) : option N :=
  let n := PyStr.code a in
  if PyStr.between 48 57 n then Some (n - 48)%N
  else if PyStr.between 97 102 n then Some (n - 87)%N
  else if PyStr.between 65 70 n then Some (n - 55)%N
  else None.

Definition hex4 (a b c d : ascii) : option N :=
  match hex a, hex b, hex c, hex d with
  | Some x, Some y, Some z, Some t => Some (((x * 16 + y) * 16 + z) * 16 + t)%N
  | _, _, _, _ => None
  end.

(** The UTF-8 encoding of a code point. *)
Definition utf8 (cp : N) : string :=
  if (cp <? 128)%N then String (PyStr.chr cp) EmptyString
  else if (cp <? 2048)%N then
    String (PyStr.chr (192 + cp / 64))
      (String (PyStr.chr (128 + cp mod 64)) EmptyString)
  else if (cp <? 65536)%N then
    String (PyStr.chr (224 + cp / 4096))
      (String (PyStr.chr (128 + (cp / 64) mod 64))
         (String (PyStr.chr (128 + cp mod 64)) EmptyString))
  else
    String (PyStr.chr (240 + cp / 262144))
      (String (PyStr.chr (128 + (cp / 4096) mod 64))
         (String (PyStr.chr (128 + (cp / 64) mod 64))
            (String (PyStr.chr (128 + cp mod 64)) EmptyString))).

(** A one-letter escape: the byte it stands for. *)
Definition simple_escape (a : ascii) : option ascii :=
  let n := PyStr.code a in
  if (n =? 34)%N || (n =? 92)%N || (n =? 47)%N then Some a
  else if (n =? 98)%N then Some (PyStr.chr 8)
  else if (n =? 102)%N then Some (PyStr.chr 12)
  else if (n =? 110)%N then Some (PyStr.chr 10)
  else if (n =? 114)%N then Some (PyStr.chr 13)
  else if (n =? 116)%N then Some (PyStr.chr 9)
  else None.

Definition prepend (p : string) (r : option (string * string))
    : option (string * string) :=
  match r with
  | Some (x, rest) => Some (p +:+ x, rest)
  | None => None
  end.

(** The low half of a surrogate pair written as [\uXXXX] at the head of
    [s], and what follows it. *)
Definition low_surrogate (s : string) : option (N * string) :=
  match s with
  | String b (String u (String h1 (String h2 (String h3 (String h4 r))))) =>
      if (PyStr.code b =? 92)%N && (PyStr.code u =? 117)%N then
        match hex4 h1 h2 h3 h4 with
        | Some lo => if PyStr.between 56320 57343 lo then Some (lo, r) else None
        | None => None
        end
      else None
  | _ => None
  end.

(** The characters of a string after its opening quote, up to and
    including the closing quote. *)
Fixpoint chars (s : string) : option (string * string) :=
  match s with
  | EmptyString => None
  | String a s' =>
      if (PyStr.code a =? 34)%N then Some (EmptyString, s')
      else if (PyStr.code a =? 92)%N then
        match s' with
        | EmptyString => None
        | String b s'' =>
            match simple_escape b with
            | Some c => prepend (String c EmptyString) (chars s'')
            | None =>
                if (PyStr.code b =? 117)%N then
                  match s'' with
                  | String h1 (String h2 (String h3 (String h4 r))) =>
                      match hex4 h1 h2 h3 h4 with
                      | None => None
                      | Some cp =>
                          if PyStr.between 55296 56319 cp then
                            match r with
                            | String _ (String _ (String _ (String _
                                (String _ (String _ r'))))) =>
                                match low_surrogate r with
                                | Some (lo, _) =>
                                    prepend
                                      (utf8 (65536 + (cp - 55296) * 1024
                                             + (lo - 56320)))
                                      (chars r')
                                | None => prepend (utf8 cp) (chars r)
                                end
                            | _ => prepend (utf8 cp) (chars r)
                            end
                          else prepend (utf8 cp) (chars r)
                      end
                  | _ => None
                  end
                else None
            end
        end
      else if (PyStr.code a <? 32)%N then None
      else prepend (String a EmptyString) (chars s')
  end.

Definition keyword (k : string) (v : json) (s : string) : option (json * string) :=
  if String.prefix k s then Some (v, PyStr.drop_bytes (String.length k) s)
  else None.

Fixpoint value (fuel : nat) (s : string) : option (json * string) :=
  match fuel with
  | O => None
  | S fuel' =>
      match skip_ws s with
      | EmptyString => None
      | String a s' =>
          let n := PyStr.code a in
          if (n =? 34)%N then
            match chars s' with
            | Some (x, r) => Some (JStr x, r)
            | None => None
            end
          else if (n =? 91)%N then
            match skip_ws s' with
            | String b r =>
                if (PyStr.code b =? 93)%N then Some (JList [], r)
                else
                  match items fuel' s' with
                  | Some (l, r') => Some (JList l, r')
                  | None => None
                  end
            | EmptyString => None
            end
          else if (n =? 123)%N then
            match skip_ws s' with
            | String b r =>
                if (PyStr.code b =? 125)%N then Some (JDict [], r)
                else
                  match fields fuel' s' with
                  | Some (l, r') => Some (JDict l, r')
                  | None => None
                  end
            | EmptyString => None
            end
          else if (n =? 110)%N then keyword "null" JNull (String a s')
          else if (n =? 116)%N then keyword "true" (JBool true) (String a s')
          else if (n =? 102)%N then keyword "false" (JBool false) (String a s')
          else number (String a s')
      end
  end

(** The elements of an array after [[] or [,], up to and including []]. *)
with items (fuel : nat) (s : string) : option (list json * string) :=
  match fuel with
  | O => None
  | S fuel' =>
      match value fuel' s with
      | None => None
      | Some (v, r) =>
          match skip_ws r with
          | String a r' =>
              if (PyStr.code a =? 44)%N then
                match items fuel' r' with
                | Some (l, r'') => Some (v :: l, r'')
                | None => None
                end
              else if (PyStr.code a =? 93)%N then Some ([v], r')
              else None
          | EmptyString => None
          end
      end
  end

(** The members of an object after [{] or [,], up to and including [}]. *)
with fields (fuel : nat) (s : string) : option (list (string * json) * string) :=
  match fuel with
  | O => None
  | S fuel' =>
      match skip_ws s with
      | String q s1 =>
          if (PyStr.code q =? 34)%N then
            match chars s1 with
            | None => None
            | Some (k, s2) =>
                match skip_ws s2 with
                | String c s3 =>
                    if (PyStr.code c =? 58)%N then
                      match value fuel' s3 with
                      | None => None
                      | Some (v, r) =>
                          match skip_ws r with
                          | String a r' =>
                              if (PyStr.code a =? 44)%N then
                                match fields fuel' r' with
                                | Some (l, r'') => Some ((k, v) :: l, r'')
                                | None => None
                                end
                              else if (PyStr.code a =? 125)%N
                              then Some ([(k, v)], r')
                              else None
                          | EmptyString => None
                          end
                      end
                    else None
                | EmptyString => None
                end
            end
          else None
      | EmptyString => None
      end
  end.

(** [json.loads(s)] *)
Definition loads (s : string) : option json :=
  match value (String.length s) s with
  | Some (v, r) =>
      match skip_ws r with
      | EmptyString => Some v
      | String _ _ => None
      end
  | None => None
  end.

End JsonParse.


(* ================================================================= *)
(** * Vocabulary of the statements *)

(** The events of a run from [w] to [w']. *)
Definition events (w w' : world) : list event :=
  drop (length (trace w)) (trace w').

Definition ok {A} (r : result A) : bool :=
  match r with Ok _ => true | _ => false end.

(** The data given to [out_fh.write], in order. *)
Fixpoint writes (l : list event) : list string :=
  match l with
  | [] => []
  | EWrite d :: l' => d :: writes l'
  | _ :: l' => writes l'
  end.

(** The requests sent, in order. *)
Fixpoint requests (l : list event) : list (string * dict) :=
  match l with
  | [] => []
  | EGet url params :: l' => (url, params) :: requests l'
  | _ :: l' => requests l'
  end.

(** A successful attempt: status 200. *)
Definition succeeded (a : attempt) : option body :=
  match a with
  | Response status_code data => if status_code =? 200 then Some data else None
  | RequestException _ => None
  end.

(** Events of the HTTP layer and of the page fetcher: requests, pauses and
    the diagnostics of failed attempts and failed pages. *)
Definition net_event (e : event) : bool :=
  match e with
  | EGet _ _ | ESleep _ => true
  | EPrint (LogHttpStatus _ _ _) | EPrint (LogRequestFailed _)
  | EPrint (LogPageFailed _ _) => true
  | _ => false
  end.

(** A step that touches neither the sets nor the files and performs only
    [net_event]s. *)
Record quiet (w w' : world) : Prop := Quiet {
  quiet_sets : sets w' = sets w;
  quiet_next_set : next_set w' = next_set w;
  quiet_files : files w' = files w;
  quiet_trace : exists l, trace w' = trace w ++ l /\ forallb net_event l = true;
}.

(** The parameters of the successive requests of an enumeration that starts
    from [params] and is answered with [bodies]: the continuation token of
    each answer is merged into the parameters of the request before it. *)
Fixpoint paged_params (params : dict) (bodies : list body) : list dict :=
  match bodies with
  | [] => []
  | b :: bs => params :: paged_params (default ∅ (b_continue b) ∪ params) bs
  end.

(** The continuation tokens of a sequence of answers. *)
Definition tokens (bodies : list body) : list dict := omap b_continue bodies.

(** A finite sequence of answers of which the last, and only the last,
    comes without a continuation token. *)
Fixpoint paged (bodies : list body) : bool :=
  match bodies with
  | [] => false
  | b :: bs =>
      match bs with
      | [] => negb (bool_decide (is_Some (b_continue b)))
      | _ :: _ => bool_decide (is_Some (b_continue b)) && paged bs
      end
  end.

(** From its [c]-th request on, the remote side answers with status 200 and
    the bodies [bodies], one per request. *)
Definition serves (s : session) (c : nat) (bodies : list body) : Prop :=
  forall k b url params,
    bodies !! k = Some b -> succeeded (s (c + k)%nat url params) = Some b.

(** Fuel that is enough to enumerate [bodies]. *)
Definition enough_fuel (bodies : list body) : nat :=
  length bodies + length (concat (b_members <$> bodies)) + 1.

(** The world after the loop body has marked [pageid] as seen in the set
    [seen_pages], written the line of [rec] to [out_fh] and paused, from the
    world [w] in which the page was fetched. *)
Definition emitted (out_fh : string) (seen_pages : nat) (pageid : Z)
    (rec : OutputRecord) (w : world) : world :=
  World (clock w)
    ((trace w ++ [EWrite (record_line rec)]) ++ [ESleep SLEEP_BETWEEN_REQUESTS])
    (fun i => if decide (i = seen_pages) then {[pageid]} ∪ sets w i else sets w i)
    (next_set w)
    (alter (fun content => content +:+ record_line rec) out_fh (files w)).

(** [i] is what [get_page_extract] returned for [pageid] in some world. *)
Definition fetched (s : session) (api_url : string) (pageid : Z) (i : info) : Prop :=
  exists w w1,
    get_page_extract s api_url (Some pageid) None w = (Ok (Some i), w1).

(** The set object and the path a call of [crawl_category] works with, and
    the world in which it starts to work, after its defaults are resolved. *)
Definition resolved_set (seen_pages : option nat) (w : world) : nat :=
  default (next_set w) seen_pages.

Definition resolved_world (seen_pages : option nat) (w : world) : world :=
  match seen_pages with
  | None => (new_set w).2
  | Some _ => w
  end.

Definition resolved_path (category : string) (category_path : option (list string))
    : list string :=
  default [category] category_path.

(** The name of a category as the specification describes it: the title of
    the member with the prefix of the category namespace taken off. *)
Definition strip_category_prefix (title : string) : string :=
  if String.prefix "Category:" title
  then PyStr.drop_bytes (String.length "Category:") title
  else title.

(** What it takes for a relation [T w b w'] between the worlds before and
    after a piece of a crawl ([b] tells whether the piece ended normally) to
    hold of whole call trees of [crawl_category] on the set [seen]: it is
    reflexive, composes in sequence, and holds of every [quiet] step, of one
    round of the page loop and of the line printed on entering a category.
    [P] is what the tree maintains about [category_path] and [depth]. *)
Record tree_invariant (s : session) (api_url out_fh lang : string)
    (max_pages_per_cat seen : nat)
    (T : world -> bool -> world -> Prop) (P : list string -> nat -> Prop)
    : Prop := TreeInvariant {
  ti_refl : forall w, T w true w;
  ti_seq : forall w w1 w2 b, T w true w1 -> T w1 b w2 -> T w b w2;
  ti_quiet : forall w w' b, quiet w w' -> T w b w';
  ti_member : forall path depth count m w,
    P path depth ->
    T w (ok (crawl_member s api_url out_fh lang max_pages_per_cat
               seen path count m w).1)
      (crawl_member s api_url out_fh lang max_pages_per_cat seen path count m w).2;
  ti_enter : forall path depth w,
    P path depth -> T w true (print (LogCrawling lang path depth) w).2;
  ti_step : forall path depth sub,
    P path (S depth) -> sub ∉ path -> P (path ++ [sub]) depth;
}.

(** Every event between [w] and [w'] is [good]. *)
Definition all_good (good : event -> Prop) (w : world) (b : bool) (w' : world)
    : Prop :=
  exists l, trace w' = trace w ++ l /\ Forall good l.

(** The remote side answers a request for the extract of the page [pageid]
    (a query with [pageids = pageid]) with that page: the entry it puts first
    in [query.pages] carries this identifier. *)
Definition answers_pageids (s : session) : Prop :=
  forall c url params data key p rest pageid,
    succeeded (s c url params) = Some data ->
    params !! "pageids" = Some (QInt pageid) ->
    b_pages data = (key, p) :: rest ->
    p_pageid p = Some pageid.

(** [r] is the record of the page fetched for the member with the page
    identifier [pageid]: the page came with a title and with a text that is
    not blank, and [r] carries the language, this title, the page identifier
    the remote side gave with the page, this text, and the address made from
    the language and the title. *)
Definition record_for (s : session) (api_url lang : string) (r : OutputRecord)
    (pageid : Z) : Prop :=
  exists i t,
    fetched s api_url pageid i
    /\ PyStr.is_empty (PyStr.strip (i_extract i)) = false
    /\ i_title i = Some t
    /\ r_lang r = lang
    /\ r_title r = t
    /\ r_pageid r = i_pageid i
    /\ r_text r = i_extract i
    /\ r_url r = page_url lang t.

(** Between [w] and [w'] the records [rs] were written, each the record of
    the page fetched for a member, whose page identifiers are [ids], in the
    order of writing.  The set [seen] has grown by these identifiers and by
    [extra]: nothing when the piece ended normally, and otherwise at most
    one identifier, of a page fetched without a title.  The identifiers
    added differ from one another and were not in the set at [w]. *)
Definition seen_invariant (s : session) (api_url lang : string) (seen : nat)
    (w : world) (b : bool) (w' : world) : Prop :=
  exists l rs ids extra,
    trace w' = trace w ++ l
    /\ writes l = record_line <$> rs
    /\ Forall2 (record_for s api_url lang) rs ids
    /\ NoDup (ids ++ extra)
    /\ (forall z, z ∈ ids ++ extra -> z ∉ sets w seen)
    /\ sets w' seen = sets w seen ∪ list_to_set (ids ++ extra)
    /\ (length extra <= 1)%nat
    /\ (b = true -> extra = [])
    /\ (forall z, z ∈ extra ->
          exists i, fetched s api_url z i /\ i_title i = None).







(** The concatenation of the strings of a list. *)
Definition concat_str (l : list string) : string :=
  foldr String.append EmptyString l.

(** The sets created, in order. *)
Fixpoint new_sets (l : list event) : list nat :=
  match l with
  | [] => []
  | ENewSet r :: l' => r :: new_sets l'
  | _ :: l' => new_sets l'
  end.

(** Between [w] and [w'] the file at [path], if there is one, has grown by
    what was written, and the sets created are [created]. *)
Definition file_invariant (path : string) (w : world) (b : bool) (w' : world)
    : Prop :=
  exists l,
    trace w' = trace w ++ l
    /\ new_sets l = []
    /\ next_set w' = next_set w
    /\ forall content,
         files w !! path = Some content ->
         files w' !! path = Some (content +:+ concat_str (writes l)).

(** The pairs the run driver goes through: languages in the outer loop,
    categories in the inner loop. *)
Definition all_pairs (langs categories : list string) : list (string * string) :=
  flat_map (fun lang => map (pair lang) categories) langs.

(** The world after the driver has logged the error [e] of the pair
    [(lang, cat)] and waited. *)
Definition logged_and_waited (lang cat : string) (e : exn) (w : world) : world :=
  World (clock w)
    ((trace w ++ [EPrint (LogCrawlError lang cat e)]) ++ [ESleep RETRY_WAIT])
    (sets w) (next_set w) (files w).

(** The run driver as the specification describes it: the pairs are crawled
    one after the other, each by [crawl]; when the crawl of a pair raises an
    error, the error is logged, the driver waits and goes on with the next
    pair.  Only a crawl that does not end stops the run. *)
Inductive driver_run (crawl : string -> string -> M unit)
    : list (string * string) -> world -> result unit -> world -> Prop :=
| driver_done w :
    driver_run crawl [] w (Ok tt) w
| driver_next lang cat pairs w w1 r w2 :
    crawl lang cat w = (Ok tt, w1) ->
    driver_run crawl pairs w1 r w2 ->
    driver_run crawl ((lang, cat) :: pairs) w r w2
| driver_caught lang cat pairs w e w1 r w2 :
    crawl lang cat w = (Raise e, w1) ->
    driver_run crawl pairs (logged_and_waited lang cat e w1) r w2 ->
    driver_run crawl ((lang, cat) :: pairs) w r w2
| driver_stuck lang cat pairs w w1 :
    crawl lang cat w = (Diverge, w1) ->
    driver_run crawl ((lang, cat) :: pairs) w Diverge w1.

(** The crawl the driver starts for a pair: no set of seen pages and no
    path are passed on. *)
Definition fresh_crawl (s : session) (fuel : nat) (out_fh : string)
    (max_pages depth : nat) (lang cat : string) : M unit :=
  crawl_category s (mw_api_endpoint lang) out_fh lang max_pages
    fuel depth cat None None.

(** [sep.join(l)] *)
Fixpoint join (sep : string) (l : list string) : string :=
  match l with
  | [] => EmptyString
  | x :: l' =>
      match l' with
      | [] => x
      | _ :: _ => x +:+ sep +:+ join sep l'
      end
  end.

(** A member of an object as [json.dumps] writes it. *)
Definition dump_field (kv : string * json) : string :=
  Json.dump_str kv.1 +:+ ": " +:+ Json.dumps kv.2.

(** What may follow a value in JSON text produced by [json.dumps]: nothing,
    a comma or a closing bracket. *)
Definition delimited (rest : string) : Prop :=
  match rest with
  | EmptyString => True
  | String a _ => a = ","%char \/ a = "]"%char \/ a = "}"%char
  end.

(** The text [json.dumps] gives for [v] is read back as [v] with fuel [n] or
    more, whatever delimited text follows. *)
Definition reads_back (n : nat) (v : json) : Prop :=
  forall fuel rest,
    (n <= fuel)%nat -> delimited rest ->
    JsonParse.value fuel (Json.dumps v +:+ rest) = Some (v, rest).

(** No line feed in [s]. *)
Fixpoint one_line (s : string) : bool :=
  match s with
  | EmptyString => true
  | String a s' => negb (PyStr.code a =? 10)%N && one_line s'
  end.


(* ================================================================= *)
(** * Vocabulary of the properties beyond the specification *)

(** The pauses, in order, in milliseconds. *)
Fixpoint pauses (l : list event) : list Z :=
  match l with
  | [] => []
  | ESleep d :: l' => d :: pauses l'
  | _ :: l' => pauses l'
  end.

(** The line [api_get] prints for an attempt that is not answered with
    status 200. *)
Definition failure_line (url : string) (params : dict) (a : attempt) : log_line :=
  match a with
  | RequestException e => LogRequestFailed e
  | Response status_code _ => LogHttpStatus status_code url params
  end.

(** The world after a failed attempt of [api_get]: the request was sent,
    the failure printed and [RETRY_WAIT] waited. *)
Definition retried (s : session) (url : string) (params : dict) (w : world) : world :=
  World (S (clock w))
    (trace w ++ [EGet url params;
                 EPrint (failure_line url params (s (clock w) url params));
                 ESleep RETRY_WAIT])
    (sets w) (next_set w) (files w).

(** The shape of what a crawl of the language [lang] through [api_url]
    does, once it has its set of seen pages: a sequence of requests to
    [api_url]; of failed attempts, each a request, the line that reports the
    failure and a wait of [RETRY_WAIT]; of lines that report a page given up
    after the last retry; of lines that announce a category; and of records
    written, each followed by a pause of [SLEEP_BETWEEN_REQUESTS]. *)
Inductive crawl_trace (api_url lang : string) : list event -> Prop :=
| ct_nil :
    crawl_trace api_url lang []
| ct_get params l :
    crawl_trace api_url lang l ->
    crawl_trace api_url lang (EGet api_url params :: l)
| ct_retry params a l :
    crawl_trace api_url lang l ->
    crawl_trace api_url lang
      (EGet api_url params :: EPrint (failure_line api_url params a)
       :: ESleep RETRY_WAIT :: l)
| ct_page_failed title l :
    crawl_trace api_url lang l ->
    crawl_trace api_url lang
      (EPrint (LogPageFailed title (fetch_failed api_url)) :: l)
| ct_enter path depth l :
    crawl_trace api_url lang l ->
    crawl_trace api_url lang (EPrint (LogCrawling lang path depth) :: l)
| ct_record r l :
    r_lang r = lang ->
    r_url r = page_url lang (r_title r) ->
    crawl_trace api_url lang l ->
    crawl_trace api_url lang
      (EWrite (record_line r) :: ESleep SLEEP_BETWEEN_REQUESTS :: l).

(** Between [w] and [w'] the trace has grown by a [crawl_trace]. *)
Definition traced (api_url lang : string) (w w' : world) : Prop :=
  exists l, trace w' = trace w ++ l /\ crawl_trace api_url lang l.

(** The number of categories entered: the lines that announce one. *)
Fixpoint entered (l : list event) : nat :=
  match l with
  | [] => O
  | EPrint (LogCrawling _ _ _) :: l' => S (entered l')
  | _ :: l' => entered l'
  end.

(** Between [w] and [w'] no category was entered and at most [n] records
    were written. *)
Definition page_phase (n : nat) (w w' : world) : Prop :=
  exists l,
    trace w' = trace w ++ l /\ entered l = O /\ (length (writes l) <= n)%nat.

(** Between [w] and [w'] at most [max_pages_per_cat] records were written
    for each category entered. *)
Definition within_bound (max_pages_per_cat : nat) (w w' : world) : Prop :=
  exists l,
    trace w' = trace w ++ l
    /\ (length (writes l) <= max_pages_per_cat * entered l)%nat.

(** What a crawl of the language [lang] through [api_url] may do, event by
    event. *)
Definition crawl_event (api_url lang : string) (e : event) : Prop :=
  match e with
  | EGet url _ => url = api_url
  | EPrint (LogHttpStatus _ url _) => url = api_url
  | EPrint (LogRequestFailed _) => True
  | EPrint (LogPageFailed _ e) => e = fetch_failed api_url
  | EPrint (LogCrawling lg _ _) => lg = lang
  | EPrint (LogCrawlError _ _ _) => False
  | ESleep d => d = RETRY_WAIT \/ d = SLEEP_BETWEEN_REQUESTS
  | EWrite d =>
      exists r,
        d = record_line r /\ r_lang r = lang
        /\ r_url r = page_url lang (r_title r)
  | ENewSet _ => False
  | EOpen _ => False
  end.

(** The lines of a text: the pieces that end with a line feed, without it,
    and what follows the last line feed when that is not empty. *)
Fixpoint split_lines (s : string) : list string :=
  match s with
  | EmptyString => []
  | String a s' =>
      if (PyStr.code a =? 10)%N then EmptyString :: split_lines s'
      else
        match split_lines s' with
        | [] => [String a EmptyString]
        | line :: rest => String a line :: rest
        end
  end.

(** A remote side that answers every request with status 200, no member
    and a continuation token. *)
Definition endless (s : session) : Prop :=
  forall c url params,
    exists data,
      succeeded (s c url params) = Some data
      /\ b_members data = []
      /\ is_Some (b_continue data).


(** [needle in s], for a needle that is not empty. *)
Fixpoint occurs (needle s : string) : bool :=
  match s with
  | EmptyString => false
  | String _ s' => String.prefix needle s || occurs needle s'
  end.

(** Every byte of [s] passes the test [f]. *)
Fixpoint all_bytes (f : ascii -> bool) (s : string) : bool :=
  match s with
  | EmptyString => true
  | String a s' => f a && all_bytes f s'
  end.

(** The bytes [urllib.parse.quote] gives: the ones it leaves alone and the
    percent sign of its escapes. *)
Definition url_byte (a : ascii) : bool :=
  PyStr.is_safe a || (PyStr.code a =? 37)%N.

(** The ASCII space. *)
Definition is_space (a : ascii) : bool := (PyStr.code a =? 32)%N.

(** Between [w] and [w'] nothing has changed but the set [seen], which has
    only grown, and the file at [out_fh]: the other sets are the same, no set
    was created, and the other files are the same. *)
Definition framed (out_fh : string) (seen : nat) (w : world) (b : bool)
    (w' : world) : Prop :=
  (forall i, i <> seen -> sets w' i = sets w i)
  /\ sets w seen ⊆ sets w' seen
  /\ next_set w' = next_set w
  /\ (forall path, path <> out_fh -> files w' !! path = files w !! path)
  /\ dom (files w') = dom (files w).

(** The query [get_page_extract] sends for the page [pageid]. *)
Definition extract_query (pageid : Z) : dict :=
  <["pageids" := QInt pageid]>
    (<["action" := QStr "query"]>
       (<["format" := QStr "json"]>
          (<["prop" := QStr "extracts"]>
             (<["explaintext" := QInt 1]>
                (<["exlimit" := QStr "1"]> ∅))))).

(** The query [crawl_category] sends for the members of kind [cmtype] of
    [category]. *)
Definition listing_query (category cmtype : string) : dict :=
  g_params (get_category_members category cmtype 500).

(** The record of the member [m] on the path [path], for a remote side that
    gives the page [pageid] the title [title pageid] and the extract
    [text pageid]. *)
Definition record_of (lang : string) (path : list string) (title text : Z -> string)
    (m : member) : OutputRecord :=
  Record_ lang path (title (m_pageid m)) (Some (m_pageid m)) (text (m_pageid m))
    (page_url lang (title (m_pageid m))).

(** The remote side knows the page of the member [m]: whenever it is asked
    for its extract it answers at once, with the page first, under a key that
    does not mark it as missing, with its identifier, its title and a text that
    is not blank. *)
Definition known (s : session) (api_url : string) (title text : Z -> string)
    (m : member) : Prop :=
  PyStr.is_empty (PyStr.strip (text (m_pageid m))) = false
  /\ forall c,
       exists data key rest,
         succeeded (s c api_url (extract_query (m_pageid m))) = Some data
         /\ b_pages data
            = (key, Page (Some (m_pageid m)) (Some (title (m_pageid m)))
                      (Some (text (m_pageid m)))) :: rest
         /\ PyStr.startswith key "-" = false.

(** Every listing the remote side gives comes in one batch, of at most
    [bound] members: no answer carries a continuation token. *)
Definition single_batches (s : session) (bound : nat) : Prop :=
  forall c url params data,
    succeeded (s c url params) = Some data ->
    b_continue data = None /\ (length (b_members data) <= bound)%nat.

(** The largest number of categories a crawl of depth [depth] can enter
    when no category has more than [bound] subcategories. *)
Fixpoint tree_size (bound depth : nat) : nat :=
  match depth with
  | O => 1
  | S depth' => 1 + bound * tree_size bound depth'
  end.

(** The largest number of requests such a crawl can send when no category
    has more than [bound] pages either: three attempts for each listing and
    for each page. *)
Fixpoint tree_requests (bound depth : nat) : nat :=
  match depth with
  | O => 3 + 3 * bound
  | S depth' => 3 + 3 * bound + (3 + bound * tree_requests bound depth')
  end.

(** Between [w] and [w'] at most [sent] requests were sent and at most
    [cats] categories entered. *)
Definition costs (sent cats : nat) (w w' : world) : Prop :=
  exists l,
    trace w' = trace w ++ l
    /\ (length (requests l) <= sent)%nat
    /\ (entered l <= cats)%nat.

(* ================================================================= *)
(** * Scenarios

    Concrete remote sides and starting worlds, used to run the program. *)

(** Nothing requested, printed or written yet; no set allocated; no file. *)
Definition w0 : world := World O [] (fun _ => ∅) O ∅.

Definition empty_body : body := Body [] [] None.

(** A remote side that answers the [n]-th request of the run with the
    [n]-th outcome of [outcomes], whatever is asked, and refuses every
    request after the last. *)
Definition script (outcomes : list attempt) : session :=
  fun n _ _ => nth n outcomes (RequestException "connection refused").

(** Status 503 twice, then 200. *)
Definition flaky : session :=
  script [Response 503 empty_body; Response 503 empty_body;
          Response 200 (Body [Member 1 "P1"] [] None)].

(** Status 503 for ever. *)
Definition down : session := fun _ _ _ => Response 503 empty_body.

Definition en_api : string := "https://en.wikipedia.org/w/api.php".

(** A small encyclopedia.  Category Physics holds the pages P1 (extract
    "Hello") and P2 (empty extract) and the subcategory Astrophysics, which
    holds the page P3 (extract "World"), the page P1 again, and Physics as a
    subcategory of its own.  Category Mathematics holds three pages with
    extracts.  Every request is answered at once with status 200. *)
Definition param_str (params : dict) (k : string) : string :=
  match params !! k with
  | Some (QStr v) => v
  | _ => EmptyString
  end.

Definition wiki_members (cmtitle cmtype : string) : list member :=
  if String.eqb cmtitle "Category:Physics" then
    if String.eqb cmtype "page" then [Member 1 "P1"; Member 2 "P2"]
    else [Member 10 "Category:Astrophysics"]
  else if String.eqb cmtitle "Category:Astrophysics" then
    if String.eqb cmtype "page" then [Member 3 "P3"; Member 1 "P1"]
    else [Member 11 "Category:Physics"]
  else if String.eqb cmtitle "Category:Mathematics" then
    if String.eqb cmtype "page"
    then [Member 4 "Algebra"; Member 5 "Number theory"; Member 6 "Topology"]
    else []
  else [].

Definition wiki_page (pageid : Z) : page :=
  if pageid =? 1 then Page (Some 1) (Some "P1") (Some "Hello")
  else if pageid =? 2 then Page (Some 2) (Some "P2") (Some EmptyString)
  else if pageid =? 3 then Page (Some 3) (Some "P3") (Some "World")
  else if pageid =? 4 then Page (Some 4) (Some "Algebra") (Some "Groups.")
  else if pageid =? 5 then Page (Some 5) (Some "Number theory") (Some "Primes.")
  else if pageid =? 6 then Page (Some 6) (Some "Topology") (Some "Spaces.")
  else Page (Some pageid) None None.

Definition wiki : session :=
  fun _ _ params =>
    match params !! "pageids" with
    | Some (QInt n) =>
        Response 200 (Body [] [(Json.dump_int n, wiki_page n)] None)
    | _ =>
        Response 200
          (Body (wiki_members (param_str params "cmtitle")
                   (param_str params "cmtype")) [] None)
    end.

(** Two pages of a listing: the first answer carries a continuation token. *)
Definition two_batches : list body :=
  [ Body [Member 1 "P1"; Member 2 "P2"] []
      (Some (<["cmcontinue" := QStr "page|P3|3"]> (<["continue" := QStr "-||"]> ∅)));
    Body [Member 3 "P3"] [] None ].

Definition paging : session :=
  script (Response 200 <$> two_batches).

(** The small encyclopedia behind a service that is down for the first
    three requests of the run. *)
Definition outage : session :=
  fun n url params =>
    if (n <? 3)%nat then Response 503 empty_body else wiki n url params.

(** Every listing is empty and comes with a token to go on. *)
Definition more_to_come : session :=
  fun _ _ _ =>
    Response 200 (Body [] [] (Some (<["cmcontinue" := QStr "page|X|1"]> ∅))).

(** A page with an extract but without a title. *)
Definition untitled : session :=
  fun _ _ _ =>
    Response 200 (Body [] [("7", Page (Some 7) None (Some "Text"))] None).

(** Every answer has status 200 and an empty body. *)
Definition bare : session := fun _ _ _ => Response 200 empty_body.

(** The titles and the texts of the pages of the small encyclopedia. *)
Definition wiki_title (pageid : Z) : string :=
  default EmptyString (p_title (wiki_page pageid)).

Definition wiki_text (pageid : Z) : string :=
  default EmptyString (p_extract (wiki_page pageid)).




(** Two pages in the listing of every category; whichever page is asked
    for, the remote side answers with the page 99. *)
Definition same_page : session :=
  fun _ _ params =>
    match params !! "pageids" with
    | Some (QInt n) =>
        Response 200 (Body [] [("99", Page (Some 99) (Some "Q") (Some "Text"))] None)
    | _ => Response 200 (Body [Member 1 "P1"; Member 2 "P2"] [] None)
    end.

(** Three pages in the listing of every category, each with a text; the
    first comes without a title. *)
Definition untitled_first : session :=
  fun _ _ params =>
    match params !! "pageids" with
    | Some (QInt n) =>
        Response 200
          (Body []
             [(Json.dump_int n,
               Page (Some n) (if n =? 7 then None else Some "T") (Some "Text"))]
             None)
    | _ => Response 200 (Body [Member 7 "A"; Member 8 "B"; Member 9 "C"] [] None)
    end.



(* END SCENARIOS *)

(* ================================================================= *)
(** * Generalities on runs *)

Lemma events_app (w w' : world) (l : list event) :
  trace w' = trace w ++ l -> events w w' = l.
Proof.
  intros H. unfold events. rewrite H. apply drop_app_length.
Qed.

Lemma writes_app (l1 l2 : list event) : writes (l1 ++ l2) = writes l1 ++ writes l2.
Proof.
  induction l1 as [|e l1 IH]; [reflexivity|].
  destruct e; simpl; rewrite ?IH; reflexivity.
Qed.

Lemma writes_net (l : list event) : forallb net_event l = true -> writes l = [].
Proof.
  induction l as [|e l IH]; [reflexivity|].
  simpl. intros [He Hl]%andb_prop. destruct e; try discriminate; auto.
Qed.

Lemma quiet_refl (w : world) : quiet w w.
Proof.
  split; try reflexivity. exists []. split; [by rewrite app_nil_r | reflexivity].
Qed.

Lemma quiet_trans (w1 w2 w3 : world) : quiet w1 w2 -> quiet w2 w3 -> quiet w1 w3.
Proof.
  intros [S1 N1 F1 (l1 & T1 & A1)] [S2 N2 F2 (l2 & T2 & A2)].
  split; try congruence.
  exists (l1 ++ l2). split.
  - rewrite T2, T1. by rewrite app_assoc.
  - rewrite forallb_app, A1, A2. reflexivity.
Qed.

Lemma quiet_emit (e : event) (w : world) :
  net_event e = true -> quiet w (emit e w).2.
Proof.
  intros He. split; try reflexivity.
  exists [e]. split; [reflexivity|]. simpl. by rewrite He.
Qed.

Lemma quiet_session_get (s : session) url params (w : world) :
  quiet w (session_get s url params w).2.
Proof.
  split; try reflexivity. exists [EGet url params]. split; reflexivity.
Qed.

(* ================================================================= *)
(** * The HTTP access layer *)

Section Http.

Variable s : session.
Variable url : string.
Variable params : dict.

Lemma api_get_attempts_failure (w : world) :
  succeeded (s (clock w) url params) = None ->
  exists w2, clock w2 = S (clock w) /\ quiet w w2
    /\ forall n, api_get_attempts (S n) s url params w
                 = api_get_attempts n s url params w2.
Proof.
  intros Hfail.
  pose proof (quiet_session_get s url params w) as Q1.
  simpl in Q1. unfold succeeded in Hfail.
  destruct (s (clock w) url params) as [e|st d] eqn:E.
  - eexists. split; [|split]; cycle 2.
    + intros n. simpl. unfold bind. simpl. rewrite E. simpl. reflexivity.
    + reflexivity.
    + eapply quiet_trans; [exact Q1|].
      eapply quiet_trans;
        [apply (quiet_emit (EPrint (LogRequestFailed e))); reflexivity|].
      apply (quiet_emit (ESleep RETRY_WAIT)). reflexivity.
  - destruct (st =? 200) eqn:E200; [discriminate|].
    eexists. split; [|split]; cycle 2.
    + intros n. simpl. unfold bind. simpl. rewrite E, E200. simpl. reflexivity.
    + reflexivity.
    + eapply quiet_trans; [exact Q1|].
      eapply quiet_trans;
        [apply (quiet_emit (EPrint (LogHttpStatus st url params))); reflexivity|].
      apply (quiet_emit (ESleep RETRY_WAIT)). reflexivity.
Qed.

Lemma api_get_attempts_200 (w : world) (data : body) :
  succeeded (s (clock w) url params) = Some data ->
  exists w1, clock w1 = S (clock w) /\ quiet w w1
    /\ forall n, api_get_attempts (S n) s url params w = (Ok data, w1).
Proof.
  intros Hok.
  pose proof (quiet_session_get s url params w) as Q1.
  simpl in Q1. unfold succeeded in Hok.
  destruct (s (clock w) url params) as [e|st d] eqn:E; [discriminate|].
  destruct (st =? 200) eqn:E200; [|discriminate].
  injection Hok as ->.
  eexists. split; [|split]; cycle 2.
  - intros n. simpl. unfold bind. simpl. rewrite E, E200. reflexivity.
  - reflexivity.
  - exact Q1.
Qed.

Lemma succeeded_cases (w : world) :
  (exists data, succeeded (s (clock w) url params) = Some data)
  \/ succeeded (s (clock w) url params) = None.
Proof. destruct (succeeded _); eauto. Qed.

Lemma api_get_attempts_quiet (n : nat) (w : world) :
  quiet w (api_get_attempts n s url params w).2.
Proof.
  revert w. induction n as [|n IH]; intros w.
  - apply quiet_refl.
  - destruct (succeeded_cases w) as [[data Hok]|Hfail].
    + destruct (api_get_attempts_200 w data Hok) as (w1 & _ & Q & ->). exact Q.
    + destruct (api_get_attempts_failure w Hfail) as (w2 & _ & Q & ->).
      eapply quiet_trans; [exact Q | apply IH].
Qed.

Lemma api_get_attempts_clock (n : nat) (w : world) :
  (clock (api_get_attempts n s url params w).2 <= clock w + n)%nat.
Proof.
  revert w. induction n as [|n IH]; intros w; [simpl; lia|].
  destruct (succeeded_cases w) as [[data Hok]|Hfail].
  - destruct (api_get_attempts_200 w data Hok) as (w1 & C & _ & ->). simpl. lia.
  - destruct (api_get_attempts_failure w Hfail) as (w2 & C & _ & ->).
    etrans; [apply IH|]. lia.
Qed.

Lemma api_get_attempts_success (n k : nat) (data : body) (w : world) :
  (k < n)%nat ->
  (forall j, (j < k)%nat -> succeeded (s (clock w + j)%nat url params) = None) ->
  succeeded (s (clock w + k)%nat url params) = Some data ->
  (api_get_attempts n s url params w).1 = Ok data
  /\ clock (api_get_attempts n s url params w).2 = (clock w + k + 1)%nat.
Proof.
  revert k w. induction n as [|n IH]; intros k w Hk Hfail Hok; [lia|].
  destruct k as [|k].
  - rewrite Nat.add_0_r in Hok.
    destruct (api_get_attempts_200 w data Hok) as (w1 & C & _ & ->).
    simpl. split; [reflexivity | lia].
  - pose proof (Hfail O ltac:(lia)) as H0. rewrite Nat.add_0_r in H0.
    destruct (api_get_attempts_failure w H0) as (w2 & C & _ & ->).
    destruct (IH k w2) as [R C2].
    + lia.
    + intros j Hj. rewrite C, Nat.add_succ_comm. apply Hfail. lia.
    + rewrite C, Nat.add_succ_comm. exact Hok.
    + split; [exact R|]. rewrite C2, C. lia.
Qed.

Lemma api_get_attempts_exhausted (n : nat) (w : world) :
  (forall j, (j < n)%nat -> succeeded (s (clock w + j)%nat url params) = None) ->
  (api_get_attempts n s url params w).1 = Raise (fetch_failed url)
  /\ clock (api_get_attempts n s url params w).2 = (clock w + n)%nat.
Proof.
  revert w. induction n as [|n IH]; intros w Hfail.
  - simpl. split; [reflexivity | lia].
  - pose proof (Hfail O ltac:(lia)) as H0. rewrite Nat.add_0_r in H0.
    destruct (api_get_attempts_failure w H0) as (w2 & C & _ & ->).
    destruct (IH w2) as [R C2].
    + intros j Hj. rewrite C, Nat.add_succ_comm. apply Hfail. lia.
    + split; [exact R|]. rewrite C2, C. lia.
Qed.

(** A body returned by [api_get] is the body of a status-200 answer of the
    remote side to this very request. *)
Lemma api_get_attempts_inv (n : nat) (w : world) (data : body) :
  (api_get_attempts n s url params w).1 = Ok data ->
  exists c, succeeded (s c url params) = Some data.
Proof.
  revert w. induction n as [|n IH]; intros w; [discriminate|].
  destruct (succeeded_cases w) as [[d Hok]|Hfail].
  - destruct (api_get_attempts_200 w d Hok) as (w1 & _ & _ & ->).
    intros [= ->]. eauto.
  - destruct (api_get_attempts_failure w Hfail) as (w2 & _ & _ & ->). apply IH.
Qed.

Lemma api_get_attempts_raise (n : nat) (w : world) (e : exn) :
  (api_get_attempts n s url params w).1 = Raise e -> e = fetch_failed url.
Proof.
  revert w. induction n as [|n IH]; intros w; [by intros [= <-]|].
  destruct (succeeded_cases w) as [[d Hok]|Hfail].
  - destruct (api_get_attempts_200 w d Hok) as (w1 & _ & _ & ->). discriminate.
  - destruct (api_get_attempts_failure w Hfail) as (w2 & _ & _ & ->). apply IH.
Qed.

Lemma api_get_attempts_ends (n : nat) (w : world) :
  (api_get_attempts n s url params w).1 <> Diverge.
Proof.
  revert w. induction n as [|n IH]; intros w; [discriminate|].
  destruct (succeeded_cases w) as [[d Hok]|Hfail].
  - destruct (api_get_attempts_200 w d Hok) as (w1 & _ & _ & ->). discriminate.
  - destruct (api_get_attempts_failure w Hfail) as (w2 & _ & _ & ->). apply IH.
Qed.

End Http.

Lemma string_length_app (a b : string) :
  String.length (a +:+ b) = (String.length a + String.length b)%nat.
Proof. induction a as [|c a IH]; simpl; [reflexivity | by rewrite IH]. Qed.

Lemma string_app_inv_tail (a b t : string) : a +:+ t = b +:+ t -> a = b.
Proof.
  intros H.
  assert (L : String.length a = String.length b).
  { apply (f_equal String.length) in H. rewrite !string_length_app in H. lia. }
  revert b L H. induction a as [|c a IH]; intros [|d b]; simpl;
    try discriminate; [reflexivity|].
  intros [= L] [= -> H]. f_equal. by apply IH.
Qed.

Lemma fetch_failed_message (url : string) :
  fetch_failed url
  = RuntimeError ("Failed to fetch " +:+ url +:+ " after 3 retries.").
Proof. reflexivity. Qed.

Lemma fetch_failed_inj (url url' : string) :
  fetch_failed url = fetch_failed url' -> url = url'.
Proof.
  rewrite !fetch_failed_message. intros [= H].
  change (url +:+ " after 3 retries." = url' +:+ " after 3 retries.") in H.
  by apply string_app_inv_tail in H.
Qed.

(** C4 (as amended).  [api_get] makes at most three attempts.  The first
    attempt that is answered with status 200 ends the call at once with the
    parsed body of that answer, so that after two failures a third attempt
    with status 200 succeeds and no error reaches the caller.  When all three
    attempts fail (an exception of the transport or a status other than 200)
    the call raises the exhaustion error, a [RuntimeError] whose message
    names the URL and the number of retries: the URL can be read back from
    it, the query parameters are not part of it. *)
Theorem api_get_retry_policy (s : session) (url : string) (params : dict)
    (w : world) :
  (clock (api_get s url params w).2 <= clock w + 3)%nat
  /\ (forall k data,
        (k < 3)%nat ->
        (forall j, (j < k)%nat ->
           succeeded (s (clock w + j)%nat url params) = None) ->
        succeeded (s (clock w + k)%nat url params) = Some data ->
        (api_get s url params w).1 = Ok data
        /\ clock (api_get s url params w).2 = (clock w + k + 1)%nat)
  /\ ((forall j, (j < 3)%nat ->
         succeeded (s (clock w + j)%nat url params) = None) ->
      (api_get s url params w).1
      = Raise (RuntimeError ("Failed to fetch " +:+ url +:+ " after 3 retries."))
      /\ clock (api_get s url params w).2 = (clock w + 3)%nat)
  /\ (forall e, (api_get s url params w).1 = Raise e -> e = fetch_failed url)
  /\ (forall url', fetch_failed url = fetch_failed url' -> url = url').
Proof.
  unfold api_get, MAX_RETRIES. repeat split.
  - apply api_get_attempts_clock.
  - eapply api_get_attempts_success; eauto.
  - eapply api_get_attempts_success; eauto.
  - rewrite <- fetch_failed_message. by apply api_get_attempts_exhausted.
  - by apply api_get_attempts_exhausted.
  - apply api_get_attempts_raise.
  - apply fetch_failed_inj.
Qed.

(** The scenario of the specification: status 503 twice, then 200. *)
Lemma api_get_retry_policy_witness :
  (api_get flaky en_api ∅ w0).1 = Ok (Body [Member 1 "P1"] [] None)
  /\ clock (api_get flaky en_api ∅ w0).2 = 3%nat.
Proof.
  destruct (api_get_retry_policy flaky en_api ∅ w0) as (_ & H & _).
  apply (H 2%nat).
  - lia.
  - intros [|[|j]] Hj; [reflexivity | reflexivity | lia].
  - reflexivity.
Defined.

(** C4, as stated, fails: two calls that differ only in their query
    parameters raise the very same error when their attempts are exhausted,
    so the error does not carry the parameters. *)
Lemma api_get_error_omits_params :
  exists e,
    (api_get down en_api ∅ w0).1 = Raise e
    /\ (api_get down en_api (<["cmtype" := QStr "page"]> ∅) w0).1 = Raise e
    /\ (∅ : dict) <> <["cmtype" := QStr "page"]> ∅.
Proof.
  exists (fetch_failed en_api). split; [|split].
  - reflexivity.
  - reflexivity.
  - intros H. apply (f_equal (lookup "cmtype")) in H.
    rewrite lookup_empty, lookup_insert_eq in H. discriminate.
Qed.


(* ================================================================= *)
(** * The page extract fetcher *)

Section Extract.

Variable s : session.
Variable api_url : string.

Lemma api_get_quiet params (w : world) : quiet w (api_get s api_url params w).2.
Proof. apply api_get_attempts_quiet. Qed.

Lemma get_page_extract_quiet pageid title (w : world) :
  quiet w (get_page_extract s api_url pageid title w).2.
Proof.
  unfold get_page_extract.
  destruct pageid as [pid|]; [|destruct title as [t|]]; unfold bind; simpl;
    try apply quiet_refl.
  all: match goal with |- context [api_get s api_url ?p ?w0] =>
         pose proof (api_get_quiet p w0) as Q;
         destruct (api_get s api_url p w0) as [[data|e|] w1] end;
    simpl in *; try exact Q.
  all: destruct (b_pages data) as [|[key p] rest]; simpl; try exact Q.
  all: destruct (PyStr.startswith key "-"); exact Q.
Qed.

(** What [get_page_extract] returns for a page identifier comes from the
    first entry of [query.pages] in a status-200 answer to a request that
    asks for this identifier. *)
Lemma get_page_extract_inv (pid : Z) (w : world) (i : info) :
  (get_page_extract s api_url (Some pid) None w).1 = Ok (Some i) ->
  exists c params data key p rest,
    params !! "pageids" = Some (QInt pid)
    /\ succeeded (s c api_url params) = Some data
    /\ b_pages data = (key, p) :: rest
    /\ i = Info (p_pageid p) (p_title p) (default EmptyString (p_extract p)).
Proof.
  unfold get_page_extract. unfold bind at 1. simpl. unfold bind.
  match goal with |- context [api_get s api_url ?p w] =>
    set (params := p);
    pose proof (api_get_attempts_inv s api_url params MAX_RETRIES w) as Hinv;
    fold (api_get s api_url params w) in Hinv;
    destruct (api_get s api_url params w) as [[data|e|] w1] end;
    simpl; try discriminate.
  destruct (Hinv data eq_refl) as [c Hc].
  destruct (b_pages data) as [|[key p] rest] eqn:Hp; simpl; [discriminate|].
  destruct (PyStr.startswith key "-"); simpl; [discriminate|].
  intros [= <-]. exists c, params, data, key, p, rest.
  split; [apply lookup_insert_eq|]. repeat split; assumption.
Qed.

Lemma get_page_extract_ends pageid title (w : world) :
  (get_page_extract s api_url pageid title w).1 <> Diverge.
Proof.
  unfold get_page_extract.
  destruct pageid as [pid|]; [|destruct title as [t|]]; unfold bind; simpl;
    try discriminate.
  all: match goal with |- context [api_get s api_url ?p ?w0] =>
         pose proof (api_get_attempts_ends s api_url p MAX_RETRIES w0) as Q;
         fold (api_get s api_url p w0) in Q;
         destruct (api_get s api_url p w0) as [[data|e|] w1] end;
    simpl in *; try done.
  all: destruct (b_pages data) as [|[key p] rest]; simpl; try done.
  all: destruct (PyStr.startswith key "-"); done.
Qed.

End Extract.

(** C5 (as amended).  [get_page_extract] needs the page identifier or the
    title.  A call that supplies neither raises [ValueError] with the world
    untouched, hence before any request.  A call that supplies the page
    identifier uses it, whether a title comes with it or not: the title is
    ignored.  [ValueError] is raised in no other case. *)
Theorem get_page_extract_arguments (s : session) (api_url : string) (w : world) :
  get_page_extract s api_url None None w
  = (Raise (ValueError "pageid or title required"), w)
  /\ (forall pid title,
        get_page_extract s api_url (Some pid) title w
        = get_page_extract s api_url (Some pid) None w)
  /\ (forall pageid title msg,
        (get_page_extract s api_url pageid title w).1 = Raise (ValueError msg) ->
        pageid = None /\ title = None).
Proof.
  split; [reflexivity|]. split; [reflexivity|].
  intros pageid title msg.
  destruct pageid as [pid|]; [|destruct title as [t|]]; [| |done].
  all: unfold get_page_extract; unfold bind at 1; simpl; unfold bind.
  all: match goal with |- context [api_get ?s0 ?u ?p ?w0] =>
         pose proof (api_get_attempts_raise s0 u p MAX_RETRIES w0) as Hr;
         fold (api_get s0 u p w0) in Hr;
         destruct (api_get s0 u p w0) as [[data|e|] w1] end; simpl in *.
  all: try discriminate.
  all: try (intros [= ->]; specialize (Hr _ eq_refl); discriminate).
  all: destruct (b_pages data) as [|[key p] rest]; simpl; try discriminate.
  all: destruct (PyStr.startswith key "-"); discriminate.
Qed.

(** C5, as stated, fails: a call that supplies both the page identifier and
    the title raises nothing; it sends its request and returns the page. *)
Lemma get_page_extract_accepts_both :
  (get_page_extract wiki en_api (Some 1) (Some "P1") w0).1
  = Ok (Some (Info (Some 1) (Some "P1") "Hello"))
  /\ length (requests (trace (get_page_extract wiki en_api (Some 1) (Some "P1") w0).2))
     = 1%nat.
Proof. split; reflexivity. Qed.

(* ================================================================= *)
(** * The category member enumerator *)

Section Enumerator.

Variable s : session.
Variable api_url : string.

Lemma api_get_first (params : dict) (w : world) (data : body) :
  succeeded (s (clock w) api_url params) = Some data ->
  api_get s api_url params w = (Ok data, (session_get s api_url params w).2).
Proof.
  intros H. unfold api_get, MAX_RETRIES. simpl. unfold bind. simpl.
  unfold succeeded in H.
  destruct (s (clock w) api_url params) as [e|st d]; [discriminate|].
  destruct (st =? 200); [|discriminate]. by injection H as ->.
Qed.

Lemma gen_next_buffer (fuel : nat) params m ms cont (w : world) :
  gen_next fuel s api_url (Generator params (m :: ms) cont) w
  = (Ok (Some (m, Generator params ms cont)), w).
Proof. destruct fuel; reflexivity. Qed.

Lemma gen_next_stop (fuel : nat) params (w : world) :
  gen_next fuel s api_url (Generator params [] None) w = (Ok None, w).
Proof. destruct fuel; reflexivity. Qed.

Lemma gen_next_refill (fuel : nat) params cont (w : world) :
  gen_next (S fuel) s api_url (Generator params [] (Some cont)) w
  = match api_get s api_url (cont ∪ params) w with
    | (Ok data, w1) =>
        gen_next fuel s api_url
          (Generator (cont ∪ params) (b_members data) (b_continue data)) w1
    | (Raise e, w1) => (Raise e, w1)
    | (Diverge, w1) => (Diverge, w1)
    end.
Proof. reflexivity. Qed.

Lemma gen_next_quiet (fuel : nat) (g : generator) (w : world) :
  quiet w (gen_next fuel s api_url g w).2.
Proof.
  revert g w. induction fuel as [|fuel IH]; intros [params [|m ms] [cont|]] w.
  all: rewrite ?gen_next_buffer, ?gen_next_stop; try apply quiet_refl.
  rewrite gen_next_refill.
  pose proof (api_get_quiet s api_url (cont ∪ params) w) as Q.
  destruct (api_get s api_url (cont ∪ params) w) as [[data|e|] w1];
    simpl in *; try exact Q.
  eapply quiet_trans; [exact Q | apply IH].
Qed.

(** More fuel does not change a run that ended. *)
Lemma gen_next_mono (fuel : nat) (g : generator) (w : world) :
  (gen_next fuel s api_url g w).1 <> Diverge ->
  gen_next (S fuel) s api_url g w = gen_next fuel s api_url g w.
Proof.
  revert g w. induction fuel as [|fuel IH]; intros [params [|m ms] [cont|]] w.
  all: rewrite ?gen_next_buffer, ?gen_next_stop; try reflexivity.
  - simpl. congruence.
  - rewrite !gen_next_refill.
    destruct (api_get s api_url (cont ∪ params) w) as [[data|e|] w1];
      try reflexivity.
    apply IH.
Qed.

Lemma gen_list_S (fuel : nat) (g : generator) (w : world) :
  gen_list (S fuel) s api_url g w
  = match gen_next fuel s api_url g w with
    | (Ok None, w1) => (Ok [], w1)
    | (Ok (Some (m, g')), w1) =>
        match gen_list fuel s api_url g' w1 with
        | (Ok ms, w2) => (Ok (m :: ms), w2)
        | (Raise e, w2) => (Raise e, w2)
        | (Diverge, w2) => (Diverge, w2)
        end
    | (Raise e, w1) => (Raise e, w1)
    | (Diverge, w1) => (Diverge, w1)
    end.
Proof.
  simpl. unfold bind.
  destruct (gen_next fuel s api_url g w) as [[[[m g']|]|e|] w1]; reflexivity.
Qed.

Lemma gen_list_mono (fuel : nat) (g : generator) (w : world) :
  (gen_list fuel s api_url g w).1 <> Diverge ->
  gen_list (S fuel) s api_url g w = gen_list fuel s api_url g w.
Proof.
  revert g w. induction fuel as [|fuel IH]; intros g w; [simpl; congruence|].
  rewrite (gen_list_S (S fuel)), (gen_list_S fuel). intros H.
  rewrite gen_next_mono.
  - destruct (gen_next fuel s api_url g w) as [[[[m g']|]|e|] w1]; try reflexivity.
    rewrite IH; [reflexivity|].
    destruct (gen_list fuel s api_url g' w1) as [[l|e|] w2]; simpl in *; congruence.
  - destruct (gen_next fuel s api_url g w) as [[x|e|] w1]; simpl in *; congruence.
Qed.

Lemma gen_list_mono_le (fuel fuel' : nat) (g : generator) (w : world) :
  (fuel <= fuel')%nat ->
  (gen_list fuel s api_url g w).1 <> Diverge ->
  gen_list fuel' s api_url g w = gen_list fuel s api_url g w.
Proof.
  induction 1 as [|fuel' Hle IH]; [reflexivity|].
  intros H. rewrite gen_list_mono; [by apply IH|]. rewrite IH; assumption.
Qed.

(** The members still in the buffer come first. *)
Lemma gen_list_buffer (fuel : nat) params ms cont (w : world) (l : list member)
    (w' : world) :
  gen_list fuel s api_url (Generator params [] cont) w = (Ok l, w') ->
  gen_list (length ms + fuel) s api_url (Generator params ms cont) w
  = (Ok (ms ++ l), w').
Proof.
  intros H. induction ms as [|m ms IH]; [exact H|].
  simpl length. rewrite Nat.add_succ_l, gen_list_S, gen_next_buffer, IH.
  reflexivity.
Qed.

(** A round of the [while] loop: the request is sent and its answer
    becomes the buffer. *)
Lemma gen_list_refill (fuel : nat) params cont (w w1 w' : world) (data : body)
    (l : list member) :
  api_get s api_url (cont ∪ params) w = (Ok data, w1) ->
  gen_list fuel s api_url
    (Generator (cont ∪ params) (b_members data) (b_continue data)) w1
  = (Ok l, w') ->
  gen_list (S fuel) s api_url (Generator params [] (Some cont)) w = (Ok l, w').
Proof.
  intros Hget H. destruct fuel as [|fuel]; [discriminate|].
  rewrite gen_list_S in H. rewrite gen_list_S, gen_next_refill, Hget.
  set (g1 := Generator (cont ∪ params) (b_members data) (b_continue data)) in *.
  destruct (gen_next fuel s api_url g1 w1) as [[[[m g']|]|e|] w2] eqn:E;
    try discriminate.
  - destruct (gen_list fuel s api_url g' w2) as [[ms|e|] w3] eqn:E2;
      try discriminate.
    rewrite gen_list_mono; rewrite E2; [exact H | discriminate].
  - exact H.
Qed.

Lemma serves_tail (c : nat) (b : body) (bs : list body) (w1 : world) :
  serves s c (b :: bs) -> clock w1 = S c -> serves s (clock w1) bs.
Proof.
  intros H C k b' url params Hk. rewrite C, Nat.add_succ_comm.
  by apply H.
Qed.

Lemma gen_list_paged (bodies : list body) params cont (w : world) :
  paged bodies = true ->
  serves s (clock w) bodies ->
  exists w',
    gen_list (enough_fuel bodies) s api_url (Generator params [] (Some cont)) w
    = (Ok (concat (b_members <$> bodies)), w')
    /\ clock w' = (clock w + length bodies)%nat
    /\ trace w' = trace w ++ (EGet api_url <$> paged_params (cont ∪ params) bodies).
Proof.
  revert params cont w.
  induction bodies as [|b bs IH]; intros params cont w Hp Hs; [discriminate|].
  assert (Hget : api_get s api_url (cont ∪ params) w
                 = (Ok b, (session_get s api_url (cont ∪ params) w).2)).
  { apply api_get_first. specialize (Hs O b api_url (cont ∪ params) eq_refl).
    by rewrite Nat.add_0_r in Hs. }
  set (w1 := (session_get s api_url (cont ∪ params) w).2) in *.
  assert (Hfuel : enough_fuel (b :: bs)
                  = S (length (b_members b) + match bs with
                                              | [] => 1%nat
                                              | _ => enough_fuel bs
                                              end)).
  { unfold enough_fuel. destruct bs; simpl; rewrite ?length_app; simpl; lia. }
  rewrite Hfuel. destruct bs as [|b2 bs].
  - simpl in Hp. destruct (b_continue b) as [c'|] eqn:Hc.
    { rewrite bool_decide_eq_true_2 in Hp by eauto. discriminate. }
    exists w1. split; [|split].
    + eapply gen_list_refill; [exact Hget|]. rewrite Hc.
      change (concat (b_members <$> [b])) with (b_members b ++ []).
      apply gen_list_buffer. rewrite gen_list_S, gen_next_stop. reflexivity.
    + simpl. lia.
    + reflexivity.
  - assert (Hc : exists c', b_continue b = Some c' /\ paged (b2 :: bs) = true).
    { change (paged (b :: b2 :: bs))
        with (bool_decide (is_Some (b_continue b)) && paged (b2 :: bs)) in Hp.
      apply andb_prop in Hp as [H1 H2]. apply bool_decide_eq_true_1 in H1.
      destruct H1 as [c' H1]. eauto. }
    destruct Hc as (c' & Hc & Hp').
    destruct (IH (cont ∪ params) c' w1 Hp') as (w' & Hrun & Hclock & Htrace).
    { eapply serves_tail; [exact Hs | reflexivity]. }
    exists w'. split; [|split].
    + eapply gen_list_refill; [exact Hget|]. rewrite Hc.
      change (concat (b_members <$> b :: b2 :: bs))
        with (b_members b ++ concat (b_members <$> b2 :: bs)).
      by apply gen_list_buffer.
    + rewrite Hclock. simpl. lia.
    + rewrite Htrace. simpl trace. rewrite <- app_assoc.
      change (paged_params (cont ∪ params) (b :: b2 :: bs))
        with ((cont ∪ params)
              :: paged_params (default ∅ (b_continue b) ∪ (cont ∪ params)) (b2 :: bs)).
      rewrite Hc. reflexivity.
Qed.

End Enumerator.

Lemma requests_gets (url : string) (l : list dict) :
  requests (EGet url <$> l) = (fun p => (url, p)) <$> l.
Proof. induction l as [|p l IH]; simpl; [reflexivity | f_equal; exact IH]. Qed.

(** A token that has the keys of the token before it replaces it. *)
Lemma union_absorb (c c0 base : dict) :
  dom c0 ⊆ dom c -> c ∪ (c0 ∪ base) = c ∪ base.
Proof.
  intros Hdom. apply map_eq. intros i. rewrite !lookup_union.
  destruct (c !! i) as [x|] eqn:E; [by destruct (c0 !! i), (base !! i)|].
  assert (c0 !! i = None) as ->; [|by destruct (base !! i)].
  apply not_elem_of_dom. apply not_elem_of_dom in E. set_solver.
Qed.

Lemma paged_params_same_keys (bodies : list body) (c0 base : dict) :
  paged bodies = true ->
  (forall c, c ∈ tokens bodies -> dom c0 ⊆ dom c) ->
  (forall c c', c ∈ tokens bodies -> c' ∈ tokens bodies -> dom c = dom c') ->
  paged_params (c0 ∪ base) bodies
  = (c0 ∪ base) :: ((fun c => c ∪ base) <$> tokens bodies).
Proof.
  revert c0. induction bodies as [|b bs IH]; intros c0 Hp H0 Hsame; [discriminate|].
  destruct bs as [|b2 bs].
  - simpl in Hp. unfold tokens. simpl.
    destruct (b_continue b); [|reflexivity].
    rewrite bool_decide_eq_true_2 in Hp by eauto. discriminate.
  - change (paged (b :: b2 :: bs))
      with (bool_decide (is_Some (b_continue b)) && paged (b2 :: bs)) in Hp.
    apply andb_prop in Hp as [H1 Hp]. apply bool_decide_eq_true_1 in H1.
    destruct H1 as [c Hc].
    assert (Ht : tokens (b :: b2 :: bs) = c :: tokens (b2 :: bs)).
    { unfold tokens. simpl. by rewrite Hc. }
    rewrite Ht in *.
    change (paged_params (c0 ∪ base) (b :: b2 :: bs))
      with ((c0 ∪ base)
            :: paged_params (default ∅ (b_continue b) ∪ (c0 ∪ base)) (b2 :: bs)).
    rewrite Hc. simpl default.
    rewrite union_absorb by (apply H0; left).
    rewrite IH; [reflexivity | exact Hp | |].
    + intros c' Hc'. rewrite (Hsame c c'); [done | left | by right].
    + intros c1 c2 H1 H2. apply Hsame; by right.
Qed.

(** C8.  Let the remote side answer the requests of an enumeration with a
    finite sequence of bodies of which the last, and only the last, comes
    without a continuation token.  Then, with enough fuel, the enumerator
    yields the members of the batches in order, one batch after the other
    -- the concatenation of the batches --, and returns.  It sends exactly one
    request per body: the first with the query it starts from, each later one
    with the parameters of the request before it updated with the token that
    request was answered with, and none after the answer without a token.
    When the tokens all have the same keys, each later request is the query
    the enumeration started from merged with the last token. *)
Theorem get_category_members_pagination (s : session) (api_url : string)
    (category cmtype : string) (limit : Z) (bodies : list body) (fuel : nat)
    (w : world) :
  paged bodies = true ->
  serves s (clock w) bodies ->
  (enough_fuel bodies <= fuel)%nat ->
  (gen_list fuel s api_url (get_category_members category cmtype limit) w).1
  = Ok (concat (b_members <$> bodies))
  /\ requests
       (events w
          (gen_list fuel s api_url (get_category_members category cmtype limit) w).2)
     = (fun p => (api_url, p))
       <$> paged_params (g_params (get_category_members category cmtype limit)) bodies
  /\ clock (gen_list fuel s api_url (get_category_members category cmtype limit) w).2
     = (clock w + length bodies)%nat
  /\ ((forall c c', c ∈ tokens bodies -> c' ∈ tokens bodies -> dom c = dom c') ->
      paged_params (g_params (get_category_members category cmtype limit)) bodies
      = g_params (get_category_members category cmtype limit)
        :: ((fun c => c ∪ g_params (get_category_members category cmtype limit))
            <$> tokens bodies)).
Proof.
  intros Hp Hs Hfuel.
  split; [|split; [|split]]; cycle 3.
  { intros Hsame.
    pose proof (paged_params_same_keys bodies ∅
                  (g_params (get_category_members category cmtype limit))
                  Hp) as H.
    rewrite (left_id_L ∅ (∪)) in H. apply H; [|exact Hsame].
    intros c _. rewrite dom_empty_L. set_solver. }
  all: unfold get_category_members.
  all: match goal with |- context [Generator ?p [] (Some ∅)] => set (params := p) end.
  all: destruct (gen_list_paged s api_url bodies params ∅ w Hp Hs)
         as (w' & Hrun & Hclock & Htrace).
  all: rewrite (gen_list_mono_le s api_url _ _ _ _ Hfuel);
         rewrite Hrun; [|discriminate..].
  - reflexivity.
  - simpl snd. rewrite (events_app _ _ _ Htrace), requests_gets.
    rewrite (left_id_L ∅ (∪)). reflexivity.
  - exact Hclock.
Qed.

(** A listing in two batches. *)
Lemma get_category_members_pagination_witness :
  (gen_list 6 paging en_api (get_category_members "Physics" "page" 500) w0).1
  = Ok [Member 1 "P1"; Member 2 "P2"; Member 3 "P3"]
  /\ clock (gen_list 6 paging en_api (get_category_members "Physics" "page" 500) w0).2
     = 2%nat.
Proof.
  destruct (get_category_members_pagination paging en_api "Physics" "page" 500
              two_batches 6 w0) as (H1 & _ & H2 & _).
  - reflexivity.
  - intros [|[|k]] b url params; simpl; intros [= <-]; reflexivity.
  - unfold enough_fuel. simpl. lia.
  - split; [exact H1 | exact H2].
Defined.

(* ================================================================= *)
(** * The category crawler: step equations *)

Section CrawlSteps.

Variable s : session.
Variable api_url out_fh lang : string.
Variable max_pages_per_cat : nat.

Local Abbreviation member_step :=
  (crawl_member s api_url out_fh lang max_pages_per_cat).
Local Abbreviation members_loop :=
  (crawl_members s api_url out_fh lang max_pages_per_cat).
Local Abbreviation pages_phase :=
  (crawl_pages s api_url out_fh lang max_pages_per_cat).
Local Abbreviation subcats_loop := (crawl_subcats s api_url).
Local Abbreviation category_call :=
  (crawl_category s api_url out_fh lang max_pages_per_cat).

Lemma crawl_members_S (fuel seen : nat) path (g : generator) (count : nat)
    (w : world) :
  members_loop (S fuel) seen path g count w
  = match gen_next fuel s api_url g w with
    | (Ok None, w1) => (Ok tt, w1)
    | (Ok (Some (m, g')), w1) =>
        match member_step seen path count m w1 with
        | (Ok None, w2) => (Ok tt, w2)
        | (Ok (Some count'), w2) => members_loop fuel seen path g' count' w2
        | (Raise e, w2) => (Raise e, w2)
        | (Diverge, w2) => (Diverge, w2)
        end
    | (Raise e, w1) => (Raise e, w1)
    | (Diverge, w1) => (Diverge, w1)
    end.
Proof.
  simpl. unfold bind.
  destruct (gen_next fuel s api_url g w) as [[[[m g']|]|e|] w1]; try reflexivity.
  destruct (member_step seen path count m w1) as [[[c|]|e|] w2]; reflexivity.
Qed.

Lemma crawl_subcats_S (fuel : nat) recurse path (g : generator) (w : world) :
  subcats_loop (S fuel) recurse path g w
  = match gen_next fuel s api_url g w with
    | (Ok None, w1) => (Ok tt, w1)
    | (Ok (Some (m, g')), w1) =>
        match crawl_subcat recurse path m w1 with
        | (Ok _, w2) => subcats_loop fuel recurse path g' w2
        | (Raise e, w2) => (Raise e, w2)
        | (Diverge, w2) => (Diverge, w2)
        end
    | (Raise e, w1) => (Raise e, w1)
    | (Diverge, w1) => (Diverge, w1)
    end.
Proof.
  simpl. unfold bind.
  destruct (gen_next fuel s api_url g w) as [[[[m g']|]|e|] w1]; reflexivity.
Qed.

Lemma crawl_category_eq (fuel depth : nat) category (seen : nat) path (w : world) :
  category_call fuel depth category (Some seen) (Some path) w
  = match pages_phase fuel category seen path
            (print (LogCrawling lang path depth) w).2 with
    | (Ok _, w2) =>
        match depth with
        | O => (Ok tt, w2)
        | S depth' =>
            subcats_loop fuel
              (fun subcat_title path' =>
                 category_call fuel depth' subcat_title (Some seen) (Some path'))
              path (get_category_members category "subcat" 500) w2
        end
    | (Raise e, w2) => (Raise e, w2)
    | (Diverge, w2) => (Diverge, w2)
    end.
Proof.
  destruct depth; simpl; unfold bind; simpl.
  all: match goal with |- context [pages_phase ?f ?c ?r ?p ?w1] =>
         destruct (pages_phase f c r p w1) as [[[]|e|] w2] end; reflexivity.
Qed.

Lemma crawl_category_top (fuel depth : nat) category (w : world) :
  category_call fuel depth category None None w
  = category_call fuel depth category (Some (next_set w)) (Some [category])
      (new_set w).2.
Proof. destruct depth; reflexivity. Qed.

Lemma crawl_category_resolved (fuel depth : nat) category seen_pages
    category_path (w : world) :
  category_call fuel depth category seen_pages category_path w
  = category_call fuel depth category
      (Some (resolved_set seen_pages w))
      (Some (resolved_path category category_path))
      (resolved_world seen_pages w).
Proof.
  destruct seen_pages, category_path, depth; reflexivity.
Qed.

(** What one round of the first loop does. *)
Lemma crawl_member_cases (seen : nat) path (count : nat) (m : member)
    (w : world) (res : result (option nat)) (w' : world) :
  member_step seen path count m w = (res, w') ->
  (quiet w w' /\ (res = Ok None \/ res = Ok (Some count)))
  \/ exists w1 i,
       (count < max_pages_per_cat)%nat
       /\ (m_pageid m ∉ sets w seen)
       /\ get_page_extract s api_url (Some (m_pageid m)) None w = (Ok (Some i), w1)
       /\ PyStr.is_empty (PyStr.strip (i_extract i)) = false
       /\ ((exists t,
              i_title i = Some t
              /\ res = Ok (Some (S count))
              /\ w' = emitted out_fh seen (m_pageid m)
                        (Record_ lang path t (i_pageid i) (i_extract i)
                           (page_url lang t)) w1)
           \/ (i_title i = None
               /\ (exists msg, res = Raise (AttributeError msg))
               /\ w' = (set_add seen (m_pageid m) w1).2)).
Proof.
  unfold crawl_member.
  destruct (max_pages_per_cat <=? count)%nat eqn:Hmax.
  { intros [= <- <-]. left. split; [apply quiet_refl | by left]. }
  apply Nat.leb_gt in Hmax.
  unfold bind, try_except, set_contains, ret.
  destruct (bool_decide (m_pageid m ∈ sets w seen)) eqn:Hseen.
  { intros [= <- <-]. left. split; [apply quiet_refl | by right]. }
  apply bool_decide_eq_false_1 in Hseen.
  pose proof (get_page_extract_quiet s api_url (Some (m_pageid m)) None w) as Q.
  destruct (get_page_extract s api_url (Some (m_pageid m)) None w)
    as [[[i|]|e|] w1] eqn:E; simpl in Q.
  - destruct (PyStr.is_empty (PyStr.strip (i_extract i))) eqn:Hblank.
    { intros [= <- <-]. left. split; [exact Q | by right]. }
    intros H. right. exists w1, i. repeat split; try assumption.
    destruct (i_title i) as [t|].
    + left. exists t. split; [reflexivity|].
      unfold set_add, write, sleep, emit in H. simpl in H.
      injection H as <- <-. split; reflexivity.
    + right. split; [reflexivity|].
      unfold set_add, raise in H. simpl in H.
      injection H as <- <-. eauto.
  - intros [= <- <-]. left. split; [exact Q | by right].
  - unfold print, emit. simpl. intros [= <- <-]. left.
    split; [|by right].
    eapply quiet_trans; [exact Q|].
    apply (quiet_emit (EPrint (LogPageFailed (m_title m) e))). reflexivity.
  - pose proof (get_page_extract_ends s api_url (Some (m_pageid m)) None w) as D.
    rewrite E in D. done.
Qed.

End CrawlSteps.

(* ================================================================= *)
(** * Invariants of a crawl tree *)

Section Tree.

Variable s : session.
Variable api_url out_fh lang : string.
Variable max_pages_per_cat : nat.
Variable seen : nat.
Variable T : world -> bool -> world -> Prop.
Variable P : list string -> nat -> Prop.

Hypothesis inv :
  tree_invariant s api_url out_fh lang max_pages_per_cat seen T P.

Lemma crawl_members_sat (fuel : nat) path depth (g : generator) (count : nat)
    (w : world) :
  P path depth ->
  T w (ok (crawl_members s api_url out_fh lang max_pages_per_cat
             fuel seen path g count w).1)
    (crawl_members s api_url out_fh lang max_pages_per_cat
       fuel seen path g count w).2.
Proof.
  intros HP. revert g count w.
  induction fuel as [|fuel IH]; intros g count w.
  { apply (ti_quiet _ _ _ _ _ _ _ _ inv), quiet_refl. }
  rewrite crawl_members_S.
  pose proof (gen_next_quiet s api_url fuel g w) as Q.
  destruct (gen_next fuel s api_url g w) as [[[[m g']|]|e|] w1]; simpl in Q;
    try (by apply (ti_quiet _ _ _ _ _ _ _ _ inv)).
  pose proof (ti_member _ _ _ _ _ _ _ _ inv path depth count m w1 HP) as Hm.
  pose proof (ti_quiet _ _ _ _ _ _ _ _ inv w w1 true Q) as H1.
  destruct (crawl_member s api_url out_fh lang max_pages_per_cat
              seen path count m w1) as [[[c|]|e|] w2]; simpl in Hm.
  - eapply (ti_seq _ _ _ _ _ _ _ _ inv); [|apply IH].
    eapply (ti_seq _ _ _ _ _ _ _ _ inv); [exact H1 | exact Hm].
  - eapply (ti_seq _ _ _ _ _ _ _ _ inv); [exact H1 | exact Hm].
  - eapply (ti_seq _ _ _ _ _ _ _ _ inv); [exact H1 | exact Hm].
  - eapply (ti_seq _ _ _ _ _ _ _ _ inv); [exact H1 | exact Hm].
Qed.

Lemma crawl_pages_sat (fuel : nat) category path depth (w : world) :
  P path depth ->
  T w (ok (crawl_pages s api_url out_fh lang max_pages_per_cat
             fuel category seen path w).1)
    (crawl_pages s api_url out_fh lang max_pages_per_cat
       fuel category seen path w).2.
Proof. apply crawl_members_sat. Qed.

Lemma crawl_subcats_sat (fuel : nat) recurse path depth (g : generator)
    (w : world) :
  P path (S depth) ->
  (forall sub path' w1, P path' depth ->
     T w1 (ok (recurse sub path' w1).1) (recurse sub path' w1).2) ->
  T w (ok (crawl_subcats s api_url fuel recurse path g w).1)
    (crawl_subcats s api_url fuel recurse path g w).2.
Proof.
  intros HP Hrec. revert g w.
  induction fuel as [|fuel IH]; intros g w.
  { apply (ti_quiet _ _ _ _ _ _ _ _ inv), quiet_refl. }
  rewrite crawl_subcats_S.
  pose proof (gen_next_quiet s api_url fuel g w) as Q.
  destruct (gen_next fuel s api_url g w) as [[[[m g']|]|e|] w1]; simpl in Q;
    try (by apply (ti_quiet _ _ _ _ _ _ _ _ inv)).
  pose proof (ti_quiet _ _ _ _ _ _ _ _ inv w w1 true Q) as H1.
  assert (Hm : T w1 (ok (crawl_subcat recurse path m w1).1)
                 (crawl_subcat recurse path m w1).2).
  { unfold crawl_subcat.
    case_bool_decide as Hin; [apply (ti_refl _ _ _ _ _ _ _ _ inv)|].
    apply Hrec. by apply (ti_step _ _ _ _ _ _ _ _ inv). }
  destruct (crawl_subcat recurse path m w1) as [[[]|e|] w2]; simpl in Hm.
  - eapply (ti_seq _ _ _ _ _ _ _ _ inv); [|apply IH].
    eapply (ti_seq _ _ _ _ _ _ _ _ inv); [exact H1 | exact Hm].
  - eapply (ti_seq _ _ _ _ _ _ _ _ inv); [exact H1 | exact Hm].
  - eapply (ti_seq _ _ _ _ _ _ _ _ inv); [exact H1 | exact Hm].
Qed.

Theorem crawl_category_sat (fuel depth : nat) category path (w : world) :
  P path depth ->
  T w (ok (crawl_category s api_url out_fh lang max_pages_per_cat
             fuel depth category (Some seen) (Some path) w).1)
    (crawl_category s api_url out_fh lang max_pages_per_cat
       fuel depth category (Some seen) (Some path) w).2.
Proof.
  revert category path w.
  induction depth as [|depth IH]; intros category path w HP.
  all: rewrite crawl_category_eq.
  all: pose proof (ti_enter _ _ _ _ _ _ _ _ inv path _ w HP) as He.
  all: set (w1 := (print _ w).2) in *.
  all: pose proof (crawl_pages_sat fuel category path _ w1 HP) as Hp.
  all: destruct (crawl_pages s api_url out_fh lang max_pages_per_cat
                   fuel category seen path w1) as [[[]|e|] w2]; simpl in Hp.
  all: try (eapply (ti_seq _ _ _ _ _ _ _ _ inv); [exact He | exact Hp]).
  eapply (ti_seq _ _ _ _ _ _ _ _ inv);
    [|apply (crawl_subcats_sat fuel _ path depth); [exact HP|]].
  - eapply (ti_seq _ _ _ _ _ _ _ _ inv); [exact He | exact Hp].
  - intros sub path' w3 HP'. by apply IH.
Qed.

End Tree.

(* ================================================================= *)
(** * Properties of every event of a crawl tree *)

Lemma writes_elem (d : string) (l : list event) : d ∈ writes l <-> EWrite d ∈ l.
Proof.
  induction l as [|e l IH]; simpl.
  - split; intros H; inversion H.
  - destruct e; rewrite ?elem_of_cons, IH; split; intros H;
      try (by right); try (destruct H as [H|H]; [discriminate | exact H]).
    + destruct H as [->|H]; [by left | by right].
    + destruct H as [[= ->]|H]; [by left | by right].
Qed.

Section TreeEvents.

Variable s : session.
Variable api_url out_fh lang : string.
Variable max_pages_per_cat : nat.

Variable good : event -> Prop.
Variable P : list string -> nat -> Prop.

Hypothesis good_net : forall e, net_event e = true -> good e.
Hypothesis good_write : forall path depth pageid i t,
  P path depth ->
  fetched s api_url pageid i ->
  PyStr.is_empty (PyStr.strip (i_extract i)) = false ->
  i_title i = Some t ->
  good (EWrite (record_line (Record_ lang path t (i_pageid i) (i_extract i)
                               (page_url lang t)))).
Hypothesis good_enter : forall path depth,
  P path depth -> good (EPrint (LogCrawling lang path depth)).
Hypothesis P_step : forall path depth sub,
  P path (S depth) -> sub ∉ path -> P (path ++ [sub]) depth.

Lemma all_good_refl (w : world) (b : bool) : all_good good w b w.
Proof. exists []. split; [by rewrite app_nil_r | constructor]. Qed.

Lemma all_good_seq (w w1 w2 : world) (b1 b2 b : bool) :
  all_good good w b1 w1 -> all_good good w1 b2 w2 -> all_good good w b w2.
Proof.
  intros (l1 & T1 & G1) (l2 & T2 & G2). exists (l1 ++ l2). split.
  - rewrite T2, T1. by rewrite app_assoc.
  - by apply Forall_app.
Qed.

Lemma all_good_quiet (w w' : world) (b : bool) :
  quiet w w' -> all_good good w b w'.
Proof.
  intros [_ _ _ (l & Tr & A)]. exists l. split; [exact Tr|].
  apply Forall_forall. intros e He. apply good_net.
  rewrite forallb_forall in A. apply A. by apply list_elem_of_In.
Qed.

Lemma all_good_member (seen : nat) path depth (count : nat) (m : member)
    (w : world) :
  P path depth ->
  all_good good w
    (ok (crawl_member s api_url out_fh lang max_pages_per_cat
           seen path count m w).1)
    (crawl_member s api_url out_fh lang max_pages_per_cat seen path count m w).2.
Proof.
  intros HP.
  destruct (crawl_member s api_url out_fh lang max_pages_per_cat
              seen path count m w) as [res w'] eqn:E.
  apply crawl_member_cases in E
    as [[Q _]|(w1 & i & _ & _ & Hget & Hblank & Hcase)]; simpl.
  { by apply all_good_quiet. }
  assert (Q : quiet w w1).
  { pose proof (get_page_extract_quiet s api_url (Some (m_pageid m)) None w) as Q.
    by rewrite Hget in Q. }
  eapply (all_good_seq _ _ _ true true); [by apply all_good_quiet|].
  destruct Hcase as [(t & Ht & -> & ->)|(Ht & _ & ->)].
  - eexists. split; [simpl; rewrite <- app_assoc; reflexivity|].
    repeat constructor.
    + eapply good_write; eauto. by exists w, w1.
    + by apply good_net.
  - exists []. split; [simpl; by rewrite app_nil_r | constructor].
Qed.

Lemma all_good_invariant (seen : nat) :
  tree_invariant s api_url out_fh lang max_pages_per_cat seen (all_good good) P.
Proof.
  split.
  - intros w. apply all_good_refl.
  - intros w w1 w2 b. apply all_good_seq.
  - apply all_good_quiet.
  - apply all_good_member.
  - intros path depth w HP. eexists. split; [reflexivity|].
    repeat constructor. by apply good_enter.
  - exact P_step.
Qed.

Theorem crawl_category_events (fuel depth : nat) category seen_pages
    category_path (w : world) :
  (seen_pages = None -> good (ENewSet (next_set w))) ->
  P (resolved_path category category_path) depth ->
  Forall good
    (events w
       (crawl_category s api_url out_fh lang max_pages_per_cat
          fuel depth category seen_pages category_path w).2)
  /\ trace (crawl_category s api_url out_fh lang max_pages_per_cat
              fuel depth category seen_pages category_path w).2
     = trace w
       ++ events w
            (crawl_category s api_url out_fh lang max_pages_per_cat
               fuel depth category seen_pages category_path w).2.
Proof.
  intros Hnew HP. rewrite crawl_category_resolved.
  assert (H0 : all_good good w true (resolved_world seen_pages w)).
  { destruct seen_pages; [apply all_good_refl|].
    exists [ENewSet (next_set w)]. split; [reflexivity|].
    repeat constructor. by apply Hnew. }
  assert (Hsat := crawl_category_sat s api_url out_fh lang max_pages_per_cat
                    (resolved_set seen_pages w) (all_good good) P
                    (all_good_invariant _) fuel depth category
                    (resolved_path category category_path)
                    (resolved_world seen_pages w) HP).
  destruct (all_good_seq _ _ _ _ _ true H0 Hsat) as (l & Tr & G).
  rewrite (events_app _ _ _ Tr). split; assumption.
Qed.

End TreeEvents.

(* ================================================================= *)
(** * Records are written for pages with text only *)

Lemma is_empty_false (x : string) :
  PyStr.is_empty x = false <-> x <> EmptyString.
Proof. destruct x; simpl; split; congruence. Qed.

Lemma strip_not_blank (x : string) :
  PyStr.is_empty (PyStr.strip x) = false ->
  x <> EmptyString /\ PyStr.strip x <> EmptyString.
Proof.
  intros H. split; [|by apply is_empty_false].
  intros ->. discriminate.
Qed.

Lemma Forall_writes (good : event -> Prop) (l : list event) (d : string) :
  Forall good l -> d ∈ writes l -> good (EWrite d).
Proof.
  intros G Hd. apply writes_elem in Hd.
  rewrite Forall_forall in G. by apply G.
Qed.

(** C7.  Every record a crawl writes carries an extract that is neither
    empty nor made of white space only.  A member that the loop reaches
    (the bound not met, the page not seen) and whose fetch returns nothing,
    or an extract that is empty once trimmed, is passed over: the loop goes on
    with the same count, nothing is written and no set changes. *)
Theorem emitted_extract_not_blank (s : session) (api_url out_fh lang : string)
    (max_pages_per_cat fuel depth : nat) (category : string)
    (seen_pages : option nat) (category_path : option (list string))
    (w : world) :
  (forall d,
      d ∈ writes (events w
                    (crawl_category s api_url out_fh lang max_pages_per_cat
                       fuel depth category seen_pages category_path w).2) ->
      exists rec,
        d = record_line rec
        /\ r_text rec <> EmptyString
        /\ PyStr.strip (r_text rec) <> EmptyString)
  /\ (forall seen path count m w0 i w1,
        (count < max_pages_per_cat)%nat ->
        m_pageid m ∉ sets w0 seen ->
        get_page_extract s api_url (Some (m_pageid m)) None w0 = (Ok i, w1) ->
        (i = None
         \/ exists x, i = Some x /\ PyStr.strip (i_extract x) = EmptyString) ->
        crawl_member s api_url out_fh lang max_pages_per_cat seen path count m w0
        = (Ok (Some count), w1)
        /\ sets w1 = sets w0 /\ files w1 = files w0
        /\ writes (events w0 w1) = []).
Proof.
  split.
  - intros d Hd.
    set (good := fun e => match e with
                          | EWrite d => exists rec,
                              d = record_line rec
                              /\ r_text rec <> EmptyString
                              /\ PyStr.strip (r_text rec) <> EmptyString
                          | _ => True
                          end).
    destruct (crawl_category_events s api_url out_fh lang max_pages_per_cat
                good (fun _ _ => True)) with (fuel := fuel) (depth := depth)
      (category := category) (seen_pages := seen_pages)
      (category_path := category_path) (w := w) as [G _]; try done.
    + intros [] He; try done.
    + intros path d' pid i t _ _ Hblank Ht. simpl. eexists. split; [reflexivity|].
      by apply strip_not_blank.
    + exact (Forall_writes good _ d G Hd).
  - intros seen path count m w0 i w1 Hcount Hseen Hget Hi.
    pose proof (get_page_extract_quiet s api_url (Some (m_pageid m)) None w0) as Q.
    rewrite Hget in Q. simpl in Q. destruct Q as [Qs _ Qf (l & Tr & A)].
    split; [|split; [exact Qs | split; [exact Qf|]]].
    + unfold crawl_member.
      apply Nat.leb_gt in Hcount. rewrite Hcount.
      unfold bind, try_except, set_contains, ret.
      rewrite bool_decide_eq_false_2 by exact Hseen.
      rewrite Hget. destruct Hi as [->|(x & -> & Hx)]; [reflexivity|].
      by rewrite Hx.
    + rewrite (events_app _ _ _ Tr). by apply writes_net.
Qed.

(** The page P2 of the small encyclopedia has an empty extract. *)
Lemma emitted_extract_not_blank_witness :
  crawl_member wiki en_api "out.jsonl" "en" 20 O ["Physics"] 1
    (Member 2 "P2") w0
  = (Ok (Some 1%nat),
     (get_page_extract wiki en_api (Some 2) None w0).2).
Proof.
  destruct (emitted_extract_not_blank wiki en_api "out.jsonl" "en" 20 1 0
              "Physics" None None w0) as [_ H].
  destruct (H O ["Physics"] 1%nat (Member 2 "P2") w0
              (Some (Info (Some 2) (Some "P2") EmptyString))
              (get_page_extract wiki en_api (Some 2) None w0).2) as [E _].
  - lia.
  - simpl. apply not_elem_of_empty.
  - reflexivity.
  - right. eexists. split; reflexivity.
  - exact E.
Defined.

(* ================================================================= *)
(** * The descent into subcategories *)

Section Descent.

Variable s : session.
Variable api_url out_fh lang : string.
Variable max_pages_per_cat : nat.

Lemma trace_invariant (seen : nat) :
  tree_invariant s api_url out_fh lang max_pages_per_cat seen
    (all_good (fun _ => True)) (fun _ _ => True).
Proof. by apply all_good_invariant. Qed.

(** A call of [crawl_category] first prints the line that names its
    [category_path] and [depth]. *)
Lemma crawl_category_head (fuel depth : nat) category (seen : nat) path
    (w : world) :
  head (events w
          (crawl_category s api_url out_fh lang max_pages_per_cat
             fuel depth category (Some seen) (Some path) w).2)
  = Some (EPrint (LogCrawling lang path depth)).
Proof.
  assert (H : all_good (fun _ => True)
                (print (LogCrawling lang path depth) w).2
                (ok (crawl_category s api_url out_fh lang max_pages_per_cat
                       fuel depth category (Some seen) (Some path) w).1)
                (crawl_category s api_url out_fh lang max_pages_per_cat
                   fuel depth category (Some seen) (Some path) w).2).
  { rewrite crawl_category_eq.
    set (w1 := (print _ w).2).
    pose proof (crawl_pages_sat _ _ _ _ _ _ _ _ (trace_invariant seen)
                  fuel category path depth w1 I) as Hp.
    destruct (crawl_pages s api_url out_fh lang max_pages_per_cat
                fuel category seen path w1) as [[[]|e|] w2]; simpl in Hp;
      try exact Hp.
    destruct depth as [|depth]; [exact Hp|].
    eapply all_good_seq; [exact Hp|].
    apply (crawl_subcats_sat _ _ _ _ _ _ _ _ (trace_invariant seen)
             fuel _ path depth); [exact I|].
    intros sub path' w3 _.
    by apply (crawl_category_sat _ _ _ _ _ _ _ _ (trace_invariant seen)). }
  destruct H as (l & Tr & _). simpl in Tr. rewrite <- app_assoc in Tr.
  by rewrite (events_app _ _ _ Tr).
Qed.

End Descent.

Lemma NoDup_snoc (path : list string) (sub : string) :
  NoDup path -> sub ∉ path -> NoDup (path ++ [sub]).
Proof.
  intros Hnd Hsub. apply NoDup_app. split; [exact Hnd|]. split.
  - intros x Hx Hx'. apply list_elem_of_singleton in Hx' as ->. done.
  - apply NoDup_singleton.
Qed.

(** X14.  The descent as the code has it.  The name under which a subcategory is
    visited is the title of the member with every occurrence of
    ["Category:"] removed.  In the descent of a call with [depth + 1], a
    subcategory whose name is in [category_path] is passed over with no
    effect; any other is recursed into, by a call of [crawl_category] with
    [depth], the path extended by the name, and the same set of seen pages.
    Hence in the call tree of a crawl that starts from a path without
    repetition, every call works with a path without repetition that extends
    the path of the root by as many names as the depth has gone down; and a
    tree that was given its set creates no other. *)
Theorem subcategory_descent (s : session) (api_url out_fh lang : string)
    (max_pages_per_cat fuel : nat) :
  (forall depth seen path m w,
      (PyStr.replace "Category:" EmptyString (m_title m) ∈ path ->
       crawl_subcat
         (fun subcat_title path' =>
            crawl_category s api_url out_fh lang max_pages_per_cat fuel depth
              subcat_title (Some seen) (Some path'))
         path m w
       = (Ok tt, w))
      /\ (PyStr.replace "Category:" EmptyString (m_title m) ∉ path ->
          crawl_subcat
            (fun subcat_title path' =>
               crawl_category s api_url out_fh lang max_pages_per_cat fuel depth
                 subcat_title (Some seen) (Some path'))
            path m w
          = crawl_category s api_url out_fh lang max_pages_per_cat fuel depth
              (PyStr.replace "Category:" EmptyString (m_title m)) (Some seen)
              (Some (path ++ [PyStr.replace "Category:" EmptyString (m_title m)]))
              w
          /\ head (events w
                     (crawl_subcat
                        (fun subcat_title path' =>
                           crawl_category s api_url out_fh lang max_pages_per_cat
                             fuel depth subcat_title (Some seen) (Some path'))
                        path m w).2)
             = Some (EPrint
                       (LogCrawling lang
                          (path ++ [PyStr.replace "Category:" EmptyString (m_title m)])
                          depth))))
  /\ (forall depth category seen path w w2,
        crawl_pages s api_url out_fh lang max_pages_per_cat fuel category seen path
          (print (LogCrawling lang path (S depth)) w).2 = (Ok tt, w2) ->
        crawl_category s api_url out_fh lang max_pages_per_cat fuel (S depth)
          category (Some seen) (Some path) w
        = crawl_subcats s api_url fuel
            (fun subcat_title path' =>
               crawl_category s api_url out_fh lang max_pages_per_cat fuel depth
                 subcat_title (Some seen) (Some path'))
            path (get_category_members category "subcat" 500) w2)
  /\ (forall depth category seen_pages category_path w lg p d,
        NoDup (resolved_path category category_path) ->
        EPrint (LogCrawling lg p d)
        ∈ events w
            (crawl_category s api_url out_fh lang max_pages_per_cat fuel depth
               category seen_pages category_path w).2 ->
        NoDup p
        /\ resolved_path category category_path `prefix_of` p
        /\ (length p + d
            = length (resolved_path category category_path) + depth)%nat)
  /\ (forall depth category seen category_path w r,
        ENewSet r
        ∉ events w
            (crawl_category s api_url out_fh lang max_pages_per_cat fuel depth
               category (Some seen) category_path w).2).
Proof.
  split; [|split; [|split]].
  - intros depth seen path m w. unfold crawl_subcat. split; intros Hin.
    + by rewrite bool_decide_eq_true_2.
    + rewrite bool_decide_eq_false_2 by exact Hin.
      split; [reflexivity | apply crawl_category_head].
  - intros depth category seen path w w2 Hp.
    rewrite crawl_category_eq, Hp. reflexivity.
  - intros depth category seen_pages category_path w lg p d Hnd Hin.
    set (root := resolved_path category category_path) in *.
    set (good := fun e => match e with
                          | EPrint (LogCrawling _ p d) =>
                              NoDup p /\ root `prefix_of` p
                              /\ (length p + d = length root + depth)%nat
                          | _ => True
                          end).
    destruct (crawl_category_events s api_url out_fh lang max_pages_per_cat good
                (fun p d => NoDup p /\ root `prefix_of` p
                            /\ (length p + d = length root + depth)%nat))
      with (fuel := fuel) (depth := depth) (category := category)
           (seen_pages := seen_pages) (category_path := category_path) (w := w)
      as [G _]; try done.
    + intros [] He; try done. by destruct line.
    + intros path d' sub (Hp1 & Hp2 & Hp3) Hsub. split; [|split].
      * by apply NoDup_snoc.
      * by apply prefix_app_r.
      * rewrite length_app. simpl. lia.
    + rewrite Forall_forall in G. exact (G _ Hin).
  - intros depth category seen category_path w r Hin.
    destruct (crawl_category_events s api_url out_fh lang max_pages_per_cat
                (fun e => forall r, e <> ENewSet r) (fun _ _ => True))
      with (fuel := fuel) (depth := depth) (category := category)
           (seen_pages := Some seen) (category_path := category_path) (w := w)
      as [G _]; try done.
    + intros [] He; try done.
    + rewrite Forall_forall in G. exact (G _ Hin r eq_refl).
Qed.

(** In the small encyclopedia, Astrophysics lists Physics as a subcategory:
    below Physics it is not visited again. *)
Lemma subcategory_descent_witness :
  crawl_subcat
    (fun subcat_title path' =>
       crawl_category wiki en_api "out.jsonl" "en" 20 9 0
         subcat_title (Some O) (Some path'))
    ["Physics"; "Astrophysics"] (Member 11 "Category:Physics") w0
  = (Ok tt, w0).
Proof.
  destruct (subcategory_descent wiki en_api "out.jsonl" "en" 20 9) as [H _].
  destruct (H O O ["Physics"; "Astrophysics"] (Member 11 "Category:Physics") w0)
    as [H1 _].
  apply H1.
  change (PyStr.replace "Category:" EmptyString
            (m_title (Member 11 "Category:Physics"))) with "Physics".
  constructor.
Defined.

(** C3.  A subcategory is to be recursed into if and only if its name, the
    title of the member with the prefix of the category namespace taken off,
    is not in [category_path].  The code takes every occurrence of
    ["Category:"] out of the title instead.  Below Physics, the member
    "Category:Category:Physics" has the name "Category:Physics", which is
    not in the path; the code compares "Physics", finds it in the path and
    does not recurse: nothing happens. *)
Lemma subcategory_name_is_not_prefix_stripped :
  (strip_category_prefix "Category:Category:Physics" ∉ ["Physics"])
  /\ crawl_subcat
       (fun subcat_title path' =>
          crawl_category wiki en_api "out.jsonl" "en" 20 9 0
            subcat_title (Some O) (Some path'))
       ["Physics"] (Member 12 "Category:Category:Physics") w0
     = (Ok tt, w0).
Proof.
  split.
  - change (strip_category_prefix "Category:Category:Physics")
      with "Category:Physics".
    intros H. apply list_elem_of_singleton in H. discriminate.
  - reflexivity.
Qed.

(* ================================================================= *)
(** * No page is written twice in a crawl tree *)

Section Seen.

Variable s : session.
Variable api_url out_fh lang : string.
Variable max_pages_per_cat : nat.
Variable seen : nat.

Local Abbreviation invariant := (seen_invariant s api_url lang seen).

Lemma seen_invariant_still (w w' : world) (b : bool) (l : list event) :
  trace w' = trace w ++ l -> writes l = [] -> sets w' = sets w ->
  invariant w b w'.
Proof.
  intros Tr Wr Se. exists l, [], [], []. rewrite Se.
  split; [exact Tr|]. split; [exact Wr|]. split; [constructor|].
  split; [constructor|]. split; [intros z Hz; inversion Hz|].
  split; [simpl; set_solver|]. split; [simpl; lia|]. split; [done|].
  intros z Hz. inversion Hz.
Qed.

Lemma seen_invariant_quiet (w w' : world) (b : bool) :
  quiet w w' -> invariant w b w'.
Proof.
  intros [Qs _ _ (l & Tr & A)].
  eapply seen_invariant_still; eauto using writes_net.
Qed.

Lemma seen_invariant_seq (w w1 w2 : world) (b : bool) :
  invariant w true w1 -> invariant w1 b w2 -> invariant w b w2.
Proof.
  intros (l1 & rs1 & ids1 & extra1 & T1 & W1 & R1 & N1 & F1 & S1 & _ & E1 & _)
         (l2 & rs2 & ids2 & extra2 & T2 & W2 & R2 & N2 & F2 & S2 & L2 & E2 & U2).
  rewrite (E1 eq_refl), app_nil_r in *.
  exists (l1 ++ l2), (rs1 ++ rs2), (ids1 ++ ids2), extra2.
  assert (Hin1 : forall z, z ∈ ids1 -> z ∈ sets w1 seen).
  { intros z Hz. rewrite S1. set_solver. }
  split; [|split; [|split; [|split; [|split; [|split; [|split; [|split]]]]]]].
  - rewrite T2, T1. by rewrite app_assoc.
  - rewrite writes_app, W1, W2. by rewrite fmap_app.
  - by apply Forall2_app.
  - rewrite <- app_assoc. apply NoDup_app. split; [exact N1|]. split; [|exact N2].
    intros z Hz1 Hz2. by apply (F2 _ Hz2), Hin1.
  - intros z Hz. rewrite <- app_assoc in Hz. apply elem_of_app in Hz as [Hz|Hz].
    + by apply F1.
    + specialize (F2 _ Hz). rewrite S1 in F2. set_solver.
  - rewrite S2, S1, <- app_assoc, (list_to_set_app_L ids1). set_solver.
  - exact L2.
  - exact E2.
  - exact U2.
Qed.

Lemma seen_invariant_member path (depth count : nat) (m : member) (w : world) :
  True ->
  invariant w
    (ok (crawl_member s api_url out_fh lang max_pages_per_cat
           seen path count m w).1)
    (crawl_member s api_url out_fh lang max_pages_per_cat seen path count m w).2.
Proof.
  intros _.
  destruct (crawl_member s api_url out_fh lang max_pages_per_cat
              seen path count m w) as [res w'] eqn:E.
  apply crawl_member_cases in E
    as [[Q _]|(w1 & i & _ & Hnew & Hget & Hblank & Hcase)]; simpl.
  { by apply seen_invariant_quiet. }
  assert (Q : quiet w w1).
  { pose proof (get_page_extract_quiet s api_url (Some (m_pageid m)) None w) as Q.
    by rewrite Hget in Q. }
  assert (Hf : fetched s api_url (m_pageid m) i) by (by exists w, w1).
  destruct Q as [Qs _ _ (l & Tr & A)].
  destruct Hcase as [(t & Ht & -> & ->)|(Ht & (msg & ->) & ->)].
  - eexists (l ++ [_; _]), [_], [m_pageid m], [].
    split; [|split; [|split; [|split; [|split; [|split; [|split; [|split]]]]]]].
    + simpl. rewrite Tr, <- !app_assoc. reflexivity.
    + rewrite writes_app, (writes_net _ A). reflexivity.
    + constructor; [|constructor]. exists i, t. by repeat split.
    + apply NoDup_singleton.
    + intros z Hz. apply list_elem_of_singleton in Hz as ->. exact Hnew.
    + simpl. rewrite decide_True by done. rewrite Qs. set_solver.
    + simpl. lia.
    + done.
    + intros z Hz. inversion Hz.
  - exists l, [], [], [m_pageid m].
    split; [|split; [|split; [|split; [|split; [|split; [|split; [|split]]]]]]].
    + exact Tr.
    + by apply writes_net.
    + constructor.
    + apply NoDup_singleton.
    + intros z Hz. apply list_elem_of_singleton in Hz as ->. exact Hnew.
    + simpl. rewrite decide_True by done. rewrite Qs. set_solver.
    + simpl. lia.
    + discriminate.
    + intros z Hz. apply list_elem_of_singleton in Hz as ->. by exists i.
Qed.

Lemma seen_tree_invariant :
  tree_invariant s api_url out_fh lang max_pages_per_cat seen
    invariant (fun _ _ => True).
Proof.
  split.
  - intros w. apply seen_invariant_quiet, quiet_refl.
  - apply seen_invariant_seq.
  - apply seen_invariant_quiet.
  - apply seen_invariant_member.
  - intros path depth w _. by eapply seen_invariant_still.
  - done.
Qed.

(** A member whose page identifier is in the set is passed over: nothing is
    requested, nothing changes, and the loop goes on with the same count
    (the check of the bound comes first). *)
Lemma crawl_member_seen path (count : nat) (m : member) (w : world) :
  m_pageid m ∈ sets w seen ->
  crawl_member s api_url out_fh lang max_pages_per_cat seen path count m w
  = (Ok (if (max_pages_per_cat <=? count)%nat then None else Some count), w).
Proof.
  intros Hin. unfold crawl_member.
  destruct (max_pages_per_cat <=? count)%nat; [reflexivity|].
  unfold bind, set_contains, ret. by rewrite bool_decide_eq_true_2.
Qed.

(** With a remote side that answers a request for a page with that page,
    the record of the page fetched for a member carries the page identifier
    of the member. *)
Lemma record_for_pageid (rs : list OutputRecord) (ids : list Z) :
  answers_pageids s ->
  Forall2 (record_for s api_url lang) rs ids ->
  r_pageid <$> rs = Some <$> ids.
Proof.
  intros coherent. induction 1 as [|r z rs ids Hr _ IH]; [reflexivity|].
  cbn [fmap list_fmap]. f_equal; [|exact IH].
  destruct Hr as (i & t & (w1 & w2 & Hget) & _ & _ & _ & _ & -> & _).
  destruct (get_page_extract_inv s api_url z w1 i)
    as (c & params & data & key & p & rest & Hp & Hs & Hb & ->).
  { by rewrite Hget. }
  simpl. eapply coherent; eauto.
Qed.

End Seen.

(** C2 (as amended).  In one call tree of [crawl_category] (one set of seen
    pages, the one the call was given or the one it creates, which starts
    empty) no two records are written for the same member page identifier.
    A member whose page identifier is in the set is passed over.  Each
    record written is the record of the page fetched for a member, with the
    title and the text of that page and the page identifier the remote side
    gave with it; the identifiers [ids] of these members, in the order of
    writing, differ from one another and were not in the set when the tree
    started.  The set grows by these identifiers, and by nothing else when
    the tree ends normally; when it does not, at most one more identifier is
    added, of a page fetched without a title.  With a remote side that
    answers a request for the extract of a page with that page, the records
    carry these identifiers, so that no two records share a page
    identifier. *)
Theorem no_duplicate_pages (s : session) (api_url out_fh lang : string)
    (max_pages_per_cat fuel depth : nat) (category : string)
    (seen_pages : option nat) (category_path : option (list string))
    (w : world) :
  let run := crawl_category s api_url out_fh lang max_pages_per_cat
               fuel depth category seen_pages category_path w in
  let seen := resolved_set seen_pages w in
  let before := sets (resolved_world seen_pages w) seen in
  (seen_pages = None -> before = ∅)
  /\ (forall path count m w1,
        m_pageid m ∈ sets w1 seen ->
        crawl_member s api_url out_fh lang max_pages_per_cat seen path count m w1
        = (Ok (if (max_pages_per_cat <=? count)%nat then None else Some count),
           w1))
  /\ exists rs ids extra,
       writes (events w run.2) = record_line <$> rs
       /\ Forall2 (record_for s api_url lang) rs ids
       /\ NoDup (ids ++ extra)
       /\ (forall z, z ∈ ids ++ extra -> z ∉ before)
       /\ sets run.2 seen = before ∪ list_to_set (ids ++ extra)
       /\ (length extra <= 1)%nat
       /\ (run.1 = Ok tt -> extra = [])
       /\ (forall z, z ∈ extra ->
             exists i, fetched s api_url z i /\ i_title i = None)
       /\ (answers_pageids s ->
           r_pageid <$> rs = Some <$> ids /\ NoDup (r_pageid <$> rs)).
Proof.
  intros run seen before. split.
  { intros ->. unfold before, seen. simpl. by rewrite decide_True. }
  split.
  { intros path count m w1. apply crawl_member_seen. }
  pose proof (crawl_category_sat _ _ _ _ _ _ _ _
                (seen_tree_invariant s api_url out_fh lang max_pages_per_cat
                   (resolved_set seen_pages w))
                fuel depth category (resolved_path category category_path)
                (resolved_world seen_pages w) I) as H.
  rewrite <- crawl_category_resolved in H. fold run seen in H.
  destruct H as (l & rs & ids & extra & Tr & Wr & Rf & Nd & Fa & Eq & Le & Ex & Un).
  exists rs, ids, extra.
  split; [|split; [|split; [|split; [|split; [|split; [|split; [|split]]]]]]].
  - assert (Tr' : exists l0, trace run.2 = trace w ++ l0 /\ writes l0 = writes l).
    { destruct seen_pages; simpl in Tr; [by exists l|].
      exists (ENewSet (next_set w) :: l). split; [|reflexivity].
      rewrite Tr, <- app_assoc. reflexivity. }
    destruct Tr' as (l0 & Tr' & Wl). by rewrite (events_app _ _ _ Tr'), Wl.
  - exact Rf.
  - exact Nd.
  - exact Fa.
  - exact Eq.
  - exact Le.
  - intros Hok. apply Ex. rewrite Hok. reflexivity.
  - exact Un.
  - intros coherent.
    rewrite (record_for_pageid s api_url lang rs ids coherent Rf).
    split; [reflexivity|].
    apply NoDup_fmap; [by intros x y [= ->]|].
    by apply NoDup_app in Nd as [Nd _].
Qed.

Lemma wiki_answers_pageids : answers_pageids wiki.
Proof.
  intros c url params data key p rest pageid Hs Hp Hb.
  unfold wiki in Hs. rewrite Hp in Hs. simpl in Hs. injection Hs as <-.
  simpl in Hb. injection Hb as _ <- _.
  unfold wiki_page.
  repeat match goal with
         | |- context [pageid =? ?k] =>
             destruct (Z.eqb_spec pageid k) as [->|_]; [reflexivity|]
         end.
  reflexivity.
Qed.

(** The small encyclopedia, crawled from Physics down two levels: the page
    P1, which Astrophysics lists again, is written once. *)
Lemma no_duplicate_pages_witness :
  exists rs,
    writes (events w0
              (crawl_category wiki en_api "out.jsonl" "en" 20 9 2 "Physics"
                 None None w0).2)
    = record_line <$> rs
    /\ NoDup (r_pageid <$> rs)
    /\ length rs = 2%nat.
Proof.
  destruct (no_duplicate_pages wiki en_api "out.jsonl" "en" 20 9 2 "Physics"
              None None w0)
    as (_ & _ & rs & ids & extra & Wr & _ & _ & _ & _ & _ & _ & _ & Co).
  destruct (Co wiki_answers_pageids) as [_ Nd].
  exists rs. split; [exact Wr|]. split; [exact Nd|].
  apply (f_equal length) in Wr. rewrite length_fmap in Wr. rewrite <- Wr.
  reflexivity.
Defined.

(** C2, as stated, fails.  The page identifier of a record is the one the
    remote side gave with the page, not the one of the member: when two
    members are answered with the same page, two records share its
    identifier.  And the identifier of a member whose page comes with a text
    but without a title is added to the set though no record is written. *)
Lemma records_can_share_pageid :
  (exists r1 r2,
     writes (events w0
               (crawl_category same_page en_api "out.jsonl" "en" 20 9 0
                  "Physics" None None w0).2)
     = [record_line r1; record_line r2]
     /\ r_pageid r1 = Some 99
     /\ r_pageid r2 = Some 99)
  /\ (7 ∈ sets (crawl_category untitled_first en_api "out.jsonl" "en" 20 9 0
                  "Physics" None None w0).2 O
      /\ writes (events w0
                   (crawl_category untitled_first en_api "out.jsonl" "en" 20 9 0
                      "Physics" None None w0).2)
         = []).
Proof.
  split.
  - exists (Record_ "en" ["Physics"] "Q" (Some 99) "Text"
              "https://en.wikipedia.org/wiki/Q"),
           (Record_ "en" ["Physics"] "Q" (Some 99) "Text"
              "https://en.wikipedia.org/wiki/Q").
    split; [reflexivity|]. split; reflexivity.
  - split; [|reflexivity].
    apply (bool_decide_unpack _). vm_compute. exact I.
Qed.

(* ================================================================= *)
(** * The bound on the pages of one category *)

Section Bound.

Variable s : session.
Variable api_url out_fh lang : string.

(** Below both bounds, a round of the loop does not depend on the bound. *)
Lemma crawl_member_below (max max' seen : nat) path (count : nat) (m : member)
    (w : world) :
  (count < max)%nat -> (count < max')%nat ->
  crawl_member s api_url out_fh lang max seen path count m w
  = crawl_member s api_url out_fh lang max' seen path count m w.
Proof.
  intros H H'. unfold crawl_member.
  apply Nat.leb_gt in H, H'. by rewrite H, H'.
Qed.

Lemma crawl_member_at_bound (max seen : nat) path (count : nat) (m : member)
    (w : world) :
  (max <= count)%nat ->
  crawl_member s api_url out_fh lang max seen path count m w = (Ok None, w).
Proof.
  intros H. unfold crawl_member. apply Nat.leb_le in H. by rewrite H.
Qed.

(** A round of the loop writes one record and counts it, or writes none
    and leaves the count as it is. *)
Lemma crawl_member_writes (max seen : nat) path (count : nat) (m : member)
    (w : world) (res : result (option nat)) (w' : world) :
  crawl_member s api_url out_fh lang max seen path count m w = (res, w') ->
  exists l,
    trace w' = trace w ++ l
    /\ ((res = Ok (Some (S count)) /\ exists d, writes l = [d])
        \/ ((forall c, res = Ok (Some c) -> c = count) /\ writes l = [])).
Proof.
  intros E.
  apply crawl_member_cases in E
    as [[Q Hres]|(w1 & i & _ & _ & Hget & _ & Hcase)].
  - destruct Q as [_ _ _ (l & Tr & A)]. exists l. split; [exact Tr|].
    right. split; [|by apply writes_net].
    intros c ->. destruct Hres as [|[=]]; done.
  - pose proof (get_page_extract_quiet s api_url (Some (m_pageid m)) None w) as Q.
    rewrite Hget in Q. destruct Q as [_ _ _ (l & Tr & A)]. simpl in Tr.
    destruct Hcase as [(t & Ht & -> & ->)|(Ht & (msg & ->) & ->)].
    + eexists (l ++ [_; _]). split.
      * simpl. rewrite Tr, <- !app_assoc. reflexivity.
      * left. split; [reflexivity|]. eexists.
        rewrite writes_app, (writes_net _ A). reflexivity.
    + exists l. split; [exact Tr|]. right. split; [done|by apply writes_net].
Qed.

Lemma crawl_members_capped (max max' fuel seen : nat) path (g : generator)
    (count : nat) (w : world) :
  (max <= max')%nat -> (count <= max)%nat ->
  exists l l',
    trace (crawl_members s api_url out_fh lang max fuel seen path g count w).2
    = trace w ++ l
    /\ trace (crawl_members s api_url out_fh lang max' fuel seen path g count w).2
       = trace w ++ l'
    /\ writes l = take (max - count) (writes l')
    /\ ((max - count < length (writes l'))%nat ->
        (crawl_members s api_url out_fh lang max fuel seen path g count w).1
        = Ok tt).
Proof.
  intros Hmax. revert g count w.
  induction fuel as [|fuel IH]; intros g count w Hcount.
  { exists [], []. simpl. rewrite app_nil_r, take_nil.
    repeat split; try done. simpl. lia. }
  rewrite !crawl_members_S.
  pose proof (gen_next_quiet s api_url fuel g w) as Q.
  destruct (gen_next fuel s api_url g w) as [[[[m g']|]|e|] w1]; simpl in Q;
    destruct Q as [_ _ _ (lq & Tq & Aq)].
  2-4: exists lq, lq; simpl; rewrite (writes_net _ Aq), take_nil;
       repeat split; try done; simpl; lia.
  destruct (decide (count < max)%nat) as [Hlt|Hge].
  - rewrite (crawl_member_below max max') by lia.
    destruct (crawl_member s api_url out_fh lang max' seen path count m w1)
      as [res w2] eqn:E.
    destruct (crawl_member_writes _ _ _ _ _ _ _ _ E) as (lm & Tm & Hm).
    destruct res as [[c|]|e|].
    + assert (Hc : (c = S count /\ exists d, writes lm = [d])
                   \/ (c = count /\ writes lm = [])).
      { destruct Hm as [[[= <-] Hd]|[Hd Hw]]; [by left|].
        right. split; [by apply Hd | exact Hw]. }
      destruct (IH g' c w2) as (l2 & l2' & T2 & T2' & W2 & O2).
      { destruct Hc as [[-> _]|[-> _]]; lia. }
      exists (lq ++ lm ++ l2), (lq ++ lm ++ l2').
      split; [|split; [|split]].
      * rewrite T2, Tm, Tq, <- !app_assoc. reflexivity.
      * rewrite T2', Tm, Tq, <- !app_assoc. reflexivity.
      * rewrite !writes_app, (writes_net _ Aq). simpl.
        destruct Hc as [[-> [d ->]]|[-> ->]]; simpl.
        -- replace (max - count)%nat with (S (max - S count)) by lia.
           simpl. by rewrite W2.
        -- exact W2.
      * rewrite !writes_app, (writes_net _ Aq). simpl.
        destruct Hc as [[-> [d ->]]|[-> ->]]; simpl; intros H; apply O2; lia.
    + exists (lq ++ lm), (lq ++ lm). simpl. split; [|split; [|split]].
      * rewrite Tm, Tq, <- !app_assoc. reflexivity.
      * rewrite Tm, Tq, <- !app_assoc. reflexivity.
      * rewrite !writes_app, (writes_net _ Aq). simpl.
        destruct Hm as [[[=] _]|[_ ->]]. by rewrite take_nil.
      * done.
    + exists (lq ++ lm), (lq ++ lm). simpl. split; [|split; [|split]].
      * rewrite Tm, Tq, <- !app_assoc. reflexivity.
      * rewrite Tm, Tq, <- !app_assoc. reflexivity.
      * rewrite !writes_app, (writes_net _ Aq). simpl.
        destruct Hm as [[[=] _]|[_ ->]]. by rewrite take_nil.
      * rewrite !writes_app, (writes_net _ Aq). simpl.
        destruct Hm as [[[=] _]|[_ ->]]. simpl. lia.
    + exists (lq ++ lm), (lq ++ lm). simpl. split; [|split; [|split]].
      * rewrite Tm, Tq, <- !app_assoc. reflexivity.
      * rewrite Tm, Tq, <- !app_assoc. reflexivity.
      * rewrite !writes_app, (writes_net _ Aq). simpl.
        destruct Hm as [[[=] _]|[_ ->]]. by rewrite take_nil.
      * rewrite !writes_app, (writes_net _ Aq). simpl.
        destruct Hm as [[[=] _]|[_ ->]]. simpl. lia.
  - rewrite (crawl_member_at_bound max) by lia.
    match goal with |- context [match ?x with _ => _ end] =>
      match x with
      | crawl_member _ _ _ _ max' _ _ _ _ _ => destruct x as [res w2] eqn:E
      end end.
    assert (exists l', trace (match res with
                              | Ok (Some c') =>
                                  crawl_members s api_url out_fh lang max'
                                    fuel seen path g' c' w2
                              | Ok None => (Ok tt, w2)
                              | Raise e => (Raise e, w2)
                              | Diverge => (Diverge, w2)
                              end).2 = trace w ++ l') as [l' T'].
    { destruct (crawl_member_writes _ _ _ _ _ _ _ _ E) as (lm & Tm & _).
      destruct res as [[c|]|e|]; simpl;
        try (exists (lq ++ lm); rewrite Tm, Tq, <- !app_assoc; reflexivity).
      destruct (crawl_members_sat _ _ _ _ _ _ _ _
                  (trace_invariant s api_url out_fh lang max' seen)
                  fuel path O g' c w2 I) as (l2 & T2 & _).
      exists (lq ++ lm ++ l2). rewrite T2, Tm, Tq, <- !app_assoc. reflexivity. }
    exists lq, l'. split; [exact Tq|]. split; [exact T'|].
    replace (max - count)%nat with O by lia.
    rewrite (writes_net _ Aq), take_0. done.
Qed.

End Bound.

(** The page loop under a bound and under a larger one, from the same
    world: when the run under the larger bound [bound'] writes more than
    [max_pages_per_cat] records, the run under [max_pages_per_cat] ends
    normally and writes exactly [max_pages_per_cat] records, the first ones
    of the other run. *)
Lemma crawl_pages_under_larger_bound (s : session) (api_url out_fh lang : string)
    (max_pages_per_cat bound' fuel : nat) (category : string) (seen : nat)
    (path : list string) (w : world) :
  (max_pages_per_cat <= bound')%nat ->
  (max_pages_per_cat
   < length (writes (events w
                       (crawl_pages s api_url out_fh lang bound'
                          fuel category seen path w).2)))%nat ->
  (crawl_pages s api_url out_fh lang max_pages_per_cat
     fuel category seen path w).1 = Ok tt
  /\ writes (events w
               (crawl_pages s api_url out_fh lang max_pages_per_cat
                  fuel category seen path w).2)
     = take max_pages_per_cat
         (writes (events w
                    (crawl_pages s api_url out_fh lang bound'
                       fuel category seen path w).2))
  /\ length (writes (events w
                       (crawl_pages s api_url out_fh lang max_pages_per_cat
                          fuel category seen path w).2))
     = max_pages_per_cat.
Proof.
  intros Hle Hmore. unfold crawl_pages in *.
  destruct (crawl_members_capped s api_url out_fh lang max_pages_per_cat bound'
              fuel seen path (get_category_members category "page" 500) O w
              Hle ltac:(lia)) as (l & l' & Tr & Tr' & Wr & Hok).
  rewrite (events_app _ _ _ Tr') in Hmore.
  rewrite (events_app _ _ _ Tr), (events_app _ _ _ Tr').
  rewrite Nat.sub_0_r in Wr, Hok.
  split; [by apply Hok|]. split; [exact Wr|].
  rewrite Wr, length_take. lia.
Qed.

(** The bound is counted anew in each category: with a bound of one, the
    crawl of Physics down to Astrophysics writes two records, one for each
    category. *)
Example bound_is_per_category :
  length (writes (events w0
                    (crawl_category wiki en_api "out.jsonl" "en" 1 9 1 "Physics"
                       None None w0).2))
  = 2%nat.
Proof. reflexivity. Qed.

(* ================================================================= *)
(** * The output file *)

Lemma string_app_assoc (a b c : string) : (a +:+ b) +:+ c = a +:+ (b +:+ c).
Proof.
  induction a as [|x a IH]; [reflexivity|].
  change (String x ((a +:+ b) +:+ c) = String x (a +:+ (b +:+ c))).
  by rewrite IH.
Qed.

Lemma string_app_nil_r (a : string) : a +:+ EmptyString = a.
Proof.
  induction a as [|x a IH]; [reflexivity|].
  change (String x (a +:+ EmptyString) = String x a). by rewrite IH.
Qed.

Lemma concat_str_app (l1 l2 : list string) :
  concat_str (l1 ++ l2) = concat_str l1 +:+ concat_str l2.
Proof.
  induction l1 as [|x l1 IH]; [reflexivity|].
  change (x +:+ concat_str (l1 ++ l2) = (x +:+ concat_str l1) +:+ concat_str l2).
  by rewrite IH, string_app_assoc.
Qed.

Lemma new_sets_app (l1 l2 : list event) :
  new_sets (l1 ++ l2) = new_sets l1 ++ new_sets l2.
Proof.
  induction l1 as [|e l1 IH]; [reflexivity|].
  destruct e; simpl; rewrite ?IH; reflexivity.
Qed.

Lemma new_sets_net (l : list event) : forallb net_event l = true -> new_sets l = [].
Proof.
  induction l as [|e l IH]; [reflexivity|].
  simpl. intros [He Hl]%andb_prop. destruct e; try discriminate; auto.
Qed.

Section File.

Variable s : session.
Variable api_url out_fh lang : string.
Variable max_pages_per_cat : nat.
Variable seen : nat.

Lemma file_invariant_still (w w' : world) (b : bool) (l : list event) :
  trace w' = trace w ++ l -> writes l = [] -> new_sets l = [] ->
  next_set w' = next_set w -> files w' = files w ->
  file_invariant out_fh w b w'.
Proof.
  intros Tr Wr Ne Nx Fi. exists l. repeat split; try done.
  intros content Hc. rewrite Fi, Wr. simpl. by rewrite string_app_nil_r.
Qed.

Lemma file_invariant_quiet (w w' : world) (b : bool) :
  quiet w w' -> file_invariant out_fh w b w'.
Proof.
  intros [_ Qn Qf (l & Tr & A)].
  eapply file_invariant_still; eauto using writes_net, new_sets_net.
Qed.

Lemma file_invariant_seq (w w1 w2 : world) (b1 b2 b : bool) :
  file_invariant out_fh w b1 w1 -> file_invariant out_fh w1 b2 w2 ->
  file_invariant out_fh w b w2.
Proof.
  intros (l1 & T1 & N1 & X1 & F1) (l2 & T2 & N2 & X2 & F2).
  exists (l1 ++ l2). split; [|split; [|split]].
  - rewrite T2, T1. by rewrite app_assoc.
  - by rewrite new_sets_app, N1, N2.
  - congruence.
  - intros content Hc.
    rewrite writes_app, concat_str_app, <- string_app_assoc. eauto.
Qed.

Lemma file_tree_invariant :
  tree_invariant s api_url out_fh lang max_pages_per_cat seen
    (file_invariant out_fh) (fun _ _ => True).
Proof.
  split.
  - intros w. apply file_invariant_quiet, quiet_refl.
  - intros w w1 w2 b. apply (file_invariant_seq w w1 w2 true b b).
  - apply file_invariant_quiet.
  - intros path depth count m w _.
    destruct (crawl_member s api_url out_fh lang max_pages_per_cat
                seen path count m w) as [res w'] eqn:E.
    apply crawl_member_cases in E
      as [[Q _]|(w1 & i & _ & _ & Hget & _ & Hcase)]; simpl.
    { by apply file_invariant_quiet. }
    assert (Q : quiet w w1).
    { pose proof (get_page_extract_quiet s api_url (Some (m_pageid m)) None w)
        as Q. by rewrite Hget in Q. }
    eapply (file_invariant_seq _ _ _ true true); [by apply file_invariant_quiet|].
    destruct Hcase as [(t & Ht & -> & ->)|(Ht & _ & ->)].
    + eexists [_; _]. split; [|split; [|split]].
      * simpl. rewrite <- app_assoc. reflexivity.
      * reflexivity.
      * reflexivity.
      * intros content Hc. simpl. rewrite lookup_alter_eq, Hc. simpl.
        by rewrite string_app_nil_r.
    + by eapply (file_invariant_still _ _ _ []); simpl; rewrite ?app_nil_r.
  - intros path depth w _. by eapply file_invariant_still.
  - done.
Qed.

End File.

(* ================================================================= *)
(** * The run driver *)

Section Driver.

Variable s : session.
Variable fuel : nat.
Variable out_fh : string.
Variable max_pages depth : nat.

Local Abbreviation crawl := (fresh_crawl s fuel out_fh max_pages depth).

Lemma crawl_pair_cases (lang cat : string) (w : world) :
  crawl_pair s fuel out_fh max_pages depth lang cat w
  = match crawl lang cat w with
    | (Ok _, w1) => (Ok tt, w1)
    | (Raise e, w1) => (Ok tt, logged_and_waited lang cat e w1)
    | (Diverge, w1) => (Diverge, w1)
    end.
Proof.
  unfold crawl_pair, try_except, fresh_crawl.
  destruct (crawl_category _ _ _ _ _ _ _ _ _ _ w) as [[[]|e|] w1]; reflexivity.
Qed.

Lemma driver_run_app (ps1 ps2 : list (string * string)) (w w1 w2 : world)
    (r : result unit) :
  driver_run crawl ps1 w (Ok tt) w1 ->
  driver_run crawl ps2 w1 r w2 ->
  driver_run crawl (ps1 ++ ps2) w r w2.
Proof.
  intros H1 H2. remember (Ok tt) as r1 eqn:Hr.
  induction H1; subst; simpl; try discriminate; eauto using driver_run.
Qed.

Lemma driver_run_app_stuck (ps1 ps2 : list (string * string)) (w w1 : world) :
  driver_run crawl ps1 w Diverge w1 ->
  driver_run crawl (ps1 ++ ps2) w Diverge w1.
Proof.
  intros H1. remember Diverge as r1 eqn:Hr.
  induction H1; subst; simpl; try discriminate; eauto using driver_run.
Qed.

Lemma driver_run_never_raises (ps : list (string * string)) (w w' : world)
    (r : result unit) :
  driver_run crawl ps w r w' -> r = Ok tt \/ r = Diverge.
Proof. induction 1; auto. Qed.

Lemma for_each_categories (lang : string) (categories : list string) (w : world) :
  driver_run crawl (map (pair lang) categories) w
    (for_each categories (crawl_pair s fuel out_fh max_pages depth lang) w).1
    (for_each categories (crawl_pair s fuel out_fh max_pages depth lang) w).2.
Proof.
  revert w. induction categories as [|cat cats IH]; intros w; simpl.
  { constructor. }
  unfold bind. rewrite crawl_pair_cases.
  destruct (crawl lang cat w) as [[[]|e|] w1] eqn:E; simpl.
  - eapply driver_next; [exact E | apply IH].
  - eapply driver_caught; [exact E | apply IH].
  - by apply driver_stuck.
Qed.

Lemma for_each_langs (langs categories : list string) (w : world) :
  driver_run crawl (all_pairs langs categories) w
    (for_each langs (fun lang =>
       for_each categories (crawl_pair s fuel out_fh max_pages depth lang)) w).1
    (for_each langs (fun lang =>
       for_each categories (crawl_pair s fuel out_fh max_pages depth lang)) w).2.
Proof.
  revert w. induction langs as [|lang langs IH]; intros w; simpl.
  { constructor. }
  unfold bind.
  pose proof (for_each_categories lang categories w) as H.
  destruct (for_each categories _ w) as [r w1]. simpl in H.
  destruct (driver_run_never_raises _ _ _ _ H) as [->| ->].
  - eapply driver_run_app; [exact H | apply IH].
  - by apply driver_run_app_stuck.
Qed.

(** What the crawl of one pair does to the trace, the sets and the file. *)
Lemma fresh_crawl_run (lang cat : string) (w : world) :
  exists l,
    trace (crawl lang cat w).2
    = trace w ++ ENewSet (next_set w) :: EPrint (LogCrawling lang [cat] depth) :: l
    /\ new_sets l = []
    /\ next_set (crawl lang cat w).2 = S (next_set w)
    /\ forall content,
         files w !! out_fh = Some content ->
         files (crawl lang cat w).2 !! out_fh
         = Some (content +:+ concat_str (writes l)).
Proof.
  unfold fresh_crawl. rewrite crawl_category_top.
  set (w1 := (new_set w).2).
  pose proof (crawl_category_head s (mw_api_endpoint lang) out_fh lang max_pages
                fuel depth cat (next_set w) [cat] w1) as Hhead.
  pose proof (crawl_category_sat _ _ _ _ _ _ _ _
                (file_tree_invariant s (mw_api_endpoint lang) out_fh lang
                   max_pages (next_set w))
                fuel depth cat [cat] w1 I) as (l & Tr & Ne & Nx & Fi).
  rewrite (events_app _ _ _ Tr) in Hhead.
  destruct l as [|e l]; [discriminate|]. injection Hhead as ->.
  exists l. split; [|split; [|split]].
  - rewrite Tr. simpl. rewrite <- app_assoc. reflexivity.
  - exact Ne.
  - rewrite Nx. reflexivity.
  - intros content Hc. apply (Fi content Hc).
Qed.

Lemma driver_run_effects (ps : list (string * string)) (w w' : world)
    (r : result unit) :
  driver_run crawl ps w r w' ->
  exists l,
    trace w' = trace w ++ l
    /\ (r = Ok tt -> new_sets l = seq (next_set w) (length ps))
    /\ (forall content,
          files w !! out_fh = Some content ->
          files w' !! out_fh = Some (content +:+ concat_str (writes l))).
Proof.
  induction 1 as [w|lang cat ps w w1 r w2 E _ IH|lang cat ps w e w1 r w2 E _ IH
                  |lang cat ps w w1 E].
  - exists []. rewrite app_nil_r. repeat split; try done.
    intros content Hc. simpl. by rewrite string_app_nil_r.
  - destruct (fresh_crawl_run lang cat w) as (l1 & T1 & N1 & X1 & F1).
    rewrite E in T1, X1, F1. simpl in T1, X1, F1.
    destruct IH as (l2 & T2 & N2 & F2).
    exists ((ENewSet (next_set w) :: EPrint (LogCrawling lang [cat] depth) :: l1)
            ++ l2).
    split; [|split].
    + rewrite T2, T1, <- app_assoc. reflexivity.
    + intros Hr. rewrite new_sets_app. simpl. rewrite N1, (N2 Hr), X1.
      reflexivity.
    + intros content Hc. rewrite writes_app, concat_str_app.
      rewrite <- string_app_assoc. apply F2. by apply F1.
  - destruct (fresh_crawl_run lang cat w) as (l1 & T1 & N1 & X1 & F1).
    rewrite E in T1, X1, F1. simpl in T1, X1, F1.
    destruct IH as (l2 & T2 & N2 & F2).
    exists ((ENewSet (next_set w) :: EPrint (LogCrawling lang [cat] depth) :: l1)
            ++ [EPrint (LogCrawlError lang cat e); ESleep RETRY_WAIT] ++ l2).
    split; [|split].
    + rewrite T2. simpl. rewrite T1, <- !app_assoc. reflexivity.
    + intros Hr. rewrite !new_sets_app. simpl. rewrite N1, (N2 Hr). simpl.
      rewrite X1. reflexivity.
    + intros content Hc. rewrite !writes_app, concat_str_app. simpl.
      rewrite <- string_app_assoc. apply F2. simpl. by apply F1.
  - destruct (fresh_crawl_run lang cat w) as (l1 & T1 & N1 & X1 & F1).
    rewrite E in T1, X1, F1. simpl in T1, X1, F1.
    eexists. split; [exact T1|]. split; [discriminate|]. exact F1.
Qed.

End Driver.

Lemma all_pairs_length (langs categories : list string) :
  length (all_pairs langs categories) = (length langs * length categories)%nat.
Proof.
  unfold all_pairs. induction langs as [|lang langs IH]; [reflexivity|].
  simpl. rewrite length_app, length_map, IH. reflexivity.
Qed.

Lemma main_driver (s : session) (fuel : nat) (langs categories : list string)
    (outpath : string) (max_pages depth : nat) (w : world) :
  driver_run (fresh_crawl s fuel outpath max_pages depth)
    (all_pairs langs categories) (open_w outpath w).2
    (main s fuel langs categories outpath max_pages depth w).1
    (main s fuel langs categories outpath max_pages depth w).2.
Proof. apply for_each_langs. Qed.

(** C9.  The run driver goes through the pairs of a language and a
    top-level category in order, the languages in the outer loop.  It starts
    the crawl of each pair with no set of seen pages and no path, so that the
    crawl creates a new, empty set and starts from the path made of the
    category alone.  When the crawl of a pair raises an error, the driver
    catches it, prints the line that reports it, waits [RETRY_WAIT] and goes
    on with the pairs that remain.  No error comes out of the run; a run that
    ends has created one set per pair. *)
Theorem main_isolates_failures (s : session) (fuel : nat)
    (langs categories : list string) (outpath : string) (max_pages depth : nat)
    (w : world) :
  driver_run (fresh_crawl s fuel outpath max_pages depth)
    (all_pairs langs categories) (open_w outpath w).2
    (main s fuel langs categories outpath max_pages depth w).1
    (main s fuel langs categories outpath max_pages depth w).2
  /\ (forall e, (main s fuel langs categories outpath max_pages depth w).1 <> Raise e)
  /\ (forall lang cat w1 e w2,
        fresh_crawl s fuel outpath max_pages depth lang cat w1 = (Raise e, w2) ->
        crawl_pair s fuel outpath max_pages depth lang cat w1
        = (Ok tt, logged_and_waited lang cat e w2)
        /\ events w2 (logged_and_waited lang cat e w2)
           = [EPrint (LogCrawlError lang cat e); ESleep RETRY_WAIT])
  /\ (forall lang cat w1,
        fresh_crawl s fuel outpath max_pages depth lang cat w1
        = crawl_category s (mw_api_endpoint lang) outpath lang max_pages
            fuel depth cat (Some (next_set w1)) (Some [cat]) (new_set w1).2
        /\ sets (new_set w1).2 (next_set w1) = ∅
        /\ next_set (new_set w1).2 = S (next_set w1))
  /\ ((main s fuel langs categories outpath max_pages depth w).1 = Ok tt ->
      new_sets (events w (main s fuel langs categories outpath max_pages depth w).2)
      = seq (next_set w) (length langs * length categories)).
Proof.
  pose proof (main_driver s fuel langs categories outpath max_pages depth w) as D.
  split; [exact D|]. split; [|split; [|split]].
  - intros e He. destruct (driver_run_never_raises _ _ _ _ _ _ _ _ _ D) as [H|H];
      rewrite H in He; discriminate.
  - intros lang cat w1 e w2 E. split.
    + by rewrite crawl_pair_cases, E.
    + apply events_app. simpl. by rewrite <- app_assoc.
  - intros lang cat w1. split; [apply crawl_category_top|]. split; [|reflexivity].
    simpl. by rewrite decide_True.
  - intros Hok.
    destruct (driver_run_effects _ _ _ _ _ _ _ _ _ D) as (l & Tr & Ne & _).
    simpl in Tr. rewrite <- app_assoc in Tr.
    rewrite (events_app _ _ _ Tr). simpl.
    rewrite (Ne Hok), all_pairs_length. reflexivity.
Qed.

(** The service is down while the first pair is crawled: the error of that
    pair is logged and the second pair is crawled in full. *)
Example main_survives_outage :
  let run := main outage 9 ["en"] ["Physics"; "Mathematics"] "out.jsonl" 20 0 w0 in
  run.1 = Ok tt
  /\ EPrint (LogCrawlError "en" "Physics" (fetch_failed en_api)) ∈ events w0 run.2
  /\ length (writes (events w0 run.2)) = 3%nat.
Proof.
  split; [reflexivity|]. split; [|reflexivity].
  apply (list_elem_of_lookup_2 _ 12%nat). reflexivity.
Qed.

(** C10.  The first thing a run does is to open the output path for
    writing, before any crawl; when the run is over (or stuck) the file holds
    what this run has written and nothing else, whatever it held before: if
    the run writes no record the file is empty. *)
Theorem output_file_truncated (s : session) (fuel : nat)
    (langs categories : list string) (outpath : string) (max_pages depth : nat)
    (w : world) :
  head (events w (main s fuel langs categories outpath max_pages depth w).2)
  = Some (EOpen outpath)
  /\ files (main s fuel langs categories outpath max_pages depth w).2 !! outpath
     = Some (concat_str
               (writes
                  (events w
                     (main s fuel langs categories outpath max_pages depth w).2)))
  /\ (writes (events w (main s fuel langs categories outpath max_pages depth w).2)
      = [] ->
      files (main s fuel langs categories outpath max_pages depth w).2 !! outpath
      = Some EmptyString).
Proof.
  pose proof (main_driver s fuel langs categories outpath max_pages depth w) as D.
  destruct (driver_run_effects _ _ _ _ _ _ _ _ _ D) as (l & Tr & _ & Fi).
  simpl in Tr. rewrite <- app_assoc in Tr.
  rewrite (events_app _ _ _ Tr).
  specialize (Fi EmptyString). simpl in Fi. rewrite lookup_insert_eq in Fi.
  specialize (Fi eq_refl).
  split; [reflexivity|]. split; [exact Fi|].
  simpl. intros Hw. rewrite Fi, Hw. reflexivity.
Qed.

(* ================================================================= *)
(** * The lines of the output file are JSON *)

Section ReadBack.

Import JsonParse.

Lemma chars_escape_byte (a : ascii) (tail : string) :
  chars (Json.escape_byte a +:+ tail) = prepend (String a EmptyString) (chars tail).
Proof. destruct a as [[] [] [] [] [] [] [] []]; reflexivity. Qed.

Lemma chars_escape (x rest : string) :
  chars (Json.escape x +:+ String (PyStr.chr 34) rest) = Some (x, rest).
Proof.
  induction x as [|a x IH]; [reflexivity|].
  change (Json.escape (String a x)) with (Json.escape_byte a +:+ Json.escape x).
  rewrite string_app_assoc, chars_escape_byte, IH. reflexivity.
Qed.

Lemma dump_str_app (x rest : string) :
  Json.dump_str x +:+ rest
  = String (PyStr.chr 34) (Json.escape x +:+ String (PyStr.chr 34) rest).
Proof.
  unfold Json.dump_str, Json.dquote.
  change (String (PyStr.chr 34) ((Json.escape x +:+ String (PyStr.chr 34) EmptyString)
                                 +:+ rest) = String (PyStr.chr 34)
             (Json.escape x +:+ String (PyStr.chr 34) rest)).
  by rewrite string_app_assoc.
Qed.

Lemma value_S (fuel : nat) (a : ascii) (x : string) :
  is_ws a = false ->
  value (S fuel) (String a x)
  = (let n := PyStr.code a in
     if (n =? 34)%N then
       match chars x with
       | Some (y, r) => Some (JStr y, r)
       | None => None
       end
     else if (n =? 91)%N then
       match skip_ws x with
       | String b r =>
           if (PyStr.code b =? 93)%N then Some (JList [], r)
           else
             match items fuel x with
             | Some (l, r') => Some (JList l, r')
             | None => None
             end
       | EmptyString => None
       end
     else if (n =? 123)%N then
       match skip_ws x with
       | String b r =>
           if (PyStr.code b =? 125)%N then Some (JDict [], r)
           else
             match fields fuel x with
             | Some (l, r') => Some (JDict l, r')
             | None => None
             end
       | EmptyString => None
       end
     else if (n =? 110)%N then keyword "null" JNull (String a x)
     else if (n =? 116)%N then keyword "true" (JBool true) (String a x)
     else if (n =? 102)%N then keyword "false" (JBool false) (String a x)
     else number (String a x)).
Proof. intros H. simpl. rewrite H. reflexivity. Qed.

Lemma value_space (fuel : nat) (x : string) :
  value fuel (String " " x) = value fuel x.
Proof. destruct fuel; reflexivity. Qed.

Lemma items_S (fuel : nat) (x : string) :
  items (S fuel) x
  = match value fuel x with
    | None => None
    | Some (v, r) =>
        match skip_ws r with
        | String a r' =>
            if (PyStr.code a =? 44)%N then
              match items fuel r' with
              | Some (l, r'') => Some (v :: l, r'')
              | None => None
              end
            else if (PyStr.code a =? 93)%N then Some ([v], r')
            else None
        | EmptyString => None
        end
    end.
Proof. reflexivity. Qed.

Lemma items_space (fuel : nat) (x : string) :
  items fuel (String " " x) = items fuel x.
Proof. destruct fuel; [reflexivity|]. by rewrite !items_S, value_space. Qed.

Lemma fields_S (fuel : nat) (x : string) :
  fields (S fuel) x
  = match skip_ws x with
    | String q s1 =>
        if (PyStr.code q =? 34)%N then
          match chars s1 with
          | None => None
          | Some (k, s2) =>
              match skip_ws s2 with
              | String c s3 =>
                  if (PyStr.code c =? 58)%N then
                    match value fuel s3 with
                    | None => None
                    | Some (v, r) =>
                        match skip_ws r with
                        | String a r' =>
                            if (PyStr.code a =? 44)%N then
                              match fields fuel r' with
                              | Some (l, r'') => Some ((k, v) :: l, r'')
                              | None => None
                              end
                            else if (PyStr.code a =? 125)%N
                            then Some ([(k, v)], r')
                            else None
                        | EmptyString => None
                        end
                    end
                  else None
              | EmptyString => None
              end
          end
        else None
    | EmptyString => None
    end.
Proof. reflexivity. Qed.

Lemma fields_space (fuel : nat) (x : string) :
  fields fuel (String " " x) = fields fuel x.
Proof. destruct fuel; reflexivity. Qed.

Lemma reads_back_str (x : string) : reads_back 1 (JStr x).
Proof.
  intros fuel rest Hf _. destruct fuel as [|fuel]; [lia|].
  change (Json.dumps (JStr x)) with (Json.dump_str x).
  rewrite dump_str_app, value_S by reflexivity.
  change ((PyStr.code (PyStr.chr 34) =? 34)%N) with true. cbv iota zeta.
  by rewrite chars_escape.
Qed.

Lemma reads_back_mono (n m : nat) (v : json) :
  (n <= m)%nat -> reads_back n v -> reads_back m v.
Proof. intros Hnm H fuel rest Hf Hd. apply H; [lia | exact Hd]. Qed.

Lemma delimited_digit (a : ascii) (rest : string) :
  delimited (String a rest) ->
  digit a = None /\ (PyStr.code a =? 46)%N = false
  /\ (PyStr.code a =? 101)%N = false /\ (PyStr.code a =? 69)%N = false
  /\ (PyStr.code a =? 45)%N = false /\ is_ws a = false.
Proof. intros [->|[->| ->]]; repeat split; reflexivity. Qed.

Lemma digits_delimited (rest : string) :
  delimited rest -> digits rest = (Nil, rest).
Proof.
  destruct rest as [|a rest]; [reflexivity|].
  intros H. apply delimited_digit in H as (H & _). simpl. by rewrite H.
Qed.

Lemma digits_uint_str (d : uint) (rest : string) :
  delimited rest -> digits (Json.uint_str d +:+ rest) = (d, rest).
Proof.
  intros H. induction d; simpl; rewrite ?IHd; try reflexivity.
  by apply digits_delimited.
Qed.

Lemma fraction_delimited (rest : string) :
  delimited rest -> fraction rest = Some (EmptyString, rest).
Proof.
  destruct rest as [|a rest]; [reflexivity|].
  intros H. apply delimited_digit in H as (_ & H & _). simpl. by rewrite H.
Qed.

Lemma exponent_delimited (rest : string) :
  delimited rest -> exponent rest = Some (EmptyString, rest).
Proof.
  destruct rest as [|a rest]; [reflexivity|].
  intros H. apply delimited_digit in H as (_ & _ & H1 & H2 & _).
  simpl. by rewrite H1, H2.
Qed.

Lemma sign_uint_str (d : uint) (rest : string) :
  delimited rest ->
  sign (Json.uint_str d +:+ rest) = (false, Json.uint_str d +:+ rest).
Proof.
  intros H. destruct d; try reflexivity.
  destruct rest as [|a rest]; [reflexivity|].
  apply delimited_digit in H as (_ & _ & _ & _ & H & _).
  simpl. by rewrite H.
Qed.

Lemma nzhead_head (d : uint) : leading_zero (nzhead d) = false.
Proof. induction d; try reflexivity. exact IHd. Qed.

Lemma unorm_head (d : uint) : leading_zero (unorm d) = false.
Proof.
  unfold unorm. pose proof (nzhead_head d) as H.
  destruct (nzhead d); try reflexivity; exact H.
Qed.

Lemma to_uint_head (p : positive) :
  leading_zero (Pos.to_uint p) = false /\ is_nil (Pos.to_uint p) = false.
Proof.
  split.
  - rewrite <- (unorm_head (Pos.to_uint p)). f_equal.
    rewrite <- DecimalPos.Unsigned.to_of, DecimalPos.Unsigned.of_to. reflexivity.
  - pose proof (DecimalPos.Unsigned.to_uint_nonnil p) as H.
    by destruct (Pos.to_uint p).
Qed.

Lemma to_int_head (z : Z) (d : uint) :
  Z.to_int z = Pos d \/ Z.to_int z = Neg d ->
  is_nil d || leading_zero d = false.
Proof.
  destruct z as [|p|p]; simpl; intros [[= <-]|[= <-]]; try reflexivity.
  all: destruct (to_uint_head p) as [-> ->]; reflexivity.
Qed.

Lemma number_int (z : Z) (rest : string) :
  delimited rest -> number (Json.dump_int z +:+ rest) = Some (JInt z, rest).
Proof.
  intros H. unfold Json.dump_int, number.
  pose proof (DecimalZ.of_to z) as Hz.
  destruct (Z.to_int z) as [d|d] eqn:E.
  - rewrite (sign_uint_str d rest H), (digits_uint_str d rest H).
    rewrite (to_int_head z d) by auto.
    rewrite (fraction_delimited rest H), (exponent_delimited rest H).
    cbn [PyStr.is_empty andb]. by rewrite Hz.
  - change (sign (String "-" (Json.uint_str d) +:+ rest))
      with (true, Json.uint_str d +:+ rest).
    cbv iota beta. rewrite (digits_uint_str d rest H).
    rewrite (to_int_head z d) by auto.
    rewrite (fraction_delimited rest H), (exponent_delimited rest H).
    cbn [PyStr.is_empty andb]. by rewrite Hz.
Qed.

Lemma dump_int_head (z : Z) (rest : string) :
  delimited rest ->
  exists a x,
    Json.dump_int z +:+ rest = String a x
    /\ is_ws a = false
    /\ (PyStr.code a =? 34)%N = false /\ (PyStr.code a =? 91)%N = false
    /\ (PyStr.code a =? 123)%N = false /\ (PyStr.code a =? 110)%N = false
    /\ (PyStr.code a =? 116)%N = false /\ (PyStr.code a =? 102)%N = false.
Proof.
  intros H. unfold Json.dump_int.
  destruct (Z.to_int z) as [d|d] eqn:E.
  - pose proof (to_int_head z d (or_introl E)) as Hd.
    destruct d; try discriminate; eexists _, _; repeat split; reflexivity.
  - eexists _, _. repeat split; reflexivity.
Qed.

Lemma reads_back_int (z : Z) : reads_back 1 (JInt z).
Proof.
  intros fuel rest Hf Hd. destruct fuel as [|fuel]; [lia|].
  change (Json.dumps (JInt z)) with (Json.dump_int z).
  destruct (dump_int_head z rest Hd)
    as (a & x & E & Hw & H1 & H2 & H3 & H4 & H5 & H6).
  rewrite E, value_S by exact Hw. cbv zeta.
  rewrite H1, H2, H3, H4, H5, H6, <- E. by apply number_int.
Qed.

Lemma dumps_list (l : list json) :
  Json.dumps (JList l) = "[" +:+ join ", " (Json.dumps <$> l) +:+ "]".
Proof.
  cbn [Json.dumps]. do 2 f_equal.
  induction l as [|x l IH]; [reflexivity|].
  destruct l as [|y l]; [reflexivity|].
  rewrite IH. reflexivity.
Qed.

Lemma dumps_dict (kv : list (string * json)) :
  Json.dumps (JDict kv) = "{" +:+ join ", " (dump_field <$> kv) +:+ "}".
Proof.
  cbn [Json.dumps]. do 2 f_equal.
  induction kv as [|[k x] kv IH]; [reflexivity|].
  destruct kv as [|y kv]; [reflexivity|].
  change (join ", " (dump_field <$> (k, x) :: y :: kv))
    with ((Json.dump_str k +:+ ": " +:+ Json.dumps x)
          +:+ ", " +:+ join ", " (dump_field <$> y :: kv)).
  rewrite !string_app_assoc. do 4 f_equal. exact IH.
Qed.

Lemma items_strs (path : list string) (fuel : nat) (rest : string) :
  path <> [] ->
  (length path + 1 <= fuel)%nat ->
  items fuel (join ", " (Json.dumps <$> (JStr <$> path)) +:+ String "]" rest)
  = Some (JStr <$> path, rest).
Proof.
  revert fuel. induction path as [|x path IH]; intros fuel Hne Hf; [done|].
  destruct fuel as [|fuel]; [simpl in Hf; lia|].
  rewrite items_S. destruct path as [|y path].
  - change (join ", " (Json.dumps <$> (JStr <$> [x]))) with (Json.dumps (JStr x)).
    rewrite (reads_back_str x fuel (String "]" rest)); [reflexivity| |].
    + simpl in Hf. lia.
    + simpl. auto.
  - change (join ", " (Json.dumps <$> (JStr <$> x :: y :: path)))
      with (Json.dumps (JStr x)
            +:+ ", " +:+ join ", " (Json.dumps <$> (JStr <$> y :: path))).
    rewrite string_app_assoc.
    change ((", " +:+ join ", " (Json.dumps <$> (JStr <$> y :: path)))
            +:+ String "]" rest)
      with (String "," (String " "
              (join ", " (Json.dumps <$> (JStr <$> y :: path))
               +:+ String "]" rest))).
    rewrite (reads_back_str x fuel); [| simpl in Hf; lia | simpl; auto].
    cbn [skip_ws]. change (is_ws ",") with false. cbv iota.
    change ((PyStr.code "," =? 44)%N) with true. cbv iota.
    rewrite items_space, IH; [reflexivity | done | simpl in *; lia].
Qed.

Lemma join_strs_head (x : string) (path : list string) (rest : string) :
  exists tail,
    join ", " (Json.dumps <$> (JStr <$> x :: path)) +:+ rest
    = String (PyStr.chr 34) tail.
Proof.
  destruct path as [|y path].
  - change (join ", " (Json.dumps <$> (JStr <$> [x]))) with (Json.dump_str x).
    rewrite dump_str_app. eauto.
  - change (join ", " (Json.dumps <$> (JStr <$> x :: y :: path)))
      with (Json.dump_str x
            +:+ ", " +:+ join ", " (Json.dumps <$> (JStr <$> y :: path))).
    rewrite string_app_assoc, dump_str_app. eauto.
Qed.

Lemma reads_back_strs (path : list string) :
  reads_back (length path + 2) (JList (JStr <$> path)).
Proof.
  intros fuel rest Hf _. destruct fuel as [|fuel]; [lia|].
  rewrite dumps_list.
  change (("[" +:+ join ", " (Json.dumps <$> (JStr <$> path)) +:+ "]") +:+ rest)
    with (String "[" ((join ", " (Json.dumps <$> (JStr <$> path)) +:+ "]") +:+ rest)).
  rewrite string_app_assoc. change ("]" +:+ rest) with (String "]" rest).
  rewrite value_S by reflexivity. cbv zeta.
  change ((PyStr.code "[" =? 34)%N) with false.
  change ((PyStr.code "[" =? 91)%N) with true. cbv iota.
  destruct path as [|x path]; [reflexivity|].
  destruct (join_strs_head x path (String "]" rest)) as [tail E].
  rewrite E. cbn [skip_ws]. change (is_ws (PyStr.chr 34)) with false. cbv iota.
  change ((PyStr.code (PyStr.chr 34) =? 93)%N) with false. cbv iota.
  rewrite <- E, items_strs; [reflexivity | done | simpl in *; lia].
Qed.

Lemma dump_field_app (k : string) (v : json) (rest : string) :
  dump_field (k, v) +:+ rest
  = String (PyStr.chr 34)
      (Json.escape k
       +:+ String (PyStr.chr 34) (String ":" (String " " (Json.dumps v +:+ rest)))).
Proof.
  unfold dump_field. simpl fst. simpl snd.
  rewrite string_app_assoc, dump_str_app.
  change ((": " +:+ Json.dumps v) +:+ rest)
    with (String ":" (String " " (Json.dumps v +:+ rest))).
  reflexivity.
Qed.

Lemma fields_join (n : nat) (kv : list (string * json)) (fuel : nat)
    (rest : string) :
  kv <> [] ->
  Forall (fun f => reads_back n f.2) kv ->
  (n + length kv <= fuel)%nat ->
  fields fuel (join ", " (dump_field <$> kv) +:+ String "}" rest)
  = Some (kv, rest).
Proof.
  revert fuel. induction kv as [|[k v] kv IH]; intros fuel Hne Hall Hf; [done|].
  destruct fuel as [|fuel]; [simpl in Hf; lia|].
  apply Forall_cons in Hall as [Hv Hall]. simpl in Hv.
  rewrite fields_S. destruct kv as [|y kv].
  - change (join ", " (dump_field <$> [(k, v)])) with (dump_field (k, v)).
    rewrite dump_field_app. cbn [skip_ws].
    change (is_ws (PyStr.chr 34)) with false. cbv iota.
    change ((PyStr.code (PyStr.chr 34) =? 34)%N) with true. cbv iota.
    rewrite chars_escape. cbn [skip_ws].
    change (is_ws ":") with false. cbv iota.
    change ((PyStr.code ":" =? 58)%N) with true. cbv iota.
    rewrite value_space, (Hv fuel (String "}" rest));
      [reflexivity | simpl in Hf; lia | simpl; auto].
  - change (join ", " (dump_field <$> (k, v) :: y :: kv))
      with (dump_field (k, v) +:+ ", " +:+ join ", " (dump_field <$> y :: kv)).
    rewrite string_app_assoc, dump_field_app. cbn [skip_ws].
    change (is_ws (PyStr.chr 34)) with false. cbv iota.
    change ((PyStr.code (PyStr.chr 34) =? 34)%N) with true. cbv iota.
    rewrite chars_escape. cbn [skip_ws].
    change (is_ws ":") with false. cbv iota.
    change ((PyStr.code ":" =? 58)%N) with true. cbv iota.
    change ((", " +:+ join ", " (dump_field <$> y :: kv)) +:+ String "}" rest)
      with (String "," (String " "
              (join ", " (dump_field <$> y :: kv) +:+ String "}" rest))).
    rewrite value_space, (Hv fuel); [| simpl in Hf; lia | simpl; auto].
    cbn [skip_ws]. change (is_ws ",") with false. cbv iota.
    change ((PyStr.code "," =? 44)%N) with true. cbv iota.
    rewrite fields_space, IH; [reflexivity | done | exact Hall | simpl in *; lia].
Qed.

Lemma reads_back_dict (n : nat) (kv : list (string * json)) :
  kv <> [] ->
  Forall (fun f => reads_back n f.2) kv ->
  reads_back (n + length kv + 1) (JDict kv).
Proof.
  intros Hne Hall fuel rest Hf _. destruct fuel as [|fuel]; [lia|].
  rewrite dumps_dict.
  change (("{" +:+ join ", " (dump_field <$> kv) +:+ "}") +:+ rest)
    with (String "{" ((join ", " (dump_field <$> kv) +:+ "}") +:+ rest)).
  rewrite string_app_assoc. change ("}" +:+ rest) with (String "}" rest).
  rewrite value_S by reflexivity. cbv zeta.
  change ((PyStr.code "{" =? 34)%N) with false.
  change ((PyStr.code "{" =? 91)%N) with false.
  change ((PyStr.code "{" =? 123)%N) with true. cbv iota.
  assert (E : exists tail,
             join ", " (dump_field <$> kv) +:+ String "}" rest
             = String (PyStr.chr 34) tail).
  { destruct kv as [|[k v] [|y kv]]; [done| |].
    - change (join ", " (dump_field <$> [(k, v)])) with (dump_field (k, v)).
      rewrite dump_field_app. eauto.
    - change (join ", " (dump_field <$> (k, v) :: y :: kv))
        with (dump_field (k, v) +:+ ", " +:+ join ", " (dump_field <$> y :: kv)).
      rewrite string_app_assoc, dump_field_app. eauto. }
  destruct E as [tail E].
  rewrite E. cbn [skip_ws]. change (is_ws (PyStr.chr 34)) with false. cbv iota.
  change ((PyStr.code (PyStr.chr 34) =? 125)%N) with false. cbv iota.
  rewrite <- E, (fields_join n); [reflexivity | done | exact Hall | lia].
Qed.

Lemma reads_back_null : reads_back 1 JNull.
Proof.
  intros fuel rest Hf _. destruct fuel as [|fuel]; [lia|].
  change (Json.dumps JNull +:+ rest)
    with (String "n" (String "u" (String "l" (String "l" rest)))).
  rewrite value_S by reflexivity. destruct rest; reflexivity.
Qed.

(** A record is read back as the object it was written from. *)
Lemma reads_back_record (r : OutputRecord) :
  reads_back (length (r_category_path r) + 9) (out_obj r).
Proof.
  unfold out_obj.
  eapply reads_back_mono; [|apply (reads_back_dict (length (r_category_path r) + 2))].
  - simpl. lia.
  - done.
  - repeat constructor; simpl.
    all: try (eapply reads_back_mono; [|apply reads_back_str]; lia).
    + apply reads_back_strs.
    + destruct (r_pageid r) as [z|]; simpl.
      * eapply reads_back_mono; [|apply reads_back_int]; lia.
      * eapply reads_back_mono; [|apply reads_back_null]; lia.
Qed.

Lemma dump_str_length (x : string) : (2 <= String.length (Json.dump_str x))%nat.
Proof.
  unfold Json.dump_str, Json.dquote. rewrite !string_length_app. simpl. lia.
Qed.

Lemma join_strs_length (path : list string) :
  (length path
   <= String.length (join ", " (Json.dumps <$> (JStr <$> path))))%nat.
Proof.
  induction path as [|x path IH]; [simpl; lia|].
  destruct path as [|y path].
  - change (join ", " (Json.dumps <$> (JStr <$> [x]))) with (Json.dump_str x).
    pose proof (dump_str_length x). simpl. lia.
  - change (join ", " (Json.dumps <$> (JStr <$> x :: y :: path)))
      with (Json.dump_str x
            +:+ ", " +:+ join ", " (Json.dumps <$> (JStr <$> y :: path))).
    rewrite !string_length_app. simpl in *. lia.
Qed.

Lemma out_obj_length (r : OutputRecord) :
  (length (r_category_path r) + 9 <= String.length (Json.dumps (out_obj r)))%nat.
Proof.
  unfold out_obj. rewrite dumps_dict.
  match goal with |- context [join ", " (dump_field <$> ?f1 :: ?f2 :: ?fs)] =>
    change (join ", " (dump_field <$> f1 :: f2 :: fs))
      with (dump_field f1 +:+ ", " +:+ dump_field f2
            +:+ ", " +:+ join ", " (dump_field <$> fs))
  end.
  rewrite !string_length_app.
  unfold dump_field at 2. simpl fst. simpl snd.
  rewrite !string_length_app, dumps_list, !string_length_app.
  pose proof (join_strs_length (r_category_path r)) as H.
  pose proof (dump_str_length "category_path") as H1.
  change (String.length "{") with 1%nat. change (String.length "[") with 1%nat.
  change (String.length "]") with 1%nat. change (String.length ", ") with 2%nat.
  change (String.length ": ") with 2%nat. lia.
Qed.

Lemma loads_record (r : OutputRecord) :
  loads (Json.dumps (out_obj r)) = Some (out_obj r).
Proof.
  unfold loads.
  pose proof (reads_back_record r (String.length (Json.dumps (out_obj r)))
                EmptyString (out_obj_length r) I) as H.
  rewrite string_app_nil_r in H. rewrite H. reflexivity.
Qed.

Lemma one_line_app (a b : string) : one_line (a +:+ b) = one_line a && one_line b.
Proof.
  induction a as [|c a IH]; [reflexivity|].
  change (one_line (String c a +:+ b))
    with (negb (PyStr.code c =? 10)%N && one_line (a +:+ b)).
  rewrite IH. simpl. by rewrite andb_assoc.
Qed.

Lemma one_line_escape_byte (a : ascii) : one_line (Json.escape_byte a) = true.
Proof. destruct a as [[] [] [] [] [] [] [] []]; reflexivity. Qed.

Lemma one_line_escape (x : string) : one_line (Json.escape x) = true.
Proof.
  induction x as [|a x IH]; [reflexivity|].
  change (Json.escape (String a x)) with (Json.escape_byte a +:+ Json.escape x).
  by rewrite one_line_app, one_line_escape_byte, IH.
Qed.

Lemma one_line_dump_str (x : string) : one_line (Json.dump_str x) = true.
Proof.
  unfold Json.dump_str, Json.dquote.
  by rewrite !one_line_app, one_line_escape.
Qed.

Lemma one_line_uint_str (d : uint) : one_line (Json.uint_str d) = true.
Proof. induction d; simpl; auto. Qed.

Lemma one_line_dump_int (z : Z) : one_line (Json.dump_int z) = true.
Proof.
  unfold Json.dump_int. destruct (Z.to_int z); simpl; apply one_line_uint_str.
Qed.

Lemma one_line_strs (path : list string) :
  one_line (join ", " (Json.dumps <$> (JStr <$> path))) = true.
Proof.
  induction path as [|x path IH]; [reflexivity|].
  destruct path as [|y path].
  - apply one_line_dump_str.
  - change (join ", " (Json.dumps <$> (JStr <$> x :: y :: path)))
      with (Json.dump_str x
            +:+ ", " +:+ join ", " (Json.dumps <$> (JStr <$> y :: path))).
    by rewrite !one_line_app, one_line_dump_str, IH.
Qed.

Lemma one_line_record (r : OutputRecord) :
  one_line (Json.dumps (out_obj r)) = true.
Proof.
  unfold out_obj. rewrite dumps_dict.
  cbn [join fmap list_fmap]. unfold dump_field. simpl fst. simpl snd.
  rewrite !one_line_app.
  change (Json.dumps (JStr (r_lang r))) with (Json.dump_str (r_lang r)).
  change (Json.dumps (JStr (r_title r))) with (Json.dump_str (r_title r)).
  change (Json.dumps (JStr (r_text r))) with (Json.dump_str (r_text r)).
  change (Json.dumps (JStr (r_url r))) with (Json.dump_str (r_url r)).
  rewrite dumps_list, !one_line_app, !one_line_dump_str, one_line_strs.
  destruct (r_pageid r) as [z|]; simpl json_of_pageid.
  - change (Json.dumps (JInt z)) with (Json.dump_int z).
    by rewrite one_line_dump_int.
  - reflexivity.
Qed.

End ReadBack.




(* ================================================================= *)
(** * Beyond the specification: generalities *)

Lemma requests_app (l1 l2 : list event) :
  requests (l1 ++ l2) = requests l1 ++ requests l2.
Proof.
  induction l1 as [|e l1 IH]; [reflexivity|].
  destruct e; simpl; rewrite ?IH; reflexivity.
Qed.

Lemma entered_app (l1 l2 : list event) :
  entered (l1 ++ l2) = (entered l1 + entered l2)%nat.
Proof.
  induction l1 as [|e l1 IH]; [reflexivity|].
  destruct e as [[]| | | | |]; simpl; rewrite ?IH; reflexivity.
Qed.

Lemma entered_net (l : list event) : forallb net_event l = true -> entered l = O.
Proof.
  induction l as [|e l IH]; [reflexivity|].
  simpl. intros [He Hl]%andb_prop.
  destruct e as [[]| | | | |]; try discriminate; auto.
Qed.

Section HttpTrace.

Variable s : session.
Variable url : string.
Variable params : dict.

Lemma api_get_attempts_S (n : nat) (w : world) :
  api_get_attempts (S n) s url params w
  = match succeeded (s (clock w) url params) with
    | Some data => (Ok data, (session_get s url params w).2)
    | None => api_get_attempts n s url params (retried s url params w)
    end.
Proof.
  simpl. unfold bind, retried. simpl.
  destruct (s (clock w) url params) as [e|st d]; simpl.
  - rewrite <- !app_assoc. reflexivity.
  - destruct (st =? 200); simpl; [reflexivity|].
    rewrite <- !app_assoc. reflexivity.
Qed.

End HttpTrace.

Section Traces.

Variable s : session.
Variable api_url out_fh lang : string.
Variable max_pages_per_cat : nat.

Local Abbreviation shaped := (crawl_trace api_url lang).
Local Abbreviation follows := (traced api_url lang).

Lemma crawl_trace_app (l1 l2 : list event) :
  shaped l1 -> shaped l2 -> shaped (l1 ++ l2).
Proof.
  intros H1 H2. induction H1; simpl; try (constructor; assumption).
  exact H2.
Qed.

Lemma traced_refl (w : world) : follows w w.
Proof. exists []. split; [by rewrite app_nil_r | constructor]. Qed.

Lemma traced_trans (w1 w2 w3 : world) :
  follows w1 w2 -> follows w2 w3 -> follows w1 w3.
Proof.
  intros (l1 & T1 & S1) (l2 & T2 & S2). exists (l1 ++ l2). split.
  - rewrite T2, T1. by rewrite app_assoc.
  - by apply crawl_trace_app.
Qed.

Lemma api_get_attempts_traced (n : nat) params (w : world) :
  follows w (api_get_attempts n s api_url params w).2.
Proof.
  revert w. induction n as [|n IH]; intros w; [apply traced_refl|].
  rewrite api_get_attempts_S.
  destruct (succeeded (s (clock w) api_url params)).
  - exists [EGet api_url params]. split; [reflexivity | repeat constructor].
  - eapply traced_trans; [|apply IH].
    eexists. split; [reflexivity | apply ct_retry, ct_nil].
Qed.

Lemma get_page_extract_traced pageid title (w : world) :
  follows w (get_page_extract s api_url pageid title w).2.
Proof.
  unfold get_page_extract.
  destruct pageid as [pid|]; [|destruct title as [t|]]; unfold bind; simpl;
    try apply traced_refl.
  all: match goal with |- context [api_get s api_url ?p ?w0] =>
         pose proof (api_get_attempts_traced MAX_RETRIES p w0) as Q;
         fold (api_get s api_url p w0) in Q;
         destruct (api_get s api_url p w0) as [[data|e|] w1] end;
    simpl in *; try exact Q.
  all: destruct (b_pages data) as [|[key p] rest]; simpl; try exact Q.
  all: destruct (PyStr.startswith key "-"); exact Q.
Qed.

Lemma get_page_extract_raise (pid : Z) (w : world) (e : exn) :
  (get_page_extract s api_url (Some pid) None w).1 = Raise e ->
  e = fetch_failed api_url.
Proof.
  unfold get_page_extract. unfold bind at 1. simpl. unfold bind.
  match goal with |- context [api_get s api_url ?p w] =>
    pose proof (api_get_attempts_raise s api_url p MAX_RETRIES w) as Hr;
    fold (api_get s api_url p w) in Hr;
    destruct (api_get s api_url p w) as [[data|e'|] w1] end; simpl in *.
  - destruct (b_pages data) as [|[key p] rest]; simpl; try discriminate.
    destruct (PyStr.startswith key "-"); discriminate.
  - intros [= <-]. by apply Hr.
  - discriminate.
Qed.

Lemma gen_next_traced (fuel : nat) (g : generator) (w : world) :
  follows w (gen_next fuel s api_url g w).2.
Proof.
  revert g w. induction fuel as [|fuel IH]; intros [params ms cont] w.
  all: destruct ms as [|m ms]; [|apply traced_refl].
  all: destruct cont as [cont|]; [|apply traced_refl].
  { apply traced_refl. }
  simpl. unfold bind.
  pose proof (api_get_attempts_traced MAX_RETRIES (cont ∪ params) w) as Q.
  fold (api_get s api_url (cont ∪ params) w) in Q.
  destruct (api_get s api_url (cont ∪ params) w) as [[data|e|] w1]; simpl in *;
    try exact Q.
  eapply traced_trans; [exact Q | apply IH].
Qed.

Lemma crawl_member_traced (seen : nat) path (count : nat) (m : member)
    (w : world) :
  follows w
    (crawl_member s api_url out_fh lang max_pages_per_cat seen path count m w).2.
Proof.
  unfold crawl_member.
  destruct (max_pages_per_cat <=? count)%nat; [apply traced_refl|].
  unfold bind, try_except, set_contains, ret.
  destruct (bool_decide (m_pageid m ∈ sets w seen)); [apply traced_refl|].
  pose proof (get_page_extract_traced (Some (m_pageid m)) None w) as Q.
  pose proof (get_page_extract_raise (m_pageid m) w) as R.
  destruct (get_page_extract s api_url (Some (m_pageid m)) None w)
    as [[[i|]|e|] w1]; simpl in *; try exact Q.
  - destruct (PyStr.is_empty (PyStr.strip (i_extract i))); [exact Q|].
    destruct (i_title i) as [t|]; simpl; [|exact Q].
    eapply traced_trans; [exact Q|].
    eexists [_; _]. split; [simpl; by rewrite <- app_assoc|].
    by apply ct_record; [..|constructor].
  - rewrite (R e eq_refl).
    eapply traced_trans; [exact Q|].
    eexists [_]. split; [reflexivity|]. repeat constructor.
Qed.

Lemma crawl_members_traced (fuel seen : nat) path (g : generator) (count : nat)
    (w : world) :
  follows w
    (crawl_members s api_url out_fh lang max_pages_per_cat
       fuel seen path g count w).2.
Proof.
  revert g count w. induction fuel as [|fuel IH]; intros g count w;
    [apply traced_refl|].
  rewrite crawl_members_S.
  pose proof (gen_next_traced fuel g w) as Q.
  destruct (gen_next fuel s api_url g w) as [[[[m g']|]|e|] w1]; simpl in Q;
    try exact Q.
  pose proof (crawl_member_traced seen path count m w1) as Q1.
  destruct (crawl_member _ _ _ _ _ _ _ _ m w1) as [[[c|]|e|] w2]; simpl in Q1.
  2-4: by eapply traced_trans.
  eapply traced_trans; [exact Q|]. eapply traced_trans; [exact Q1 | apply IH].
Qed.

Lemma crawl_subcats_traced (fuel : nat) recurse path (g : generator) (w : world) :
  (forall sub path' w1, follows w1 (recurse sub path' w1).2) ->
  follows w (crawl_subcats s api_url fuel recurse path g w).2.
Proof.
  intros Hrec. revert g w. induction fuel as [|fuel IH]; intros g w;
    [apply traced_refl|].
  rewrite crawl_subcats_S.
  pose proof (gen_next_traced fuel g w) as Q.
  destruct (gen_next fuel s api_url g w) as [[[[m g']|]|e|] w1]; simpl in Q;
    try exact Q.
  assert (Q1 : follows w1 (crawl_subcat recurse path m w1).2).
  { unfold crawl_subcat. destruct (bool_decide _); [apply traced_refl|].
    apply Hrec. }
  destruct (crawl_subcat recurse path m w1) as [[[]|e|] w2]; simpl in Q1.
  2-3: by eapply traced_trans.
  eapply traced_trans; [exact Q|]. eapply traced_trans; [exact Q1 | apply IH].
Qed.

Lemma crawl_category_traced (fuel depth : nat) category (seen : nat) path
    (w : world) :
  follows w
    (crawl_category s api_url out_fh lang max_pages_per_cat
       fuel depth category (Some seen) (Some path) w).2.
Proof.
  revert category path w.
  induction depth as [|depth IH]; intros category path w.
  all: rewrite crawl_category_eq.
  all: match goal with |- context [print (LogCrawling ?lg ?p ?d) ?w0] =>
         assert (He : follows w0 (print (LogCrawling lg p d) w0).2)
           by (eexists [_]; split; [reflexivity | apply ct_enter, ct_nil])
       end.
  all: match type of He with follows _ ?w1' => set (w1 := w1') in * end.
  all: pose proof (crawl_members_traced fuel seen path
                     (get_category_members category "page" 500) O w1) as Hp.
  all: fold (crawl_pages s api_url out_fh lang max_pages_per_cat
               fuel category seen path w1) in Hp.
  all: destruct (crawl_pages s api_url out_fh lang max_pages_per_cat
                   fuel category seen path w1) as [[[]|e|] w2]; simpl in Hp.
  all: try (eapply traced_trans; [exact He | exact Hp]).
  eapply traced_trans; [exact He|]. eapply traced_trans; [exact Hp|].
  apply crawl_subcats_traced. intros sub path' w3. apply IH.
Qed.

End Traces.

(* ================================================================= *)
(** * What [api_get] sends and how long it waits *)

Section Backoff.

Variable s : session.
Variable url : string.
Variable params : dict.

Lemma api_get_attempts_backoff (n : nat) (w : world) :
  exists k l,
    (k <= n)%nat
    /\ clock (api_get_attempts n s url params w).2 = (clock w + k)%nat
    /\ trace (api_get_attempts n s url params w).2 = trace w ++ l
    /\ requests l = replicate k (url, params)
    /\ pauses l
       = replicate (if ok (api_get_attempts n s url params w).1
                    then k - 1 else k)%nat RETRY_WAIT
    /\ writes l = []
    /\ (if ok (api_get_attempts n s url params w).1 then (0 < k)%nat else k = n).
Proof.
  revert w. induction n as [|n IH]; intros w.
  { exists O, []. simpl. rewrite app_nil_r. repeat split; lia. }
  rewrite api_get_attempts_S.
  destruct (succeeded (s (clock w) url params)) as [data|].
  - exists 1%nat, [EGet url params]. simpl. repeat split; lia.
  - destruct (IH (retried s url params w)) as (k & l & Hk & C & Tr & Rq & Pa & Wr & Hok).
    exists (S k), ([EGet url params;
                    EPrint (failure_line url params (s (clock w) url params));
                    ESleep RETRY_WAIT] ++ l).
    split; [lia|]. split; [rewrite C; simpl; lia|].
    split; [rewrite Tr; simpl; by rewrite <- app_assoc|].
    split; [simpl; by rewrite Rq|].
    split; [|split; [exact Wr|]].
    + simpl. rewrite Pa.
      destruct (ok (api_get_attempts n s url params (retried s url params w)).1).
      * destruct k as [|k]; [lia|]. simpl. by rewrite Nat.sub_0_r.
      * reflexivity.
    + destruct (ok (api_get_attempts n s url params (retried s url params w)).1);
        lia.
Qed.

End Backoff.

(** X1.  Every attempt of [api_get] sends the same request, and every
    attempt that fails -- the last one as well -- is followed by a wait of
    [RETRY_WAIT]: a call that returns has waited once for each request but the
    last, a call that gives up has sent three requests and waited three times,
    fifteen seconds in all, before it raises its error. *)
Theorem api_get_backoff (s : session) (url : string) (params : dict) (w : world) :
  let run := api_get s url params w in
  let sent := (clock run.2 - clock w)%nat in
  requests (events w run.2) = replicate sent (url, params)
  /\ pauses (events w run.2)
     = replicate (if ok run.1 then sent - 1 else sent)%nat RETRY_WAIT
  /\ (if ok run.1 then (1 <= sent <= 3)%nat
      else sent = 3%nat /\ foldr Z.add 0 (pauses (events w run.2)) = 15000)
  /\ writes (events w run.2) = [].
Proof.
  intros run sent. subst run sent. unfold api_get, MAX_RETRIES.
  destruct (api_get_attempts_backoff s url params 3 w)
    as (k & l & Hk & C & Tr & Rq & Pa & Wr & Hok).
  rewrite (events_app _ _ _ Tr), C.
  replace (clock w + k - clock w)%nat with k by lia.
  split; [exact Rq|]. split; [exact Pa|]. split; [|exact Wr].
  destruct (ok (api_get_attempts 3 s url params w).1).
  - lia.
  - subst k. split; [reflexivity|]. rewrite Pa. reflexivity.
Qed.

(* ================================================================= *)
(** * The shape of the trace of a crawl *)

Lemma crawl_category_shape (s : session) (api_url out_fh lang : string)
    (max_pages_per_cat fuel depth : nat) (category : string)
    (seen_pages : option nat) (category_path : option (list string))
    (w : world) :
  exists l,
    events w
      (crawl_category s api_url out_fh lang max_pages_per_cat
         fuel depth category seen_pages category_path w).2
    = match seen_pages with
      | None => ENewSet (next_set w) :: l
      | Some _ => l
      end
    /\ crawl_trace api_url lang l.
Proof.
  rewrite crawl_category_resolved.
  destruct (crawl_category_traced s api_url out_fh lang max_pages_per_cat
              fuel depth category (resolved_set seen_pages w)
              (resolved_path category category_path)
              (resolved_world seen_pages w)) as (l & Tr & Sh).
  exists l. split; [|exact Sh].
  destruct seen_pages as [r|]; simpl in *.
  - by apply events_app.
  - apply events_app. rewrite Tr, <- app_assoc. reflexivity.
Qed.

Lemma crawl_trace_requests (api_url lang : string) (l : list event) :
  crawl_trace api_url lang l ->
  Forall (fun request => request.1 = api_url) (requests l).
Proof. induction 1; simpl; repeat constructor; assumption. Qed.

(** X9.  A crawl sends all its requests, for the listings and for the pages,
    to the address [api_url] it was given. *)
Theorem crawl_category_requests (s : session) (api_url out_fh lang : string)
    (max_pages_per_cat fuel depth : nat) (category : string)
    (seen_pages : option nat) (category_path : option (list string))
    (w : world) :
  Forall (fun request => request.1 = api_url)
    (requests
       (events w
          (crawl_category s api_url out_fh lang max_pages_per_cat
             fuel depth category seen_pages category_path w).2)).
Proof.
  destruct (crawl_category_shape s api_url out_fh lang max_pages_per_cat
              fuel depth category seen_pages category_path w) as (l & -> & Sh).
  destruct seen_pages; simpl; by apply (crawl_trace_requests api_url lang).
Qed.

(** In a [crawl_trace] a pause of [SLEEP_BETWEEN_REQUESTS] comes right after
    each record written and nowhere else, and a wait of [RETRY_WAIT] right
    after each line that reports a failed attempt and nowhere else. *)
Lemma crawl_trace_paced (api_url lang : string) (l : list event) :
  crawl_trace api_url lang l ->
  (forall d, head l <> Some (ESleep d))
  /\ (forall i d, l !! i = Some (EWrite d) ->
        l !! S i = Some (ESleep SLEEP_BETWEEN_REQUESTS))
  /\ (forall i, l !! S i = Some (ESleep SLEEP_BETWEEN_REQUESTS) ->
        exists d, l !! i = Some (EWrite d))
  /\ (forall i d, l !! S i = Some (ESleep d) ->
        d = SLEEP_BETWEEN_REQUESTS \/ d = RETRY_WAIT).
Proof.
  induction 1 as [|params l _ (H0 & H1 & H2 & H3)|params a l _ (H0 & H1 & H2 & H3)
                  |title l _ (H0 & H1 & H2 & H3)|path depth l _ (H0 & H1 & H2 & H3)
                  |r l _ _ _ (H0 & H1 & H2 & H3)].
  - repeat split; intros; discriminate.
  - split; [done|]. split; [|split].
    + intros [|i] d; simpl; [done | apply H1].
    + intros [|i]; simpl; [|apply H2].
      intros E. destruct l; [done|]. simpl in E. by destruct (H0 SLEEP_BETWEEN_REQUESTS); f_equal.
    + intros [|i] d; simpl; [|apply H3].
      intros E. destruct l; [done|]. simpl in E. by destruct (H0 d); f_equal.
  - split; [done|]. split; [|split].
    + intros [|[|[|i]]] d; simpl; try done. apply H1.
    + intros [|[|[|i]]]; simpl; try done.
      * intros E. destruct l; [done|]. simpl in E.
        by destruct (H0 SLEEP_BETWEEN_REQUESTS); f_equal.
      * apply H2.
    + intros [|[|[|i]]] d; simpl; try done.
      * intros [= <-]. by right.
      * intros E. destruct l; [done|]. simpl in E. by destruct (H0 d); f_equal.
      * apply H3.
  - split; [done|]. split; [|split].
    + intros [|i] d; simpl; [done | apply H1].
    + intros [|i]; simpl; [|apply H2].
      intros E. destruct l; [done|]. simpl in E. by destruct (H0 SLEEP_BETWEEN_REQUESTS); f_equal.
    + intros [|i] d; simpl; [|apply H3].
      intros E. destruct l; [done|]. simpl in E. by destruct (H0 d); f_equal.
  - split; [done|]. split; [|split].
    + intros [|i] d; simpl; [done | apply H1].
    + intros [|i]; simpl; [|apply H2].
      intros E. destruct l; [done|]. simpl in E. by destruct (H0 SLEEP_BETWEEN_REQUESTS); f_equal.
    + intros [|i] d; simpl; [|apply H3].
      intros E. destruct l; [done|]. simpl in E. by destruct (H0 d); f_equal.
  - split; [done|]. split; [|split].
    + intros [|[|i]] d; simpl; try done. apply H1.
    + intros [|[|i]]; simpl; try done; [eauto| |apply H2].
      intros E. destruct l; [done|]. simpl in E.
      by destruct (H0 SLEEP_BETWEEN_REQUESTS); f_equal.
    + intros [|[|i]] d; simpl; try done.
      * intros [= <-]. by left.
      * intros E. destruct l; [done|]. simpl in E. by destruct (H0 d); f_equal.
      * apply H3.
Qed.

(** X10.  In a crawl, every record written is followed at once by a pause of
    [SLEEP_BETWEEN_REQUESTS], and these are the only pauses of that length:
    a request that gives no record (a listing, a page that is missing, blank
    or given up) is not followed by one.  The only other waits are those of
    [RETRY_WAIT] after failed attempts. *)
Theorem crawl_category_pauses (s : session) (api_url out_fh lang : string)
    (max_pages_per_cat fuel depth : nat) (category : string)
    (seen_pages : option nat) (category_path : option (list string))
    (w : world) :
  let l := events w
             (crawl_category s api_url out_fh lang max_pages_per_cat
                fuel depth category seen_pages category_path w).2 in
  (forall i d, l !! i = Some (EWrite d) ->
     l !! S i = Some (ESleep SLEEP_BETWEEN_REQUESTS))
  /\ (forall i, l !! i = Some (ESleep SLEEP_BETWEEN_REQUESTS) ->
        exists j d, i = S j /\ l !! j = Some (EWrite d))
  /\ (forall i d, l !! i = Some (ESleep d) ->
        d = SLEEP_BETWEEN_REQUESTS \/ d = RETRY_WAIT).
Proof.
  intros l. subst l.
  destruct (crawl_category_shape s api_url out_fh lang max_pages_per_cat
              fuel depth category seen_pages category_path w) as (l & -> & Sh).
  destruct (crawl_trace_paced _ _ _ Sh) as (H0 & H1 & H2 & H3).
  assert (G : (forall i d, l !! i = Some (EWrite d) ->
                 l !! S i = Some (ESleep SLEEP_BETWEEN_REQUESTS))
              /\ (forall i, l !! i = Some (ESleep SLEEP_BETWEEN_REQUESTS) ->
                    exists j d, i = S j /\ l !! j = Some (EWrite d))
              /\ (forall i d, l !! i = Some (ESleep d) ->
                    d = SLEEP_BETWEEN_REQUESTS \/ d = RETRY_WAIT)).
  { split; [exact H1|]. split.
    - intros [|i] E.
      + destruct l; [done|]. simpl in E. by destruct (H0 SLEEP_BETWEEN_REQUESTS); f_equal.
      + destruct (H2 i E) as [d Hd]. eauto.
    - intros [|i] d E; [|by apply (H3 i)].
      destruct l; [done|]. simpl in E. by destruct (H0 d); f_equal. }
  destruct seen_pages as [r|]; [exact G|].
  destruct G as (G1 & G2 & G3). split; [|split].
  - intros [|i] d; simpl; [done | apply G1].
  - intros [|i]; simpl; [done|]. intros E.
    destruct (G2 i E) as (j & d & -> & Hj). exists (S j), d. by split.
  - intros [|i] d; simpl; [done | apply G3].
Qed.

Lemma Forall_good_writes (good : event -> Prop) (l : list event) :
  Forall good l -> Forall (fun d => good (EWrite d)) (writes l).
Proof.
  induction 1 as [|e l He _ IH]; [constructor|].
  destruct e; simpl; try exact IH. by constructor.
Qed.

(** X12.  The [category_path] of every record of a crawl starts with the
    path the crawl started from and goes on with at most [depth] names of
    subcategories; it has no repetition when the path of the root has none.
    Every record carries the language of the crawl. *)
Theorem record_paths (s : session) (api_url out_fh lang : string)
    (max_pages_per_cat fuel depth : nat) (category : string)
    (seen_pages : option nat) (category_path : option (list string))
    (w : world) :
  Forall
    (fun d =>
       exists r,
         d = record_line r
         /\ r_lang r = lang
         /\ resolved_path category category_path `prefix_of` r_category_path r
         /\ (length (r_category_path r)
             <= length (resolved_path category category_path) + depth)%nat
         /\ (NoDup (resolved_path category category_path) ->
             NoDup (r_category_path r)))
    (writes
       (events w
          (crawl_category s api_url out_fh lang max_pages_per_cat
             fuel depth category seen_pages category_path w).2)).
Proof.
  set (root := resolved_path category category_path).
  set (good := fun e => match e with
                        | EWrite d =>
                            exists r,
                              d = record_line r
                              /\ r_lang r = lang
                              /\ root `prefix_of` r_category_path r
                              /\ (length (r_category_path r)
                                  <= length root + depth)%nat
                              /\ (NoDup root -> NoDup (r_category_path r))
                        | _ => True
                        end).
  destruct (crawl_category_events s api_url out_fh lang max_pages_per_cat good
              (fun p d => root `prefix_of` p
                          /\ (length p + d = length root + depth)%nat
                          /\ (NoDup root -> NoDup p)))
    with (fuel := fuel) (depth := depth) (category := category)
         (seen_pages := seen_pages) (category_path := category_path) (w := w)
    as [G _]; try done.
  - intros [] He; try done.
  - intros path d pid i t (P1 & P2 & P3) _ _ _. simpl. eexists.
    split; [reflexivity|]. simpl. repeat split; try done. lia.
  - intros path d sub (P1 & P2 & P3) Hsub. split; [|split].
    + by apply prefix_app_r.
    + rewrite length_app. simpl. lia.
    + intros Hnd. apply NoDup_snoc; auto.
  - exact (Forall_good_writes good _ G).
Qed.

(* ================================================================= *)
(** * Pages that cannot be fetched, pages without a title *)

(** A call of [api_get] whose three attempts fail. *)
Lemma api_get_exhausted (s : session) (url : string) (params : dict) (w : world) :
  (forall j, (j < 3)%nat -> succeeded (s (clock w + j)%nat url params) = None) ->
  exists w1 l,
    api_get s url params w = (Raise (fetch_failed url), w1)
    /\ trace w1 = trace w ++ l
    /\ length (requests l) = 3%nat
    /\ writes l = []
    /\ entered l = O
    /\ clock w1 = (clock w + 3)%nat
    /\ sets w1 = sets w
    /\ next_set w1 = next_set w
    /\ files w1 = files w.
Proof.
  intros Hdown. unfold api_get, MAX_RETRIES.
  destruct (api_get_attempts_exhausted s url params 3 w Hdown) as [R C].
  destruct (api_get_attempts_backoff s url params 3 w)
    as (k & l & Hk & C' & Tr & Rq & Pa & Wr & Hok).
  pose proof (api_get_attempts_quiet s url params 3 w) as [Qs Qn Qf (l' & Tr' & A)].
  destruct (api_get_attempts 3 s url params w) as [r w1].
  cbn [fst snd] in *. subst r. cbn [ok] in Hok. subst k.
  rewrite Tr in Tr'. apply app_inv_head in Tr' as <-.
  exists w1, l. rewrite Rq, length_replicate.
  repeat split; try assumption. by apply entered_net.
Qed.

Lemma crawl_member_fetch_raise (s : session) (api_url out_fh lang : string)
    (max_pages_per_cat seen : nat) (path : list string) (count : nat)
    (m : member) (w w1 : world) (e : exn) :
  (count < max_pages_per_cat)%nat ->
  m_pageid m ∉ sets w seen ->
  get_page_extract s api_url (Some (m_pageid m)) None w = (Raise e, w1) ->
  crawl_member s api_url out_fh lang max_pages_per_cat seen path count m w
  = (Ok (Some count), (print (LogPageFailed (m_title m) e) w1).2).
Proof.
  intros Hcount Hseen Hget.
  unfold crawl_member. apply Nat.leb_gt in Hcount. rewrite Hcount.
  unfold bind, try_except, set_contains, ret.
  rewrite bool_decide_eq_false_2 by exact Hseen.
  rewrite Hget. reflexivity.
Qed.

Lemma get_page_extract_exhausted (s : session) (api_url : string) (pid : Z)
    (w : world) :
  (forall j params, (j < 3)%nat ->
     succeeded (s (clock w + j)%nat api_url params) = None) ->
  exists w1 l,
    get_page_extract s api_url (Some pid) None w
    = (Raise (fetch_failed api_url), w1)
    /\ trace w1 = trace w ++ l
    /\ length (requests l) = 3%nat
    /\ writes l = []
    /\ entered l = O
    /\ clock w1 = (clock w + 3)%nat
    /\ sets w1 = sets w
    /\ next_set w1 = next_set w
    /\ files w1 = files w.
Proof.
  intros Hdown. unfold get_page_extract. unfold bind at 1. simpl. unfold bind.
  match goal with |- context [api_get s api_url ?p w] =>
    destruct (api_get_exhausted s api_url p w) as (w1 & l & -> & H)
  end.
  { intros j Hj. by apply Hdown. }
  exists w1, l. split; [reflexivity | exact H].
Qed.

(** X5.  When the three attempts to fetch a page fail, the page loop prints
    the line that names the page and the error, and goes on with the next
    member: the count is unchanged, nothing is written and the page is not
    marked as seen. *)
Theorem crawl_member_fetch_failure (s : session) (api_url out_fh lang : string)
    (max_pages_per_cat seen : nat) (path : list string) (count : nat)
    (m : member) (w : world) :
  (count < max_pages_per_cat)%nat ->
  m_pageid m ∉ sets w seen ->
  (forall j params, (j < 3)%nat ->
     succeeded (s (clock w + j)%nat api_url params) = None) ->
  let run := crawl_member s api_url out_fh lang max_pages_per_cat
               seen path count m w in
  run.1 = Ok (Some count)
  /\ last (events w run.2)
     = Some (EPrint (LogPageFailed (m_title m) (fetch_failed api_url)))
  /\ length (requests (events w run.2)) = 3%nat
  /\ writes (events w run.2) = []
  /\ sets run.2 = sets w
  /\ files run.2 = files w.
Proof.
  intros Hcount Hseen Hdown run. subst run.
  destruct (get_page_extract_exhausted s api_url (m_pageid m) w Hdown)
    as (w1 & l & Hget & Tr & Rq & Wr & _ & C & Qs & Qn & Qf).
  rewrite (crawl_member_fetch_raise _ _ _ _ _ _ _ _ _ _ _ _ Hcount Hseen Hget).
  cbn [fst snd].
  rewrite (events_app w _
             (l ++ [EPrint (LogPageFailed (m_title m) (fetch_failed api_url))]))
    by (simpl; rewrite Tr; by rewrite <- app_assoc).
  split; [reflexivity|]. split; [by rewrite last_snoc|].
  split; [rewrite requests_app, length_app, Rq; reflexivity|].
  split; [by rewrite writes_app, Wr|]. split; assumption.
Qed.

(** When the service is down, P1 of Physics is given up and the loop goes on. *)
Lemma crawl_member_fetch_failure_witness :
  (crawl_member down en_api "out.jsonl" "en" 20 O ["Physics"] O
     (Member 1 "P1") w0).1
  = Ok (Some O).
Proof.
  apply (crawl_member_fetch_failure down en_api "out.jsonl" "en" 20 O
           ["Physics"] O (Member 1 "P1") w0).
  - lia.
  - simpl. apply not_elem_of_empty.
  - reflexivity.
Defined.

(** X6.  A page whose answer has no title but an extract that is not blank
    stops the crawl of its category with an [AttributeError]: the page has
    been marked as seen by then, but no record is written for it. *)
Theorem crawl_member_missing_title (s : session) (api_url out_fh lang : string)
    (max_pages_per_cat seen : nat) (path : list string) (count : nat)
    (m : member) (w : world) (data : body) (key : string) (p : page)
    (rest : list (string * page)) (text : string) :
  (count < max_pages_per_cat)%nat ->
  m_pageid m ∉ sets w seen ->
  (forall params, succeeded (s (clock w) api_url params) = Some data) ->
  b_pages data = (key, p) :: rest ->
  PyStr.startswith key "-" = false ->
  p_title p = None ->
  p_extract p = Some text ->
  PyStr.is_empty (PyStr.strip text) = false ->
  let run := crawl_member s api_url out_fh lang max_pages_per_cat
               seen path count m w in
  run.1 = Raise (AttributeError "'NoneType' object has no attribute 'replace'")
  /\ sets run.2 seen = {[m_pageid m]} ∪ sets w seen
  /\ writes (events w run.2) = []
  /\ files run.2 = files w.
Proof.
  intros Hcount Hseen Hs Hpages Hkey Htitle Hextract Htext run. subst run.
  unfold crawl_member. apply Nat.leb_gt in Hcount. rewrite Hcount.
  unfold bind, try_except, set_contains, ret.
  rewrite bool_decide_eq_false_2 by exact Hseen.
  unfold get_page_extract, bind, ret.
  rewrite (api_get_first s api_url _ w data (Hs _)).
  rewrite Hpages, Hkey, Htitle, Hextract.
  cbn [i_extract i_title i_pageid default from_option id]. rewrite Htext.
  cbn [fst snd set_add session_get raise trace sets files].
  split; [reflexivity|]. split; [by rewrite decide_True|].
  split; [|reflexivity].
  match goal with |- context [events w ?w'] =>
    rewrite (events_app w w' [EGet api_url _]) by reflexivity
  end.
  reflexivity.
Qed.

(** The page 7 comes with a text and no title. *)
Lemma crawl_member_missing_title_witness :
  (crawl_member untitled en_api "out.jsonl" "en" 20 O ["Physics"] O
     (Member 7 "Draft") w0).1
  = Raise (AttributeError "'NoneType' object has no attribute 'replace'").
Proof.
  apply (crawl_member_missing_title untitled en_api "out.jsonl" "en" 20 O
           ["Physics"] O (Member 7 "Draft") w0
           (Body [] [("7", Page (Some 7) None (Some "Text"))] None)
           "7" (Page (Some 7) None (Some "Text")) [] "Text");
    try reflexivity.
  - lia.
  - simpl. apply not_elem_of_empty.
Defined.

(* ================================================================= *)
(** * How many records a crawl can write *)

Section Count.

Variable s : session.
Variable api_url out_fh lang : string.
Variable max_pages_per_cat : nat.

Local Abbreviation in_bound := (within_bound max_pages_per_cat).

Lemma page_phase_quiet (n : nat) (w w' : world) : quiet w w' -> page_phase n w w'.
Proof.
  intros [_ _ _ (l & Tr & A)]. exists l. split; [exact Tr|].
  split; [by apply entered_net|]. rewrite (writes_net _ A). simpl. lia.
Qed.

Lemma page_phase_trans (n1 n2 : nat) (w1 w2 w3 : world) :
  page_phase n1 w1 w2 -> page_phase n2 w2 w3 -> page_phase (n1 + n2) w1 w3.
Proof.
  intros (l1 & T1 & E1 & W1) (l2 & T2 & E2 & W2). exists (l1 ++ l2).
  split; [rewrite T2, T1; by rewrite app_assoc|].
  split; [rewrite entered_app; lia|].
  rewrite writes_app, length_app. lia.
Qed.

Lemma page_phase_le (n m : nat) (w w' : world) :
  (n <= m)%nat -> page_phase n w w' -> page_phase m w w'.
Proof. intros Hle (l & T & E & W). exists l. repeat split; try done. lia. Qed.

Lemma crawl_member_page_phase (seen : nat) path (count : nat) (m : member)
    (w : world) (res : result (option nat)) (w' : world) :
  crawl_member s api_url out_fh lang max_pages_per_cat seen path count m w
  = (res, w') ->
  (page_phase 0 w w' /\ forall c, res = Ok (Some c) -> c = count)
  \/ (page_phase 1 w w' /\ (count < max_pages_per_cat)%nat
      /\ forall c, res = Ok (Some c) -> c = S count).
Proof.
  intros E.
  apply crawl_member_cases in E
    as [[Q Hres]|(w1 & i & Hlt & _ & Hget & _ & Hcase)].
  - left. split; [by apply page_phase_quiet|].
    intros c ->. destruct Hres as [|[=]]; done.
  - pose proof (get_page_extract_quiet s api_url (Some (m_pageid m)) None w) as Q.
    rewrite Hget in Q. simpl in Q.
    destruct Hcase as [(t & Ht & -> & ->)|(Ht & (msg & ->) & ->)].
    + right. split; [|split; [exact Hlt | by intros c [= <-]]].
      apply (page_phase_trans 0 1 w w1); [by apply page_phase_quiet|].
      eexists [_; _]. split; [simpl; by rewrite <- app_assoc|].
      split; [reflexivity | simpl; lia].
    + left. split; [|done].
      apply (page_phase_trans 0 0 w w1); [by apply page_phase_quiet|].
      exists []. simpl. rewrite app_nil_r. repeat split. lia.
Qed.

Lemma crawl_members_page_phase (fuel seen : nat) path (g : generator)
    (count : nat) (w : world) :
  (count <= max_pages_per_cat)%nat ->
  page_phase (max_pages_per_cat - count) w
    (crawl_members s api_url out_fh lang max_pages_per_cat
       fuel seen path g count w).2.
Proof.
  revert g count w. induction fuel as [|fuel IH]; intros g count w Hcount.
  { apply page_phase_quiet, quiet_refl. }
  rewrite crawl_members_S.
  pose proof (gen_next_quiet s api_url fuel g w) as Q.
  destruct (gen_next fuel s api_url g w) as [[[[m g']|]|e|] w1]; simpl in Q;
    try (by apply page_phase_quiet).
  destruct (crawl_member s api_url out_fh lang max_pages_per_cat
              seen path count m w1) as [res w2] eqn:E.
  apply crawl_member_page_phase in E as [[Hp Hc]|(Hp & Hlt & Hc)].
  - assert (H : page_phase (max_pages_per_cat - count) w w2).
    { eapply (page_phase_le 0); [lia|].
      apply (page_phase_trans 0 0 w w1); [by apply page_phase_quiet | exact Hp]. }
    destruct res as [[c|]|e|]; try exact H.
    rewrite (Hc c eq_refl).
    replace (max_pages_per_cat - count)%nat
      with (0 + 0 + (max_pages_per_cat - count))%nat by lia.
    eapply page_phase_trans; [|by apply IH].
    eapply page_phase_trans; [by apply page_phase_quiet | exact Hp].
  - assert (H : page_phase (max_pages_per_cat - count) w w2).
    { eapply (page_phase_le 1); [lia|].
      apply (page_phase_trans 0 1 w w1); [by apply page_phase_quiet | exact Hp]. }
    destruct res as [[c|]|e|]; try exact H.
    rewrite (Hc c eq_refl).
    replace (max_pages_per_cat - count)%nat
      with (0 + 1 + (max_pages_per_cat - S count))%nat by lia.
    eapply page_phase_trans; [|apply IH; lia].
    eapply page_phase_trans; [by apply page_phase_quiet | exact Hp].
Qed.

Lemma within_bound_quiet (w w' : world) : quiet w w' -> in_bound w w'.
Proof.
  intros [_ _ _ (l & Tr & A)]. exists l. split; [exact Tr|].
  rewrite (writes_net _ A). simpl. lia.
Qed.

Lemma within_bound_trans (w1 w2 w3 : world) :
  in_bound w1 w2 -> in_bound w2 w3 -> in_bound w1 w3.
Proof.
  intros (l1 & T1 & W1) (l2 & T2 & W2). exists (l1 ++ l2).
  split; [rewrite T2, T1; by rewrite app_assoc|].
  rewrite writes_app, length_app, entered_app. lia.
Qed.

Lemma crawl_subcats_within_bound (fuel : nat) recurse path (g : generator)
    (w : world) :
  (forall sub path' w1, in_bound w1 (recurse sub path' w1).2) ->
  in_bound w (crawl_subcats s api_url fuel recurse path g w).2.
Proof.
  intros Hrec. revert g w. induction fuel as [|fuel IH]; intros g w.
  { apply within_bound_quiet, quiet_refl. }
  rewrite crawl_subcats_S.
  pose proof (gen_next_quiet s api_url fuel g w) as Q.
  destruct (gen_next fuel s api_url g w) as [[[[m g']|]|e|] w1]; simpl in Q;
    try (by apply within_bound_quiet).
  assert (Q1 : in_bound w1 (crawl_subcat recurse path m w1).2).
  { unfold crawl_subcat. destruct (bool_decide _); [|apply Hrec].
    apply within_bound_quiet, quiet_refl. }
  apply within_bound_quiet in Q.
  destruct (crawl_subcat recurse path m w1) as [[[]|e|] w2]; simpl in Q1.
  2-3: by eapply within_bound_trans.
  eapply within_bound_trans; [exact Q|].
  eapply within_bound_trans; [exact Q1 | apply IH].
Qed.

(** A call of [crawl_category]: the line that announces the category, then
    at most [max_pages_per_cat] records, then the subcategories. *)
Lemma crawl_category_within_bound (fuel depth : nat) category (seen : nat) path
    (w : world) :
  in_bound w
    (crawl_category s api_url out_fh lang max_pages_per_cat
       fuel depth category (Some seen) (Some path) w).2.
Proof.
  revert category path w.
  induction depth as [|depth IH]; intros category path w.
  all: rewrite crawl_category_eq.
  all: match goal with |- context [print (LogCrawling ?lg ?p ?d) ?w0] =>
         set (w1 := (print (LogCrawling lg p d) w0).2)
       end.
  all: pose proof (crawl_members_page_phase fuel seen path
                     (get_category_members category "page" 500) O w1
                     ltac:(lia)) as (lp & Tp & Ep & Wp).
  all: fold (crawl_pages s api_url out_fh lang max_pages_per_cat
               fuel category seen path w1) in Tp.
  all: assert (Hp : in_bound w
                      (crawl_pages s api_url out_fh lang max_pages_per_cat
                         fuel category seen path w1).2)
         by (eexists (_ :: lp); split;
             [rewrite Tp; simpl; by rewrite <- app_assoc
             |simpl; rewrite Ep; lia]).
  all: destruct (crawl_pages s api_url out_fh lang max_pages_per_cat
                   fuel category seen path w1) as [[[]|e|] w2]; simpl in Hp.
  all: try exact Hp.
  eapply within_bound_trans; [exact Hp|].
  apply crawl_subcats_within_bound. intros sub path' w3. apply IH.
Qed.

End Count.

Lemma crawl_category_leaf (s : session) (api_url out_fh lang : string)
    (max_pages_per_cat fuel : nat) (category : string) (seen : nat)
    (path : list string) (w : world) :
  exists l,
    trace (crawl_category s api_url out_fh lang max_pages_per_cat
             fuel 0 category (Some seen) (Some path) w).2
    = trace w ++ EPrint (LogCrawling lang path 0) :: l
    /\ entered l = O
    /\ (length (writes l) <= max_pages_per_cat)%nat.
Proof.
  rewrite crawl_category_eq.
  set (w1 := (print (LogCrawling lang path 0) w).2).
  pose proof (crawl_members_page_phase s api_url out_fh lang max_pages_per_cat
                fuel seen path (get_category_members category "page" 500) O w1
                ltac:(lia)) as (lp & Tp & Ep & Wp).
  fold (crawl_pages s api_url out_fh lang max_pages_per_cat
          fuel category seen path w1) in Tp.
  exists lp. split; [|split; [exact Ep | lia]].
  destruct (crawl_pages s api_url out_fh lang max_pages_per_cat
              fuel category seen path w1) as [[[]|e|] w2]; simpl in *.
  all: rewrite Tp, <- app_assoc; reflexivity.
Qed.

(** X11.  A crawl writes at most [max_pages_per_cat] records for each
    category it enters, whatever the remote side answers; with [depth = 0]
    it enters one category and writes at most [max_pages_per_cat] records,
    none when the bound is zero. *)
Theorem records_per_category (s : session) (api_url out_fh lang : string)
    (max_pages_per_cat fuel depth : nat) (category : string)
    (seen_pages : option nat) (category_path : option (list string))
    (w : world) :
  let l := events w
             (crawl_category s api_url out_fh lang max_pages_per_cat
                fuel depth category seen_pages category_path w).2 in
  (length (writes l) <= max_pages_per_cat * entered l)%nat
  /\ (depth = O ->
      entered l = 1%nat /\ (length (writes l) <= max_pages_per_cat)%nat)
  /\ (max_pages_per_cat = O -> writes l = []).
Proof.
  intros l. subst l. rewrite crawl_category_resolved.
  assert (H0 : exists l0, trace (resolved_world seen_pages w) = trace w ++ l0
                          /\ writes l0 = [] /\ entered l0 = O).
  { destruct seen_pages; simpl.
    - exists []. by rewrite app_nil_r.
    - by exists [ENewSet (next_set w)]. }
  destruct H0 as (l0 & T0 & W0 & E0).
  destruct (crawl_category_within_bound s api_url out_fh lang max_pages_per_cat
              fuel depth category (resolved_set seen_pages w)
              (resolved_path category category_path)
              (resolved_world seen_pages w)) as (l & Tr & Wl).
  assert (Tr' := Tr). rewrite T0, <- app_assoc in Tr'.
  rewrite (events_app _ _ _ Tr'), writes_app, entered_app, W0, E0. simpl.
  split; [exact Wl|]. split.
  - intros ->.
    destruct (crawl_category_leaf s api_url out_fh lang max_pages_per_cat
                fuel category (resolved_set seen_pages w)
                (resolved_path category category_path)
                (resolved_world seen_pages w)) as (lp & Tp & Ep & Wp).
    rewrite Tr in Tp. apply app_inv_head in Tp as ->. simpl.
    split; [by rewrite Ep | exact Wp].
  - intros ->. simpl in Wl. destruct (writes l); [reflexivity | simpl in Wl; lia].
Qed.

(* ================================================================= *)
(** * The events of a whole run *)

Section DriverEvents.

Variable s : session.
Variable fuel : nat.
Variable out_fh : string.
Variable max_pages depth : nat.

Local Abbreviation crawl := (fresh_crawl s fuel out_fh max_pages depth).

Lemma fresh_crawl_trace (lang cat : string) (w : world) :
  trace (crawl lang cat w).2 = trace w ++ events w (crawl lang cat w).2.
Proof.
  destruct (fresh_crawl_run s fuel out_fh max_pages depth lang cat w)
    as (l & Tr & _).
  by rewrite (events_app _ _ _ Tr).
Qed.

(** What holds of every event of the crawl of each pair, of the line that
    reports an error and of the wait that follows it, holds of every event of
    the run of the driver. *)
Lemma driver_run_events (good : event -> Prop) (ps : list (string * string))
    (w w' : world) (r : result unit) :
  (forall lang cat w1,
      (lang, cat) ∈ ps -> Forall good (events w1 (crawl lang cat w1).2)) ->
  (forall lang cat e, (lang, cat) ∈ ps -> good (EPrint (LogCrawlError lang cat e))) ->
  good (ESleep RETRY_WAIT) ->
  driver_run crawl ps w r w' ->
  exists l, trace w' = trace w ++ l /\ Forall good l.
Proof.
  intros Hcrawl Herr Hwait D.
  induction D as [w|lang cat ps w w1 r w2 E _ IH|lang cat ps w e w1 r w2 E _ IH
                  |lang cat ps w w1 E].
  - exists []. by rewrite app_nil_r.
  - pose proof (Hcrawl lang cat w ltac:(left)) as G.
    pose proof (fresh_crawl_trace lang cat w) as Tr.
    rewrite E in G, Tr. simpl in G, Tr.
    destruct IH as (l2 & T2 & G2).
    { intros. apply Hcrawl. by right. }
    { intros. apply Herr. by right. }
    exists (events w w1 ++ l2). split.
    + rewrite T2, Tr at 1. by rewrite app_assoc.
    + by apply Forall_app.
  - pose proof (Hcrawl lang cat w ltac:(left)) as G.
    pose proof (fresh_crawl_trace lang cat w) as Tr.
    rewrite E in G, Tr. simpl in G, Tr.
    destruct IH as (l2 & T2 & G2).
    { intros. apply Hcrawl. by right. }
    { intros. apply Herr. by right. }
    exists (events w w1
            ++ [EPrint (LogCrawlError lang cat e); ESleep RETRY_WAIT] ++ l2).
    split.
    + rewrite T2. simpl. rewrite Tr at 1. by rewrite <- !app_assoc.
    + apply Forall_app. split; [exact G|].
      apply Forall_cons. split; [apply Herr; left|].
      apply Forall_cons. by split.
  - pose proof (Hcrawl lang cat w ltac:(left)) as G.
    pose proof (fresh_crawl_trace lang cat w) as Tr.
    rewrite E in G, Tr. simpl in G, Tr. eauto.
Qed.

End DriverEvents.

Lemma all_pairs_elem (langs categories : list string) (lang cat : string) :
  (lang, cat) ∈ all_pairs langs categories <-> lang ∈ langs /\ cat ∈ categories.
Proof.
  unfold all_pairs. rewrite list_elem_of_In, in_flat_map. split.
  - intros (x & Hx & Hin). apply in_map_iff in Hin as (c & [= -> ->] & Hc).
    by rewrite !list_elem_of_In.
  - intros [Hl Hc]. exists lang. rewrite <- list_elem_of_In. split; [exact Hl|].
    apply in_map. by apply list_elem_of_In.
Qed.

(** What holds of every event of every crawl the run starts holds of every
    event of the run after the file is opened. *)
Lemma main_events (good : event -> Prop) (s : session) (fuel : nat)
    (langs categories : list string) (outpath : string) (max_pages depth : nat)
    (w : world) :
  (forall lang cat w1,
      lang ∈ langs -> cat ∈ categories ->
      Forall good
        (events w1 (fresh_crawl s fuel outpath max_pages depth lang cat w1).2)) ->
  (forall lang cat e,
      lang ∈ langs -> cat ∈ categories ->
      good (EPrint (LogCrawlError lang cat e))) ->
  good (ESleep RETRY_WAIT) ->
  exists l,
    events w (main s fuel langs categories outpath max_pages depth w).2
    = EOpen outpath :: l
    /\ Forall good l.
Proof.
  intros Hcrawl Herr Hwait.
  pose proof (main_driver s fuel langs categories outpath max_pages depth w) as D.
  apply (driver_run_events s fuel outpath max_pages depth good) in D
    as (l & Tr & G); try done.
  - exists l. split; [|exact G]. apply events_app.
    rewrite Tr. simpl. by rewrite <- app_assoc.
  - intros lang cat w1 [??]%all_pairs_elem. by apply Hcrawl.
  - intros lang cat e [??]%all_pairs_elem. by apply Herr.
Qed.

(* ================================================================= *)
(** * Reading the output file back *)

Lemma split_lines_line (body rest : string) :
  one_line body = true ->
  split_lines (body +:+ newline +:+ rest) = body :: split_lines rest.
Proof.
  induction body as [|a body IH]; intros H.
  - reflexivity.
  - simpl in H. apply andb_prop in H as [Ha Hb].
    change (String a body +:+ newline +:+ rest)
      with (String a (body +:+ newline +:+ rest)).
    cbn [split_lines]. apply negb_true_iff in Ha. rewrite Ha.
    by rewrite (IH Hb).
Qed.

Lemma split_lines_records (rs : list OutputRecord) :
  split_lines (concat_str (record_line <$> rs))
  = (fun r => Json.dumps (out_obj r)) <$> rs.
Proof.
  induction rs as [|r rs IH]; [reflexivity|].
  cbn [fmap list_fmap concat_str foldr]. unfold record_line at 1.
  rewrite string_app_assoc, split_lines_line by apply one_line_record.
  f_equal. exact IH.
Qed.

Lemma JStr_inj_list (l l' : list string) : JStr <$> l = JStr <$> l' -> l = l'.
Proof.
  revert l'. induction l as [|x l IH]; intros [|y l']; try discriminate.
  - reflexivity.
  - intros [= -> H]. f_equal. by apply IH.
Qed.

Lemma out_obj_inj (r r' : OutputRecord) : out_obj r = out_obj r' -> r = r'.
Proof.
  destruct r as [lg p t [z|] x u], r' as [lg' p' t' [z'|] x' u']; unfold out_obj.
  all: simpl; intros [=]; subst; try done.
  all: f_equal; by apply JStr_inj_list.
Qed.

(** X18.  A file made of the lines written for a list of records is read
    back as these records: split at its line feeds it gives one line per
    record, in order, and each line is parsed as the object of its record;
    two different records give two different objects. *)
Theorem jsonl_round_trip (rs : list OutputRecord) :
  JsonParse.loads <$> split_lines (concat_str (record_line <$> rs))
  = (fun r => Some (out_obj r)) <$> rs
  /\ (forall r r', out_obj r = out_obj r' -> r = r').
Proof.
  split; [|exact out_obj_inj].
  rewrite split_lines_records, <- list_fmap_compose.
  apply list_fmap_ext. intros i r _. simpl. apply loads_record.
Qed.

(* ================================================================= *)
(** * What a whole run requests and writes *)

Lemma crawl_trace_events (api_url lang : string) (l : list event) :
  crawl_trace api_url lang l -> Forall (crawl_event api_url lang) l.
Proof.
  induction 1 as [|params l _ IH|params a l _ IH|title l _ IH|path depth l _ IH
                  |r l Hl Hu _ IH].
  - constructor.
  - by constructor.
  - constructor; [done|]. constructor; [by destruct a|].
    constructor; [by left | exact IH].
  - by constructor.
  - by constructor.
  - constructor; [simpl; eauto|]. constructor; [by right | exact IH].
Qed.

Lemma fresh_crawl_events (s : session) (fuel : nat) (out_fh : string)
    (max_pages depth : nat) (lang cat : string) (w : world) :
  exists l,
    events w (fresh_crawl s fuel out_fh max_pages depth lang cat w).2
    = ENewSet (next_set w) :: l
    /\ Forall (crawl_event (mw_api_endpoint lang) lang) l.
Proof.
  unfold fresh_crawl.
  destruct (crawl_category_shape s (mw_api_endpoint lang) out_fh lang max_pages
              fuel depth cat None None w) as (l & E & Sh).
  exists l. split; [exact E | by apply crawl_trace_events].
Qed.

(** X19.  A run opens the output path, as the first thing it does, and no
    other file; all its requests go to the API endpoints of the languages it
    was asked for. *)
Theorem main_contacts_endpoints (s : session) (fuel : nat)
    (langs categories : list string) (outpath : string) (max_pages depth : nat)
    (w : world) :
  exists l,
    events w (main s fuel langs categories outpath max_pages depth w).2
    = EOpen outpath :: l
    /\ Forall (fun e =>
                 match e with
                 | EGet url _ => exists lang, lang ∈ langs /\ url = mw_api_endpoint lang
                 | EOpen _ => False
                 | _ => True
                 end) l.
Proof.
  apply main_events; try done.
  intros lang cat w1 Hl Hc.
  destruct (fresh_crawl_events s fuel outpath max_pages depth lang cat w1)
    as (l & -> & G).
  constructor; [done|].
  eapply Forall_impl; [exact G|].
  intros [] He; simpl in *; eauto.
Qed.

Lemma Forall_writes_events (good : string -> Prop) (l : list event) :
  Forall (fun e => match e with EWrite d => good d | _ => True end) l <->
  Forall good (writes l).
Proof.
  induction l as [|e l IH]; [split; constructor|].
  rewrite Forall_cons. destruct e; simpl; rewrite ?Forall_cons, IH; tauto.
Qed.

(** X20.  Every record a run writes carries one of the languages asked for;
    its [category_path] starts with one of the categories asked for and has
    at most [depth + 1] names, with no repetition; its [url] is made from its
    language and its title. *)
Theorem main_records (s : session) (fuel : nat)
    (langs categories : list string) (outpath : string) (max_pages depth : nat)
    (w : world) :
  Forall
    (fun d =>
       exists r,
         d = record_line r
         /\ r_lang r ∈ langs
         /\ (exists cat, cat ∈ categories /\ head (r_category_path r) = Some cat)
         /\ (length (r_category_path r) <= S depth)%nat
         /\ NoDup (r_category_path r)
         /\ r_url r = page_url (r_lang r) (r_title r))
    (writes (events w (main s fuel langs categories outpath max_pages depth w).2)).
Proof.
  set (good := fun d =>
       exists r,
         d = record_line r
         /\ r_lang r ∈ langs
         /\ (exists cat, cat ∈ categories /\ head (r_category_path r) = Some cat)
         /\ (length (r_category_path r) <= S depth)%nat
         /\ NoDup (r_category_path r)
         /\ r_url r = page_url (r_lang r) (r_title r)).
  destruct (main_events
              (fun e => match e with EWrite d => good d | _ => True end)
              s fuel langs categories outpath max_pages depth w)
    as (l & -> & G); try done.
  - intros lang cat w1 Hl Hc. unfold fresh_crawl.
    destruct (crawl_category_events s (mw_api_endpoint lang) outpath lang
                max_pages
                (fun e => match e with EWrite d => good d | _ => True end)
                (fun p d => head p = Some cat
                            /\ (length p + d = 1 + depth)%nat /\ NoDup p))
      with (fuel := fuel) (depth := depth) (category := cat)
           (seen_pages := @None nat) (category_path := @None (list string))
           (w := w1) as [G _]; try done.
    + intros [] He; try done.
    + intros path d pid i t (P1 & P2 & P3) _ _ _. eexists.
      split; [reflexivity|]. simpl. repeat split; eauto. lia.
    + intros path d sub (P1 & P2 & P3) Hsub. split; [|split].
      * destruct path; [discriminate | exact P1].
      * rewrite length_app. simpl. lia.
      * by apply NoDup_snoc.
    + split; [reflexivity|]. split; [simpl; lia | apply NoDup_singleton].
  - simpl. by apply Forall_writes_events.
Qed.

Lemma record_lines (l : list string) :
  Forall (fun d => exists r, d = record_line r) l ->
  exists rs, l = record_line <$> rs.
Proof.
  induction 1 as [|d l [r ->] _ [rs ->]]; [by exists []|].
  by exists (r :: rs).
Qed.

(** X21.  When a run has ended, the output file is made of the lines of
    the records written, in the order in which they were written: read line
    by line, it gives the object of one record per line. *)
Theorem main_output_reads_back (s : session) (fuel : nat)
    (langs categories : list string) (outpath : string) (max_pages depth : nat)
    (w : world) :
  (main s fuel langs categories outpath max_pages depth w).1 = Ok tt ->
  exists rs content,
    writes (events w (main s fuel langs categories outpath max_pages depth w).2)
    = record_line <$> rs
    /\ files (main s fuel langs categories outpath max_pages depth w).2 !! outpath
       = Some content
    /\ JsonParse.loads <$> split_lines content = (fun r => Some (out_obj r)) <$> rs.
Proof.
  intros _.
  destruct (main_events (fun e => match e with
                                  | EWrite d => exists r, d = record_line r
                                  | _ => True
                                  end)
              s fuel langs categories outpath max_pages depth w)
    as (l & E & G); try done.
  { intros lang cat w1 _ _.
    destruct (fresh_crawl_events s fuel outpath max_pages depth lang cat w1)
      as (l & -> & G).
    constructor; [done|]. eapply Forall_impl; [exact G|].
    intros [] He; simpl in *; try done. destruct He as (r & -> & _). eauto. }
  apply Forall_writes_events, record_lines in G as [rs Hrs].
  pose proof (main_driver s fuel langs categories outpath max_pages depth w) as D.
  destruct (driver_run_effects _ _ _ _ _ _ _ _ _ D) as (l' & Tr & _ & Fi).
  simpl in Tr. rewrite <- app_assoc in Tr.
  rewrite (events_app _ _ _ Tr) in E. injection E as ->.
  specialize (Fi EmptyString). simpl in Fi. rewrite lookup_insert_eq in Fi.
  specialize (Fi eq_refl).
  exists rs, (concat_str (record_line <$> rs)).
  rewrite (events_app _ _ _ Tr). simpl. rewrite Fi, Hrs.
  split; [reflexivity|]. split; [reflexivity|].
  rewrite split_lines_records, <- list_fmap_compose.
  apply list_fmap_ext. intros i r _. simpl. apply loads_record.
Qed.

(** The run over Physics and Mathematics in the small encyclopedia ends,
    and its file reads back as the records it wrote. *)
Lemma main_output_reads_back_witness :
  exists rs content,
    writes (events w0
              (main wiki 9 ["en"] ["Physics"; "Mathematics"] "out.jsonl" 20 1 w0).2)
    = record_line <$> rs
    /\ files (main wiki 9 ["en"] ["Physics"; "Mathematics"] "out.jsonl" 20 1 w0).2
       !! "out.jsonl"
       = Some content
    /\ JsonParse.loads <$> split_lines content = (fun r => Some (out_obj r)) <$> rs.
Proof.
  apply (main_output_reads_back wiki 9 ["en"] ["Physics"; "Mathematics"]
           "out.jsonl" 20 1 w0).
  reflexivity.
Defined.

Lemma driver_run_within_bound (s : session) (fuel : nat) (out_fh : string)
    (max_pages depth : nat) (ps : list (string * string)) (w w' : world)
    (r : result unit) :
  driver_run (fresh_crawl s fuel out_fh max_pages depth) ps w r w' ->
  exists l,
    trace w' = trace w ++ l
    /\ (length (writes l) <= max_pages * entered l)%nat
    /\ (depth = O -> (length (writes l) <= length ps * max_pages)%nat).
Proof.
  assert (Hpair : forall lang cat w1,
            exists l,
              trace (fresh_crawl s fuel out_fh max_pages depth lang cat w1).2
              = trace w1 ++ l
              /\ (length (writes l) <= max_pages * entered l)%nat
              /\ (depth = O -> (length (writes l) <= max_pages)%nat)).
  { intros lang cat w1. unfold fresh_crawl. rewrite crawl_category_top.
    destruct (crawl_category_within_bound s (mw_api_endpoint lang) out_fh lang
                max_pages fuel depth cat (next_set w1) [cat] (new_set w1).2)
      as (l & Tr & Wl).
    exists (ENewSet (next_set w1) :: l). split; [|split].
    - rewrite Tr. simpl. by rewrite <- app_assoc.
    - exact Wl.
    - intros ->.
      destruct (crawl_category_leaf s (mw_api_endpoint lang) out_fh lang
                  max_pages fuel cat (next_set w1) [cat] (new_set w1).2)
        as (lp & Tp & Ep & Wp).
      rewrite Tr in Tp. apply app_inv_head in Tp as ->. exact Wp. }
  induction 1 as [w|lang cat ps w w1 r w2 E _ IH|lang cat ps w e w1 r w2 E _ IH
                  |lang cat ps w w1 E].
  - exists []. rewrite app_nil_r. simpl. repeat split; lia.
  - destruct (Hpair lang cat w) as (l1 & T1 & W1 & B1). rewrite E in T1.
    destruct IH as (l2 & T2 & W2 & B2).
    exists (l1 ++ l2). split; [|split].
    + rewrite T2. simpl in T1. rewrite T1. by rewrite app_assoc.
    + rewrite writes_app, length_app, entered_app. lia.
    + intros Hd. specialize (B1 Hd). specialize (B2 Hd).
      rewrite writes_app, length_app. simpl. lia.
  - destruct (Hpair lang cat w) as (l1 & T1 & W1 & B1). rewrite E in T1.
    destruct IH as (l2 & T2 & W2 & B2).
    exists (l1 ++ [EPrint (LogCrawlError lang cat e); ESleep RETRY_WAIT] ++ l2).
    split; [|split].
    + rewrite T2. simpl in *. rewrite T1. by rewrite <- !app_assoc.
    + rewrite !writes_app, !length_app, !entered_app. simpl. lia.
    + intros Hd. specialize (B1 Hd). specialize (B2 Hd).
      rewrite !writes_app, !length_app. simpl. lia.
  - destruct (Hpair lang cat w) as (l1 & T1 & W1 & B1). rewrite E in T1.
    exists l1. split; [exact T1|]. split; [exact W1|].
    intros Hd. specialize (B1 Hd). simpl. lia.
Qed.

(** X22.  A run writes at most [max_pages] records for each category it
    enters.  With [depth = 0] the output file gets at most as many lines as
    there are languages, times categories, times [max_pages]. *)
Theorem main_record_bound (s : session) (fuel : nat)
    (langs categories : list string) (outpath : string) (max_pages depth : nat)
    (w : world) :
  let l := events w (main s fuel langs categories outpath max_pages depth w).2 in
  (length (writes l) <= max_pages * entered l)%nat
  /\ (depth = O ->
      (length (writes l) <= length langs * length categories * max_pages)%nat).
Proof.
  intros l. subst l.
  pose proof (main_driver s fuel langs categories outpath max_pages depth w) as D.
  apply driver_run_within_bound in D as (l & Tr & Wl & Bl).
  simpl in Tr. rewrite <- app_assoc in Tr.
  rewrite (events_app _ _ _ Tr). simpl.
  split; [exact Wl|]. intros Hd. rewrite <- all_pairs_length. by apply Bl.
Qed.

(* ================================================================= *)
(** * A run with nothing to crawl *)

Lemma for_each_nothing {A} (l : list A) (w : world) :
  for_each l (fun _ => ret tt) w = (Ok tt, w).
Proof.
  induction l as [|x l IH]; [reflexivity|]. simpl. unfold bind. simpl. exact IH.
Qed.

(** X23.  With no language or no category, the run only opens the output
    file, which is left empty whatever it held before, and ends: no request is
    sent and nothing is printed. *)
Theorem main_nothing_to_crawl (s : session) (fuel : nat)
    (langs categories : list string) (outpath : string) (max_pages depth : nat)
    (w : world) :
  langs = [] \/ categories = [] ->
  main s fuel langs categories outpath max_pages depth w
  = (Ok tt, (open_w outpath w).2)
  /\ events w (main s fuel langs categories outpath max_pages depth w).2
     = [EOpen outpath]
  /\ files (main s fuel langs categories outpath max_pages depth w).2 !! outpath
     = Some EmptyString.
Proof.
  intros H.
  assert (E : main s fuel langs categories outpath max_pages depth w
              = (Ok tt, (open_w outpath w).2)).
  { unfold main, bind. simpl. destruct H as [-> | ->]; [reflexivity|].
    simpl. apply for_each_nothing. }
  rewrite E. split; [reflexivity|]. split.
  - by apply events_app.
  - simpl. apply lookup_insert_eq.
Qed.

(** Two languages and no category. *)
Lemma main_nothing_to_crawl_witness :
  main wiki 9 ["en"; "sr"] [] "out.jsonl" 20 1 w0
  = (Ok tt, (open_w "out.jsonl" w0).2).
Proof.
  apply (main_nothing_to_crawl wiki 9 ["en"; "sr"] [] "out.jsonl" 20 1 w0).
  by right.
Defined.

(* ================================================================= *)
(** * An enumeration that does not end *)

Section Endless.

Variable s : session.
Variable api_url : string.
Hypothesis Hs : endless s.

Lemma gen_next_endless (fuel : nat) params cont (w : world) :
  exists sent,
    (gen_next fuel s api_url (Generator params [] (Some cont)) w).1 = Diverge
    /\ trace (gen_next fuel s api_url (Generator params [] (Some cont)) w).2
       = trace w ++ (EGet api_url <$> sent)
    /\ length sent = fuel.
Proof.
  revert params cont w. induction fuel as [|fuel IH]; intros params cont w.
  { exists []. simpl. by rewrite app_nil_r. }
  rewrite gen_next_refill.
  destruct (Hs (clock w) api_url (cont ∪ params)) as (data & Hd & Hm & [c Hc]).
  rewrite (api_get_first s api_url _ w data Hd), Hm, Hc.
  destruct (IH (cont ∪ params) c (session_get s api_url (cont ∪ params) w).2)
    as (sent & R & Tr & Hlen).
  exists ((cont ∪ params) :: sent). split; [exact R|]. split.
  - rewrite Tr. simpl. by rewrite <- app_assoc.
  - simpl. by rewrite Hlen.
Qed.

Lemma crawl_members_endless (out_fh lang : string) (max_pages_per_cat : nat)
    (fuel seen : nat) path params cont (count : nat) (w : world) :
  exists sent,
    (crawl_members s api_url out_fh lang max_pages_per_cat fuel seen path
       (Generator params [] (Some cont)) count w).1 = Diverge
    /\ trace (crawl_members s api_url out_fh lang max_pages_per_cat fuel seen path
                (Generator params [] (Some cont)) count w).2
       = trace w ++ (EGet api_url <$> sent)
    /\ length sent = pred fuel.
Proof.
  destruct fuel as [|fuel]; [exists []; simpl; by rewrite app_nil_r|].
  rewrite crawl_members_S.
  destruct (gen_next_endless fuel params cont w) as (sent & R & Tr & Hlen).
  exists sent.
  destruct (gen_next fuel s api_url (Generator params [] (Some cont)) w)
    as [[x|e|] w1]; simpl in R; try discriminate. by repeat split.
Qed.

Lemma crawl_category_endless (out_fh lang : string) (max_pages_per_cat : nat)
    (fuel depth : nat) category (seen : nat) path (w : world) :
  exists sent,
    (crawl_category s api_url out_fh lang max_pages_per_cat fuel depth category
       (Some seen) (Some path) w).1 = Diverge
    /\ trace (crawl_category s api_url out_fh lang max_pages_per_cat fuel depth
                category (Some seen) (Some path) w).2
       = trace w
         ++ EPrint (LogCrawling lang path depth) :: (EGet api_url <$> sent)
    /\ length sent = pred fuel.
Proof.
  rewrite crawl_category_eq.
  set (w1 := (print (LogCrawling lang path depth) w).2).
  destruct (crawl_members_endless out_fh lang max_pages_per_cat fuel seen path
              (g_params (get_category_members category "page" 500)) ∅ O w1)
    as (sent & R & Tr & Hlen).
  change (Generator (g_params (get_category_members category "page" 500))
            [] (Some ∅))
    with (get_category_members category "page" 500) in R, Tr.
  fold (crawl_pages s api_url out_fh lang max_pages_per_cat fuel category
          seen path w1) in R, Tr.
  exists sent.
  destruct (crawl_pages s api_url out_fh lang max_pages_per_cat fuel category
              seen path w1) as [[[]|e|] w2]; simpl in R; try discriminate.
  split; [reflexivity|]. split; [|exact Hlen].
  simpl in *. rewrite Tr, <- app_assoc. reflexivity.
Qed.

End Endless.

(** X4.  The enumerator puts no bound on the number of rounds: when every
    answer comes with a continuation token and no member, it sends request
    after request and neither yields nor returns, however many rounds it is
    given; the crawl of a category that meets such a listing does not end
    either. *)
Theorem enumeration_never_ends (s : session) (api_url : string)
    (category cmtype : string) (limit : Z) (out_fh lang : string)
    (max_pages_per_cat depth : nat) (seen_pages : option nat)
    (category_path : option (list string)) (fuel : nat) (w : world) :
  endless s ->
  (gen_next fuel s api_url (get_category_members category cmtype limit) w).1
  = Diverge
  /\ length (requests
               (events w
                  (gen_next fuel s api_url
                     (get_category_members category cmtype limit) w).2))
     = fuel
  /\ (gen_list fuel s api_url (get_category_members category cmtype limit) w).1
     = Diverge
  /\ (crawl_category s api_url out_fh lang max_pages_per_cat fuel depth category
        seen_pages category_path w).1 = Diverge.
Proof.
  intros Hs. unfold get_category_members.
  match goal with |- context [Generator ?p [] (Some ∅)] => set (params := p) end.
  destruct (gen_next_endless s api_url Hs fuel params ∅ w)
    as (sent & R & Tr & Hlen).
  split; [exact R|]. split; [|split].
  - by rewrite (events_app _ _ _ Tr), requests_gets, length_fmap.
  - destruct fuel as [|fuel]; [reflexivity|].
    rewrite gen_list_S.
    destruct (gen_next_endless s api_url Hs fuel params ∅ w) as (sent' & R' & _).
    destruct (gen_next fuel s api_url (Generator params [] (Some ∅)) w)
      as [[x|e|] w1]; simpl in R'; try discriminate.
    reflexivity.
  - rewrite crawl_category_resolved.
    by destruct (crawl_category_endless s api_url Hs out_fh lang
                   max_pages_per_cat fuel depth category
                   (resolved_set seen_pages w)
                   (resolved_path category category_path)
                   (resolved_world seen_pages w)) as (? & ? & _).
Qed.

Lemma more_to_come_endless : endless more_to_come.
Proof. intros c url params. eexists. repeat split; eauto. Qed.

(** Fifty rounds of a listing that always has more to come. *)
Lemma enumeration_never_ends_witness :
  (gen_list 50 more_to_come en_api (get_category_members "Physics" "page" 500) w0).1
  = Diverge.
Proof.
  apply (enumeration_never_ends more_to_come en_api "Physics" "page" 500
           "out.jsonl" "en" 20 1 None None 50 w0).
  exact more_to_come_endless.
Defined.

(** X24.  A run is stuck in the first pair it crawls when the remote side
    keeps answering with empty batches and continuation tokens: it opens the
    file, announces the first category and then only sends requests for the
    listing of that category, without end; no record is written and the
    other pairs are never reached. *)
Theorem main_never_ends (s : session) (fuel : nat)
    (lang : string) (langs : list string) (cat : string) (cats : list string)
    (outpath : string) (max_pages depth : nat) (w : world) :
  endless s ->
  exists sent,
    (main s fuel (lang :: langs) (cat :: cats) outpath max_pages depth w).1
    = Diverge
    /\ events w
         (main s fuel (lang :: langs) (cat :: cats) outpath max_pages depth w).2
       = EOpen outpath :: ENewSet (next_set w)
         :: EPrint (LogCrawling lang [cat] depth)
         :: (EGet (mw_api_endpoint lang) <$> sent)
    /\ length sent = pred fuel.
Proof.
  intros Hs.
  assert (E : exists w2 sent,
             main s fuel (lang :: langs) (cat :: cats) outpath max_pages depth w
             = (Diverge, w2)
             /\ trace w2
                = trace w
                  ++ EOpen outpath :: ENewSet (next_set w)
                     :: EPrint (LogCrawling lang [cat] depth)
                     :: (EGet (mw_api_endpoint lang) <$> sent)
             /\ length sent = pred fuel).
  { unfold main, bind. cbn [open_w fst snd for_each]. unfold bind.
    rewrite crawl_pair_cases. unfold fresh_crawl. rewrite crawl_category_top.
    match goal with
    |- context [crawl_category ?s0 ?u ?o ?lg ?mx ?f ?d ?c (Some ?r) (Some ?p) ?w1] =>
      destruct (crawl_category_endless s0 u Hs o lg mx f d c r p w1)
        as (sent & R & Tr & Hlen);
      destruct (crawl_category s0 u o lg mx f d c (Some r) (Some p) w1)
        as [[[]|e|] w2]
    end; simpl in R; try discriminate.
    exists w2, sent. split; [reflexivity|]. split; [|exact Hlen].
    simpl in Tr. rewrite Tr, <- !app_assoc. reflexivity. }
  destruct E as (w2 & sent & -> & Tr & Hlen).
  exists sent. split; [reflexivity|]. split; [|exact Hlen].
  by apply events_app.
Qed.

(** A run over two languages, stuck in the first: its eight requests all go
    to the English endpoint. *)
Lemma main_never_ends_witness :
  exists sent,
    (main more_to_come 9 ["en"; "sr"] ["Physics"] "out.jsonl" 20 1 w0).1 = Diverge
    /\ events w0
         (main more_to_come 9 ["en"; "sr"] ["Physics"] "out.jsonl" 20 1 w0).2
       = EOpen "out.jsonl" :: ENewSet O
         :: EPrint (LogCrawling "en" ["Physics"] 1)
         :: (EGet (mw_api_endpoint "en") <$> sent)
    /\ length sent = 8%nat.
Proof.
  apply (main_never_ends more_to_come 9 "en" ["sr"] "Physics" [] "out.jsonl"
           20 1 w0).
  exact more_to_come_endless.
Defined.

(* ================================================================= *)
(** * The query of an enumeration *)

Lemma paged_params_stable (k : string) (bodies : list body) (base : dict)
    (v : option qval) :
  (forall c, c ∈ tokens bodies -> c !! k = None) ->
  base !! k = v ->
  Forall (fun p => p !! k = v) (paged_params base bodies).
Proof.
  revert base. induction bodies as [|b bs IH]; intros base Hk Hb; [constructor|].
  simpl. constructor; [exact Hb|]. apply IH.
  - intros c Hc. apply Hk. unfold tokens in *. simpl.
    destruct (b_continue b); [by right | exact Hc].
  - destruct (b_continue b) as [c|] eqn:Hc; simpl.
    + rewrite lookup_union_r; [exact Hb|]. apply Hk. unfold tokens. simpl.
      rewrite Hc. by left.
    + by rewrite (left_id_L ∅ (∪)).
Qed.

(** X3.  All the requests of an enumeration go to [api_url], and a
    parameter that no continuation token mentions keeps, in every request,
    the value the enumeration started with: the requests ask for the same
    category title, the same kind of members and the same limit from the
    first to the last, unless a token of the remote side says otherwise. *)
Theorem enumeration_keeps_query (s : session) (api_url : string)
    (category cmtype : string) (limit : Z) (bodies : list body) (fuel : nat)
    (w : world) (k : string) :
  paged bodies = true ->
  serves s (clock w) bodies ->
  (enough_fuel bodies <= fuel)%nat ->
  (forall c, c ∈ tokens bodies -> c !! k = None) ->
  Forall
    (fun request =>
       request.1 = api_url
       /\ request.2 !! k
          = g_params (get_category_members category cmtype limit) !! k)
    (requests
       (events w
          (gen_list fuel s api_url
             (get_category_members category cmtype limit) w).2)).
Proof.
  intros Hp Hs Hfuel Hk. unfold get_category_members.
  match goal with |- context [Generator ?p [] (Some ∅)] => set (params := p) end.
  destruct (gen_list_paged s api_url bodies params ∅ w Hp Hs)
    as (w' & Hrun & _ & Htrace).
  rewrite (gen_list_mono_le s api_url _ _ _ _ Hfuel);
    rewrite Hrun; [|discriminate].
  simpl snd. rewrite (events_app _ _ _ Htrace), requests_gets.
  rewrite (left_id_L ∅ (∪)). apply Forall_fmap.
  eapply Forall_impl; [by apply (paged_params_stable k bodies params)|].
  intros p Hp'. by split.
Qed.

(** The listing in two batches: both requests ask for the category Physics. *)
Lemma enumeration_keeps_query_witness :
  Forall
    (fun request =>
       request.1 = en_api
       /\ request.2 !! "cmtitle" = Some (QStr "Category:Physics"))
    (requests
       (events w0
          (gen_list 6 paging en_api
             (get_category_members "Physics" "page" 500) w0).2)).
Proof.
  apply (enumeration_keeps_query paging en_api "Physics" "page" 500
           two_batches 6 w0 "cmtitle").
  - reflexivity.
  - intros [|[|k]] b url params; simpl; intros [= <-]; reflexivity.
  - unfold enough_fuel. simpl. lia.
  - intros c Hc. apply list_elem_of_singleton in Hc as ->. reflexivity.
Defined.

(* ================================================================= *)
(** * A listing that cannot be fetched *)

(** X7.  When the three attempts to fetch the listing of the pages of a
    category fail, the error is not caught in the crawl: the call of
    [crawl_category] raises the error of [api_get], after the line that
    announces the category and the three requests, and nothing is written. *)
Theorem crawl_category_listing_failure (s : session)
    (api_url out_fh lang : string) (max_pages_per_cat fuel depth : nat)
    (category : string) (seen_pages : option nat)
    (category_path : option (list string)) (w : world) :
  (2 <= fuel)%nat ->
  (forall j params, (j < 3)%nat ->
     succeeded (s (clock w + j)%nat api_url params) = None) ->
  let run := crawl_category s api_url out_fh lang max_pages_per_cat
               fuel depth category seen_pages category_path w in
  run.1 = Raise (fetch_failed api_url)
  /\ length (requests (events w run.2)) = 3%nat
  /\ entered (events w run.2) = 1%nat
  /\ writes (events w run.2) = []
  /\ files run.2 = files w.
Proof.
  intros Hfuel Hdown run. subst run.
  destruct fuel as [|[|fuel]]; try lia.
  rewrite crawl_category_resolved, crawl_category_eq.
  set (seen := resolved_set seen_pages w).
  set (path := resolved_path category category_path).
  set (w1 := (print (LogCrawling lang path depth) (resolved_world seen_pages w)).2).
  assert (H1 : clock w1 = clock w /\ files w1 = files w
               /\ exists l0, trace w1 = trace w ++ l0
                             /\ requests l0 = [] /\ writes l0 = []
                             /\ entered l0 = 1%nat).
  { subst w1. destruct seen_pages; simpl.
    - repeat split. by eexists [_].
    - repeat split. eexists [_; _]. by rewrite <- app_assoc. }
  destruct H1 as (C1 & F1 & l0 & T1 & R0 & W0 & E0).
  assert (Hp : exists w2 l,
             crawl_pages s api_url out_fh lang max_pages_per_cat
               (S (S fuel)) category seen path w1
             = (Raise (fetch_failed api_url), w2)
             /\ trace w2 = trace w1 ++ l
             /\ length (requests l) = 3%nat /\ writes l = [] /\ entered l = O
             /\ files w2 = files w1).
  { unfold crawl_pages. rewrite crawl_members_S.
    unfold get_category_members at 1. rewrite gen_next_refill.
    match goal with |- context [api_get s api_url ?p w1] =>
      destruct (api_get_exhausted s api_url p w1)
        as (w2 & l & -> & Tr & Rq & Wr & En & C & Qs & Qn & Qf)
    end.
    { intros j Hj. rewrite C1. by apply Hdown. }
    by exists w2, l. }
  destruct Hp as (w2 & l & -> & Tr & Rq & Wr & En & Qf).
  cbn [fst snd].
  rewrite (events_app w w2 (l0 ++ l)) by (rewrite Tr, T1; by rewrite app_assoc).
  rewrite requests_app, writes_app, entered_app, R0, W0, E0, Wr, En, Qf, F1.
  by repeat split.
Qed.

(** The service is down when the crawl of Physics starts. *)
Lemma crawl_category_listing_failure_witness :
  (crawl_category down en_api "out.jsonl" "en" 20 9 1 "Physics" None None w0).1
  = Raise (fetch_failed en_api).
Proof.
  apply (crawl_category_listing_failure down en_api "out.jsonl" "en" 20 9 1
           "Physics" None None w0).
  - lia.
  - reflexivity.
Defined.

(* ================================================================= *)
(** * Names of subcategories and addresses of pages *)

Lemma prefix_nil (s : string) : String.prefix EmptyString s = true.
Proof. by destruct s. Qed.

Lemma prefix_head (x s : string) : String.prefix x (x +:+ s) = true.
Proof.
  induction x as [|c x IH]; [apply prefix_nil|].
  change (String c x +:+ s) with (String c (x +:+ s)). simpl.
  destruct (ascii_dec c c); [exact IH | done].
Qed.

Lemma replace_from_skip (old new x s : string) :
  PyStr.replace_from old new (String.length x) (x +:+ s)
  = PyStr.replace_from old new O s.
Proof.
  induction x as [|c x IH]; [reflexivity|].
  change (String c x +:+ s) with (String c (x +:+ s)). exact IH.
Qed.

(** An occurrence at the head is replaced and the search goes on behind it. *)
Lemma replace_head (c : ascii) (old new s : string) :
  PyStr.replace (String c old) new (String c old +:+ s)
  = new +:+ PyStr.replace (String c old) new s.
Proof.
  unfold PyStr.replace.
  change (String c old +:+ s) with (String c (old +:+ s)).
  cbn [PyStr.replace_from].
  change (String c (old +:+ s)) with (String c old +:+ s).
  rewrite prefix_head.
  change (String.length (String c old) - 1)%nat with (String.length old - 0)%nat.
  rewrite Nat.sub_0_r, replace_from_skip. reflexivity.
Qed.

(** Where [old] does not occur nothing is replaced. *)
Lemma replace_absent (old new s : string) :
  occurs old s = false -> PyStr.replace old new s = s.
Proof.
  unfold PyStr.replace. induction s as [|c s IH]; [reflexivity|].
  cbn [occurs PyStr.replace_from]. intros [H1 H2]%orb_false_elim.
  rewrite H1, (IH H2). reflexivity.
Qed.

(** X15.  For a member whose title is the prefix ["Category:"] followed by
    a name in which ["Category:"] does not occur, the name the crawl goes
    down with is that name, the title with its prefix taken off, and the
    listing it then asks for is the one of the title.  A title in which
    ["Category:"] does not occur at all, such as one with the prefix of
    another language, is taken as it is, and the listing asked for is the one
    of the title with ["Category:"] put before it. *)
Theorem subcategory_name_round_trip (name cmtype : string) (limit : Z) :
  occurs "Category:" name = false ->
  PyStr.replace "Category:" EmptyString ("Category:" +:+ name) = name
  /\ strip_category_prefix ("Category:" +:+ name) = name
  /\ g_params
       (get_category_members
          (PyStr.replace "Category:" EmptyString ("Category:" +:+ name))
          cmtype limit) !! "cmtitle"
     = Some (QStr ("Category:" +:+ name))
  /\ PyStr.replace "Category:" EmptyString name = name
  /\ g_params
       (get_category_members (PyStr.replace "Category:" EmptyString name)
          cmtype limit) !! "cmtitle"
     = Some (QStr ("Category:" +:+ name)).
Proof.
  intros H.
  assert (E : PyStr.replace "Category:" EmptyString ("Category:" +:+ name) = name).
  { rewrite (replace_head "C" "ategory:" EmptyString name).
    by rewrite (replace_absent _ _ _ H). }
  rewrite E, (replace_absent _ _ _ H).
  split; [reflexivity|]. split; [|by repeat split].
  unfold strip_category_prefix. rewrite prefix_head. reflexivity.
Qed.

(** The subcategory Astrophysics of the small encyclopedia. *)
Lemma subcategory_name_round_trip_witness :
  PyStr.replace "Category:" EmptyString ("Category:" +:+ "Astrophysics")
  = "Astrophysics".
Proof.
  apply (subcategory_name_round_trip "Astrophysics" "subcat" 500). reflexivity.
Defined.

Lemma all_bytes_app (f : ascii -> bool) (a b : string) :
  all_bytes f (a +:+ b) = all_bytes f a && all_bytes f b.
Proof.
  induction a as [|c a IH]; [reflexivity|].
  change (String c a +:+ b) with (String c (a +:+ b)). simpl.
  by rewrite IH, andb_assoc.
Qed.

Lemma quote_byte_url (a : ascii) : all_bytes url_byte (PyStr.quote_byte a) = true.
Proof. destruct a as [[] [] [] [] [] [] [] []]; reflexivity. Qed.

Lemma quote_url (x : string) : all_bytes url_byte (PyStr.quote x) = true.
Proof.
  induction x as [|a x IH]; [reflexivity|].
  cbn [PyStr.quote]. by rewrite all_bytes_app, quote_byte_url, IH.
Qed.

Lemma quote_safe (x : string) :
  all_bytes PyStr.is_safe x = true -> PyStr.quote x = x.
Proof.
  induction x as [|a x IH]; [reflexivity|].
  simpl. intros [Ha Hx]%andb_prop. unfold PyStr.quote_byte.
  rewrite Ha, (IH Hx). reflexivity.
Qed.

Lemma replace_space_step (a : ascii) (x : string) :
  PyStr.replace " " "_" (String a x)
  = String (if is_space a then "_"%char else a) (PyStr.replace " " "_" x).
Proof.
  unfold PyStr.replace. cbn [PyStr.replace_from String.prefix].
  destruct (ascii_dec " " a) as [<-|Hne].
  - rewrite prefix_nil. reflexivity.
  - replace (is_space a) with false; [reflexivity|].
    symmetry. apply N.eqb_neq. intros H. apply Hne.
    rewrite <- (ascii_N_embedding a). unfold PyStr.code in H. by rewrite H.
Qed.

Lemma replace_space_safe (x : string) :
  all_bytes (fun a => PyStr.is_safe a || is_space a) x = true ->
  all_bytes PyStr.is_safe (PyStr.replace " " "_" x) = true.
Proof.
  induction x as [|a x IH]; [reflexivity|].
  rewrite replace_space_step. simpl. intros [Ha Hx]%andb_prop.
  rewrite (IH Hx), andb_true_r.
  destruct (is_space a); [reflexivity|]. by rewrite orb_false_r in Ha.
Qed.

Lemma replace_space_length (x : string) :
  String.length (PyStr.replace " " "_" x) = String.length x.
Proof.
  induction x as [|a x IH]; [reflexivity|].
  rewrite replace_space_step. simpl. by rewrite IH.
Qed.

Lemma replace_space_no_space (x : string) :
  all_bytes (fun a => negb (is_space a)) (PyStr.replace " " "_" x) = true.
Proof.
  induction x as [|a x IH]; [reflexivity|].
  rewrite replace_space_step. simpl. rewrite IH, andb_true_r.
  by destruct (is_space a) eqn:E; [|rewrite E].
Qed.

(** X16.  The address of a page is the address of the wiki of the language
    followed by the title with its spaces turned into underscores and then
    percent-encoded: what follows the address of the wiki is made of ASCII
    letters, digits, the marks [_.-~/] and percent escapes only, and holds
    no escape of a space.  A title made of such letters, digits, marks and
    spaces only is written as it is but for the underscores. *)
Theorem page_url_bytes (lang title : string) :
  page_url lang title
  = "https://" +:+ lang +:+ ".wikipedia.org/wiki/"
    +:+ PyStr.quote (PyStr.replace " " "_" title)
  /\ all_bytes url_byte (PyStr.quote (PyStr.replace " " "_" title)) = true
  /\ all_bytes (fun a => negb (is_space a)) (PyStr.replace " " "_" title) = true
  /\ String.length (PyStr.replace " " "_" title) = String.length title
  /\ (all_bytes (fun a => PyStr.is_safe a || is_space a) title = true ->
      PyStr.quote (PyStr.replace " " "_" title) = PyStr.replace " " "_" title).
Proof.
  split; [reflexivity|]. split; [apply quote_url|].
  split; [apply replace_space_no_space|]. split; [apply replace_space_length|].
  intros H. by apply quote_safe, replace_space_safe.
Qed.

(* ================================================================= *)
(** * What a crawl leaves untouched *)

Section Frame.

Variable s : session.
Variable api_url out_fh lang : string.
Variable max_pages_per_cat : nat.
Variable seen : nat.

Lemma framed_quiet (w w' : world) (b : bool) :
  quiet w w' -> framed out_fh seen w b w'.
Proof.
  intros [Qs Qn Qf _]. unfold framed. rewrite Qs, Qn, Qf. by repeat split.
Qed.

Lemma framed_seq (w w1 w2 : world) (b1 b2 b : bool) :
  framed out_fh seen w b1 w1 -> framed out_fh seen w1 b2 w2 ->
  framed out_fh seen w b w2.
Proof.
  intros (S1 & G1 & N1 & F1 & D1) (S2 & G2 & N2 & F2 & D2).
  split; [|split; [|split; [|split]]].
  - intros i Hi. by rewrite S2, S1.
  - set_solver.
  - congruence.
  - intros path Hp. by rewrite F2, F1.
  - congruence.
Qed.

Lemma frame_tree_invariant :
  tree_invariant s api_url out_fh lang max_pages_per_cat seen
    (framed out_fh seen) (fun _ _ => True).
Proof.
  split.
  - intros w. apply framed_quiet, quiet_refl.
  - intros w w1 w2 b. apply (framed_seq w w1 w2 true b b).
  - apply framed_quiet.
  - intros path depth count m w _.
    destruct (crawl_member s api_url out_fh lang max_pages_per_cat
                seen path count m w) as [res w'] eqn:E.
    apply crawl_member_cases in E
      as [[Q _]|(w1 & i & _ & _ & Hget & _ & Hcase)]; simpl.
    { by apply framed_quiet. }
    assert (Q : quiet w w1).
    { pose proof (get_page_extract_quiet s api_url (Some (m_pageid m)) None w)
        as Q. by rewrite Hget in Q. }
    eapply (framed_seq _ _ _ true true); [by apply framed_quiet|].
    destruct Hcase as [(t & Ht & -> & ->)|(Ht & _ & ->)]; simpl.
    + split; [|split; [|split; [|split]]]; simpl.
      * intros j Hj. by rewrite decide_False.
      * rewrite decide_True by done. set_solver.
      * reflexivity.
      * intros p Hp. by rewrite lookup_alter_ne.
      * apply dom_alter_L.
    + split; [|split; [|split; [|split]]]; simpl; try done.
      * intros j Hj. by rewrite decide_False.
      * rewrite decide_True by done. set_solver.
  - intros path depth w _. by repeat split.
  - done.
Qed.

End Frame.

(** X17.  A crawl that is given its set of seen pages changes nothing but
    this set, which only grows, and the output file: every other set and
    every other file is as before, no set and no file is created. *)
Theorem crawl_category_frame (s : session) (api_url out_fh lang : string)
    (max_pages_per_cat fuel depth : nat) (category : string) (seen : nat)
    (category_path : option (list string)) (w : world) :
  let run := crawl_category s api_url out_fh lang max_pages_per_cat
               fuel depth category (Some seen) category_path w in
  (forall i, i <> seen -> sets run.2 i = sets w i)
  /\ sets w seen ⊆ sets run.2 seen
  /\ next_set run.2 = next_set w
  /\ (forall path, path <> out_fh -> files run.2 !! path = files w !! path)
  /\ dom (files run.2) = dom (files w).
Proof.
  intros run. subst run. rewrite crawl_category_resolved.
  exact (crawl_category_sat _ _ _ _ _ _ _ _
           (frame_tree_invariant s api_url out_fh lang max_pages_per_cat seen)
           fuel depth category (resolved_path category category_path) w I).
Qed.

Lemma driver_run_frame (s : session) (fuel : nat) (out_fh : string)
    (max_pages depth : nat) (ps : list (string * string)) (w w' : world)
    (r : result unit) :
  driver_run (fresh_crawl s fuel out_fh max_pages depth) ps w r w' ->
  (forall i, (i < next_set w)%nat -> sets w' i = sets w i)
  /\ (next_set w <= next_set w')%nat
  /\ (forall path, path <> out_fh -> files w' !! path = files w !! path)
  /\ dom (files w') = dom (files w).
Proof.
  assert (Hpair : forall lang cat w1,
            (forall i, (i < next_set w1)%nat ->
               sets (fresh_crawl s fuel out_fh max_pages depth lang cat w1).2 i
               = sets w1 i)
            /\ next_set (fresh_crawl s fuel out_fh max_pages depth lang cat w1).2
               = S (next_set w1)
            /\ (forall path, path <> out_fh ->
                  files (fresh_crawl s fuel out_fh max_pages depth lang cat w1).2
                    !! path = files w1 !! path)
            /\ dom (files (fresh_crawl s fuel out_fh max_pages depth lang cat w1).2)
               = dom (files w1)).
  { intros lang cat w1. unfold fresh_crawl. rewrite crawl_category_top.
    destruct (crawl_category_sat _ _ _ _ _ _ _ _
                (frame_tree_invariant s (mw_api_endpoint lang) out_fh lang
                   max_pages (next_set w1))
                fuel depth cat [cat] (new_set w1).2 I)
      as (S1 & _ & N1 & F1 & D1).
    split; [|split; [|split]].
    - intros i Hi. rewrite S1 by lia. simpl. rewrite decide_False by lia. done.
    - by rewrite N1.
    - intros path Hp. by rewrite F1.
    - by rewrite D1. }
  induction 1 as [w|lang cat ps w w1 r w2 E _ IH|lang cat ps w e w1 r w2 E _ IH
                  |lang cat ps w w1 E].
  - by repeat split.
  - destruct (Hpair lang cat w) as (S1 & N1 & F1 & D1).
    rewrite E in S1, N1, F1, D1. simpl in *.
    destruct IH as (S2 & N2 & F2 & D2). split; [|split; [|split]].
    + intros i Hi. rewrite S2 by lia. by apply S1.
    + lia.
    + intros path Hp. by rewrite F2, F1.
    + congruence.
  - destruct (Hpair lang cat w) as (S1 & N1 & F1 & D1).
    rewrite E in S1, N1, F1, D1. simpl in *.
    destruct IH as (S2 & N2 & F2 & D2). simpl in *. split; [|split; [|split]].
    + intros i Hi. rewrite S2 by lia. by apply S1.
    + lia.
    + intros path Hp. by rewrite F2, F1.
    + congruence.
  - destruct (Hpair lang cat w) as (S1 & N1 & F1 & D1).
    rewrite E in S1, N1, F1, D1. simpl in *.
    split; [exact S1|]. split; [lia|]. by split.
Qed.

(** X25.  A run changes no file but the one at [outpath], which it creates
    if it is not there, and none of the sets that were there when it
    started. *)
Theorem main_frame (s : session) (fuel : nat)
    (langs categories : list string) (outpath : string) (max_pages depth : nat)
    (w : world) :
  let run := main s fuel langs categories outpath max_pages depth w in
  (forall path, path <> outpath -> files run.2 !! path = files w !! path)
  /\ dom (files run.2) = {[outpath]} ∪ dom (files w)
  /\ (forall i, (i < next_set w)%nat -> sets run.2 i = sets w i).
Proof.
  intros run. subst run.
  pose proof (main_driver s fuel langs categories outpath max_pages depth w) as D.
  apply driver_run_frame in D as (S1 & _ & F1 & D1). simpl in *.
  split; [|split].
  - intros path Hp. rewrite F1 by done. by apply lookup_insert_ne.
  - rewrite D1. apply dom_insert_L.
  - exact S1.
Qed.

(* ================================================================= *)
(** * What the page fetcher asks for *)

(** X2.  [get_page_extract] sends between one and three requests, all the
    same, to [api_url]: a query for the plain-text extract of one page, named
    by [pageids] when the page identifier is given (no [titles] is sent then,
    even if a title is given too) and by [titles] when only the title is
    given. *)
Theorem get_page_extract_requests (s : session) (api_url : string)
    (pageid : option Z) (title : option string) (w : world) :
  let sent := requests (events w (get_page_extract s api_url pageid title w).2) in
  Forall
    (fun request =>
       request.1 = api_url
       /\ request.2 !! "action" = Some (QStr "query")
       /\ request.2 !! "format" = Some (QStr "json")
       /\ request.2 !! "prop" = Some (QStr "extracts")
       /\ request.2 !! "explaintext" = Some (QInt 1)
       /\ request.2 !! "exlimit" = Some (QStr "1")
       /\ request.2 !! "pageids" = QInt <$> pageid
       /\ request.2 !! "titles"
          = match pageid with
            | Some _ => None
            | None => QStr <$> title
            end)
    sent
  /\ (length sent <= 3)%nat
  /\ (match pageid, title with
      | None, None => sent = []
      | _, _ => (1 <= length sent)%nat
      end).
Proof.
  intros sent. subst sent. unfold get_page_extract.
  destruct pageid as [pid|]; [|destruct title as [t|]]; unfold bind; simpl.
  3: { rewrite (events_app w w []) by (by rewrite app_nil_r).
       split; [constructor|]. split; [simpl; lia | reflexivity]. }
  all: match goal with |- context [api_get ?s0 ?u ?p ?w0] =>
         destruct (api_get_attempts_backoff s0 u p MAX_RETRIES w0)
           as (k & l & Hk & _ & Tr & Rq & _ & _ & Hok);
         pose proof (api_get_attempts_ends s0 u p MAX_RETRIES w0) as He;
         fold (api_get s0 u p w0) in Tr, Hok, He;
         destruct (api_get s0 u p w0) as [[data|e|] w1]
       end; simpl in Tr, Hok, He; try done.
  1,3: destruct (b_pages data) as [|[key p] rest]; simpl;
         try destruct (PyStr.startswith key "-"); simpl.
  all: cbn [fst snd ret raise].
  all: rewrite (events_app _ _ _ Tr), Rq, length_replicate.
  all: unfold MAX_RETRIES in *.
  all: (split; [apply Forall_replicate; by repeat split | lia]).
Qed.

(* ================================================================= *)
(** * A category with nothing in it *)

(** X8.  For a category whose listings come back empty, a crawl prints the
    line that announces the category, asks once for its pages and, only when
    [depth] is not zero, once for its subcategories, and ends; the two
    requests are the queries for the members of ["Category:" + category] of
    type [page] and of type [subcat], 500 at a time.  Nothing is written. *)
Theorem crawl_category_empty (s : session) (api_url out_fh lang : string)
    (max_pages_per_cat fuel depth : nat) (category : string) (seen : nat)
    (path : list string) (w : world) :
  (2 <= fuel)%nat ->
  (forall j params, (j < 2)%nat ->
     succeeded (s (clock w + j)%nat api_url params) = Some empty_body) ->
  let run := crawl_category s api_url out_fh lang max_pages_per_cat
               fuel depth category (Some seen) (Some path) w in
  let listing := fun cmtype : string =>
    EGet api_url
      (list_to_map
         [("action", QStr "query"); ("format", QStr "json");
          ("list", QStr "categorymembers");
          ("cmtitle", QStr ("Category:" +:+ category));
          ("cmlimit", QInt 500); ("cmtype", QStr cmtype)]) in
  run.1 = Ok tt
  /\ events w run.2
     = EPrint (LogCrawling lang path depth) :: listing "page"
       :: match depth with
          | O => []
          | S _ => [listing "subcat"]
          end
  /\ sets run.2 = sets w
  /\ files run.2 = files w.
Proof.
  intros Hfuel Hs run listing. subst run.
  destruct fuel as [|[|fuel]]; try lia.
  assert (Hlist : forall cmtype w1 k,
            (k < 2)%nat -> clock w1 = (clock w + k)%nat ->
            gen_next (S fuel) s api_url
              (get_category_members category cmtype 500) w1
            = (Ok None, (session_get s api_url
                           (g_params (get_category_members category cmtype 500))
                           w1).2)).
  { intros cmtype w1 k Hk C. unfold get_category_members.
    rewrite gen_next_refill, (left_id_L ∅ (∪)).
    rewrite (api_get_first s api_url _ w1 empty_body)
      by (rewrite C; by apply Hs).
    apply gen_next_stop. }
  assert (E : exists w2,
             crawl_category s api_url out_fh lang max_pages_per_cat
               (S (S fuel)) depth category (Some seen) (Some path) w
             = (Ok tt, w2)
             /\ trace w2
                = trace w
                  ++ EPrint (LogCrawling lang path depth) :: listing "page"
                     :: match depth with
                        | O => []
                        | S _ => [listing "subcat"]
                        end
             /\ sets w2 = sets w /\ files w2 = files w).
  { rewrite crawl_category_eq. unfold crawl_pages.
    rewrite crawl_members_S, (Hlist "page" _ O) by (simpl; lia).
    destruct depth as [|depth].
    - eexists. split; [reflexivity|]. simpl. rewrite <- app_assoc.
      by repeat split.
    - rewrite crawl_subcats_S, (Hlist "subcat" _ 1%nat) by (simpl; lia).
      eexists. split; [reflexivity|]. simpl. rewrite <- !app_assoc.
      by repeat split. }
  destruct E as (w2 & -> & Tr & Hsets & Hfiles).
  split; [reflexivity|]. split; [by apply events_app|]. by split.
Qed.

(** A category with no page and no subcategory. *)
Lemma crawl_category_empty_witness :
  (crawl_category bare en_api "out.jsonl" "en" 20 9 1 "Chemistry"
     (Some O) (Some ["Chemistry"]) w0).1
  = Ok tt.
Proof.
  apply (crawl_category_empty bare en_api "out.jsonl" "en" 20 9 1 "Chemistry"
           O ["Chemistry"] w0).
  - lia.
  - reflexivity.
Defined.

(* ================================================================= *)
(** * The order of the records *)

Section Order.

Variable s : session.
Variable api_url out_fh lang : string.
Variable max_pages_per_cat : nat.

(** Between [w] and [w'] every record written satisfies [good]. *)
Local Abbreviation writing good w w' :=
  (exists l, trace w' = trace w ++ l /\ Forall good (writes l)).

Lemma writing_quiet (good : string -> Prop) (w w' : world) :
  quiet w w' -> writing good w w'.
Proof.
  intros [_ _ _ (l & Tr & A)]. exists l. split; [exact Tr|].
  rewrite (writes_net _ A). constructor.
Qed.

Lemma writing_trans (good : string -> Prop) (w1 w2 w3 : world) :
  writing good w1 w2 -> writing good w2 w3 -> writing good w1 w3.
Proof.
  intros (l1 & T1 & G1) (l2 & T2 & G2). exists (l1 ++ l2). split.
  - rewrite T2, T1. by rewrite app_assoc.
  - rewrite writes_app. by apply Forall_app.
Qed.

Lemma crawl_members_writing (fuel seen : nat) path (g : generator) (count : nat)
    (w : world) :
  writing (fun d => exists r, d = record_line r /\ r_category_path r = path) w
    (crawl_members s api_url out_fh lang max_pages_per_cat
       fuel seen path g count w).2.
Proof.
  revert g count w. induction fuel as [|fuel IH]; intros g count w.
  { apply writing_quiet, quiet_refl. }
  rewrite crawl_members_S.
  pose proof (gen_next_quiet s api_url fuel g w) as Q.
  apply (writing_quiet
           (fun d => exists r, d = record_line r /\ r_category_path r = path)) in Q.
  destruct (gen_next fuel s api_url g w) as [[[[m g']|]|e|] w1];
    try exact Q.
  assert (Hm : writing (fun d => exists r, d = record_line r
                                           /\ r_category_path r = path) w1
                 (crawl_member s api_url out_fh lang max_pages_per_cat
                    seen path count m w1).2).
  { destruct (crawl_member s api_url out_fh lang max_pages_per_cat
                seen path count m w1) as [res w'] eqn:E.
    apply crawl_member_cases in E
      as [[Q' _]|(w2 & i & _ & _ & Hget & _ & Hcase)]; simpl.
    { by apply writing_quiet. }
    pose proof (get_page_extract_quiet s api_url (Some (m_pageid m)) None w1)
      as Q'.
    rewrite Hget in Q'.
    eapply writing_trans; [by apply writing_quiet|].
    destruct Hcase as [(t & Ht & -> & ->)|(Ht & _ & ->)].
    - eexists [_; _]. split; [simpl; by rewrite <- app_assoc|].
      repeat constructor. by eexists.
    - exists []. split; [simpl; by rewrite app_nil_r | constructor]. }
  destruct (crawl_member s api_url out_fh lang max_pages_per_cat
              seen path count m w1) as [[[c|]|e|] w2]; simpl in Hm.
  2-4: by eapply writing_trans.
  eapply writing_trans; [exact Q|]. eapply writing_trans; [exact Hm | apply IH].
Qed.

Lemma crawl_subcats_writing (good : string -> Prop) (fuel : nat) recurse path
    (g : generator) (w : world) :
  (forall sub w1, writing good w1 (recurse sub (path ++ [sub]) w1).2) ->
  writing good w (crawl_subcats s api_url fuel recurse path g w).2.
Proof.
  intros Hrec. revert g w. induction fuel as [|fuel IH]; intros g w.
  { apply writing_quiet, quiet_refl. }
  rewrite crawl_subcats_S.
  pose proof (gen_next_quiet s api_url fuel g w) as Q.
  apply (writing_quiet good) in Q.
  destruct (gen_next fuel s api_url g w) as [[[[m g']|]|e|] w1]; try exact Q.
  assert (Q1 : writing good w1 (crawl_subcat recurse path m w1).2).
  { unfold crawl_subcat. destruct (bool_decide _); [|apply Hrec].
    apply writing_quiet, quiet_refl. }
  destruct (crawl_subcat recurse path m w1) as [[[]|e|] w2]; simpl in Q1.
  2-3: by eapply writing_trans.
  eapply writing_trans; [exact Q|].
  eapply writing_trans; [exact Q1 | apply IH].
Qed.

Lemma crawl_category_below (fuel depth : nat) category (seen : nat) root
    (w : world) :
  writing (fun d => exists r, d = record_line r
                              /\ root `prefix_of` r_category_path r) w
    (crawl_category s api_url out_fh lang max_pages_per_cat
       fuel depth category (Some seen) (Some root) w).2.
Proof.
  destruct (crawl_category_events s api_url out_fh lang max_pages_per_cat
              (fun e => match e with
                        | EWrite d => exists r, d = record_line r
                                                /\ root `prefix_of` r_category_path r
                        | _ => True
                        end)
              (fun p d => root `prefix_of` p))
    with (fuel := fuel) (depth := depth) (category := category)
         (seen_pages := Some seen) (category_path := Some root) (w := w)
    as [G Tr]; try done.
  - intros [] He; try done.
  - intros path d pid i t HP _ _ _. simpl. eexists. by split.
  - intros path d sub HP _. by apply prefix_app_r.
  - eexists. split; [exact Tr|]. by apply Forall_writes_events.
Qed.

End Order.

(** X13.  The records of a category come before the records of its
    subcategories: what a call of [crawl_category] writes is first at most
    [max_pages_per_cat] records with the path of the call, then records
    whose path goes on below it; with [depth = 0] there are none of
    these. *)
Theorem records_in_preorder (s : session) (api_url out_fh lang : string)
    (max_pages_per_cat fuel depth : nat) (category : string) (seen : nat)
    (path : list string) (w : world) :
  exists own below,
    writes
      (events w
         (crawl_category s api_url out_fh lang max_pages_per_cat
            fuel depth category (Some seen) (Some path) w).2)
    = own ++ below
    /\ (length own <= max_pages_per_cat)%nat
    /\ Forall (fun d => exists r, d = record_line r /\ r_category_path r = path)
         own
    /\ Forall (fun d => exists r sub rest,
                  d = record_line r /\ r_category_path r = path ++ sub :: rest)
         below
    /\ (depth = O -> below = []).
Proof.
  rewrite crawl_category_eq.
  set (w1 := (print (LogCrawling lang path depth) w).2).
  destruct (crawl_members_page_phase s api_url out_fh lang max_pages_per_cat
              fuel seen path (get_category_members category "page" 500) O w1
              ltac:(lia)) as (lp & Tp & _ & Wp).
  destruct (crawl_members_writing s api_url out_fh lang max_pages_per_cat
              fuel seen path (get_category_members category "page" 500) O w1)
    as (lp' & Tp' & Gp).
  rewrite Tp in Tp'. apply app_inv_head in Tp' as <-.
  fold (crawl_pages s api_url out_fh lang max_pages_per_cat
          fuel category seen path w1) in Tp.
  assert (T1 : forall w2 l, trace w2 = trace w1 ++ l ->
                 trace w2 = trace w ++ EPrint (LogCrawling lang path depth) :: l).
  { intros w2 l ->. simpl. by rewrite <- app_assoc. }
  destruct (crawl_pages s api_url out_fh lang max_pages_per_cat
              fuel category seen path w1) as [[[]|e|] w2]; simpl in Tp.
  2-3: exists (writes lp), []; cbn [fst snd];
       rewrite (events_app _ _ _ (T1 _ _ Tp)); simpl;
       rewrite app_nil_r; repeat split; try done; lia.
  destruct depth as [|depth].
  { exists (writes lp), []. cbn [fst snd].
    rewrite (events_app _ _ _ (T1 _ _ Tp)). simpl.
    rewrite app_nil_r. repeat split; try done. lia. }
  destruct (crawl_subcats_writing s api_url
              (fun d => exists r sub rest,
                  d = record_line r /\ r_category_path r = path ++ sub :: rest)
              fuel
              (fun subcat_title path' =>
                 crawl_category s api_url out_fh lang max_pages_per_cat fuel depth
                   subcat_title (Some seen) (Some path'))
              path (get_category_members category "subcat" 500) w2)
    as (ls & Ts & Gs).
  { intros sub w3.
    destruct (crawl_category_below s api_url out_fh lang max_pages_per_cat
                fuel depth sub seen (path ++ [sub]) w3) as (l & Tr & G).
    exists l. split; [exact Tr|]. eapply Forall_impl; [exact G|].
    intros d (r & -> & [rest Hr]). exists r, sub, rest. split; [reflexivity|].
    rewrite Hr, <- app_assoc. reflexivity. }
  exists (writes lp), (writes ls).
  rewrite (events_app _ _ (EPrint (LogCrawling lang path (S depth)) :: lp ++ ls)).
  - simpl. rewrite writes_app. repeat split; try done. lia.
  - rewrite Ts, Tp. simpl. by rewrite <- !app_assoc.
Qed.

(* ================================================================= *)
(** * The pages of a category, when all goes well *)


Section Pages.

Variable s : session.
Variable api_url out_fh lang : string.
Variable max_pages_per_cat : nat.
Variable seen : nat.
Variable path : list string.

(** The remote side knows the page of each member: its request for the
    extract is answered at once, with a title and a text that is not blank. *)
Variable title text : Z -> string.

Local Abbreviation record_of := (record_of lang path title text).
Local Abbreviation known := (known s api_url title text).

Lemma crawl_member_known (count : nat) (m : member) (w : world) :
  (count < max_pages_per_cat)%nat ->
  m_pageid m ∉ sets w seen ->
  known m ->
  crawl_member s api_url out_fh lang max_pages_per_cat seen path count m w
  = (Ok (Some (S count)),
     emitted out_fh seen (m_pageid m) (record_of m)
       (session_get s api_url (extract_query (m_pageid m)) w).2).
Proof.
  intros Hcount Hseen [Htext Hs].
  destruct (Hs (clock w)) as (data & key & rest & Hd & Hp & Hk).
  unfold crawl_member. apply Nat.leb_gt in Hcount. rewrite Hcount.
  unfold bind, try_except, set_contains, ret.
  rewrite bool_decide_eq_false_2 by exact Hseen.
  unfold get_page_extract, bind, ret.
  fold (extract_query (m_pageid m)).
  rewrite (api_get_first s api_url _ w data Hd), Hp, Hk.
  cbn [i_extract i_title i_pageid default from_option id p_title p_pageid p_extract].
  rewrite Htext. reflexivity.
Qed.

Lemma crawl_members_known (fuel : nat) params (ms : list member) (count : nat)
    (w : world) :
  (length ms < fuel)%nat ->
  (count <= max_pages_per_cat)%nat ->
  NoDup (m_pageid <$> ms) ->
  Forall (fun m => m_pageid m ∉ sets w seen) ms ->
  Forall known ms ->
  exists w',
    crawl_members s api_url out_fh lang max_pages_per_cat fuel seen path
      (Generator params ms None) count w
    = (Ok tt, w')
    /\ writes (events w w')
       = record_line <$> take (max_pages_per_cat - count) (record_of <$> ms)
    /\ trace w' = trace w ++ events w w'
    /\ sets w' seen
       = sets w seen
         ∪ list_to_set (m_pageid <$> take (max_pages_per_cat - count) ms)
    /\ length (requests (events w w'))
       = length (take (max_pages_per_cat - count) ms).
Proof.
  revert fuel count w.
  induction ms as [|m ms IH]; intros fuel count w Hfuel Hcount Hnd Hfresh Hknown.
  { destruct fuel as [|fuel]; [simpl in Hfuel; lia|].
    rewrite crawl_members_S, gen_next_stop. exists w.
    cbn [fmap list_fmap]. rewrite !take_nil.
    rewrite (events_app w w []) by (by rewrite app_nil_r).
    rewrite app_nil_r. simpl.
    split; [reflexivity|]. split; [reflexivity|]. split; [reflexivity|].
    split; [set_solver | reflexivity]. }
  destruct fuel as [|fuel]; [simpl in Hfuel; lia|].
  rewrite crawl_members_S, gen_next_buffer.
  apply NoDup_cons in Hnd as [Hm Hnd].
  apply Forall_cons in Hfresh as [Hfm Hfresh].
  apply Forall_cons in Hknown as [Hkm Hknown].
  destruct (decide (count < max_pages_per_cat)%nat) as [Hlt|Hge].
  - rewrite (crawl_member_known count m w Hlt Hfm Hkm).
    set (w1 := emitted _ _ _ _ _).
    destruct (IH fuel (S count) w1) as (w' & Hrun & Hw & Ht & Hs & Hc);
      try done; try (simpl in Hfuel; lia).
    { apply Forall_forall. intros m' Hm'. subst w1. simpl.
      rewrite decide_True by done.
      rewrite Forall_forall in Hfresh. specialize (Hfresh m' Hm').
      assert (m_pageid m' <> m_pageid m).
      { intros E. apply Hm. rewrite <- E. by apply list_elem_of_fmap_2. }
      set_solver. }
    exists w'. split; [exact Hrun|].
    replace (max_pages_per_cat - count)%nat
      with (S (max_pages_per_cat - S count)) by lia.
    assert (T1 : trace w1
                 = trace w ++ [EGet api_url (extract_query (m_pageid m));
                               EWrite (record_line (record_of m));
                               ESleep SLEEP_BETWEEN_REQUESTS]).
    { subst w1. simpl. by rewrite <- !app_assoc. }
    assert (T' : trace w'
                 = trace w ++ [EGet api_url (extract_query (m_pageid m));
                               EWrite (record_line (record_of m));
                               ESleep SLEEP_BETWEEN_REQUESTS] ++ events w1 w').
    { rewrite Ht, T1. by rewrite <- app_assoc. }
    rewrite (events_app _ _ _ T'). split; [|split; [|split]].
    + simpl. by rewrite Hw.
    + exact T'.
    + rewrite Hs. subst w1. simpl. rewrite decide_True by done. set_solver.
    + simpl. by rewrite Hc.
  - assert (Hbreak : crawl_member s api_url out_fh lang max_pages_per_cat
                       seen path count m w = (Ok None, w)).
    { apply crawl_member_at_bound. lia. }
    rewrite Hbreak. exists w.
    replace (max_pages_per_cat - count)%nat with O by lia.
    rewrite !take_0.
    rewrite (events_app w w []) by (by rewrite app_nil_r).
    rewrite app_nil_r. simpl.
    split; [reflexivity|]. split; [reflexivity|]. split; [reflexivity|].
    split; [set_solver | reflexivity].
Qed.

End Pages.

Lemma crawl_pages_run (s : session) (api_url out_fh lang : string)
    (max_pages_per_cat fuel : nat) (category : string) (seen : nat)
    (path : list string) (title text : Z -> string) (ms : list member)
    (data : body) (w : world) :
  succeeded (s (clock w) api_url (listing_query category "page")) = Some data ->
  b_members data = ms ->
  b_continue data = None ->
  (length ms + 2 <= fuel)%nat ->
  NoDup (m_pageid <$> ms) ->
  Forall (fun m => m_pageid m ∉ sets w seen) ms ->
  Forall (known s api_url title text) ms ->
  exists w' l,
    crawl_pages s api_url out_fh lang max_pages_per_cat fuel category seen path w
    = (Ok tt, w')
    /\ trace w' = trace w ++ l
    /\ writes l
       = record_line
         <$> take max_pages_per_cat (record_of lang path title text <$> ms)
    /\ sets w' seen
       = sets w seen ∪ list_to_set (m_pageid <$> take max_pages_per_cat ms)
    /\ length (requests l) = S (length (take max_pages_per_cat ms)).
Proof.
  intros Hd Hms Hcont Hfuel Hnd Hfresh Hknown.
  destruct fuel as [|[|fuel]]; try lia.
  set (w1 := (session_get s api_url (listing_query category "page") w).2).
  assert (E : crawl_pages s api_url out_fh lang max_pages_per_cat
                (S (S fuel)) category seen path w
              = crawl_members s api_url out_fh lang max_pages_per_cat
                  (S (S fuel)) seen path
                  (Generator (listing_query category "page") ms None) O w1).
  { unfold crawl_pages. rewrite !crawl_members_S.
    unfold get_category_members at 1. rewrite gen_next_refill.
    rewrite (left_id_L ∅ (∪)).
    pose proof Hd as Hd'. unfold listing_query, get_category_members in Hd'.
    cbn [g_params] in Hd'.
    rewrite (api_get_first s api_url _ w data Hd'), Hms, Hcont.
    destruct ms; by rewrite ?gen_next_stop, ?gen_next_buffer. }
  rewrite E.
  destruct (crawl_members_known s api_url out_fh lang max_pages_per_cat seen path
              title text (S (S fuel)) (listing_query category "page") ms O w1)
    as (w' & -> & Hw & Ht & Hs & Hc); try done; try lia.
  rewrite Nat.sub_0_r in *.
  exists w', (EGet api_url (listing_query category "page") :: events w1 w').
  split; [reflexivity|]. split; [|split; [exact Hw|split; [exact Hs|]]].
  - rewrite Ht. subst w1. simpl. by rewrite <- app_assoc.
  - simpl. by rewrite Hc.
Qed.

(** X26.  The pages of a category, when all goes well: the listing comes in
    one batch of members with different page identifiers, none seen before,
    and the remote side knows the page of each.  Then the page loop ends
    normally; it writes the records of the first [max_pages_per_cat] members,
    in the order of the listing, each with the title, the identifier and the
    text of its page; it marks these pages, and no other, as seen; and it
    sends one request for the listing and one for each page written. *)
Theorem crawl_pages_known (s : session) (api_url out_fh lang : string)
    (max_pages_per_cat fuel : nat) (category : string) (seen : nat)
    (path : list string) (title text : Z -> string) (ms : list member)
    (data : body) (w : world) :
  succeeded (s (clock w) api_url (listing_query category "page")) = Some data ->
  b_members data = ms ->
  b_continue data = None ->
  (length ms + 2 <= fuel)%nat ->
  NoDup (m_pageid <$> ms) ->
  Forall (fun m => m_pageid m ∉ sets w seen) ms ->
  Forall (known s api_url title text) ms ->
  let run := crawl_pages s api_url out_fh lang max_pages_per_cat
               fuel category seen path w in
  run.1 = Ok tt
  /\ writes (events w run.2)
     = record_line
       <$> take max_pages_per_cat (record_of lang path title text <$> ms)
  /\ sets run.2 seen
     = sets w seen ∪ list_to_set (m_pageid <$> take max_pages_per_cat ms)
  /\ length (requests (events w run.2))
     = S (length (take max_pages_per_cat ms)).
Proof.
  intros Hd Hms Hcont Hfuel Hnd Hfresh Hknown run. subst run.
  destruct (crawl_pages_run s api_url out_fh lang max_pages_per_cat fuel category
              seen path title text ms data w)
    as (w' & l & -> & Tr & Hw & Hs & Hq); try done.
  cbn [fst snd]. rewrite (events_app _ _ _ Tr). by repeat split.
Qed.

Lemma wiki_known (pageid : Z) (title : string) :
  1 <= pageid <= 6 -> pageid <> 2 ->
  known wiki en_api wiki_title wiki_text (Member pageid title).
Proof.
  intros H1 H2.
  assert (H : pageid = 1 \/ pageid = 3 \/ pageid = 4 \/ pageid = 5 \/ pageid = 6)
    by lia.
  destruct H as [->|[->|[->|[->| ->]]]]; (split; [reflexivity|]);
    intros c; eexists _, _, _; repeat split.
Qed.

(** Mathematics in the small encyclopedia, with a bound of two pages. *)
Lemma crawl_pages_known_witness :
  writes (events w0
            (crawl_pages wiki en_api "out.jsonl" "en" 2 9 "Mathematics" O
               ["Mathematics"] w0).2)
  = [ record_line (Record_ "en" ["Mathematics"] "Algebra" (Some 4) "Groups."
                     "https://en.wikipedia.org/wiki/Algebra");
      record_line (Record_ "en" ["Mathematics"] "Number theory" (Some 5) "Primes."
                     "https://en.wikipedia.org/wiki/Number_theory") ].
Proof.
  apply (crawl_pages_known wiki en_api "out.jsonl" "en" 2 9 "Mathematics" O
           ["Mathematics"] wiki_title wiki_text
           [Member 4 "Algebra"; Member 5 "Number theory"; Member 6 "Topology"]
           (Body [Member 4 "Algebra"; Member 5 "Number theory"; Member 6 "Topology"]
              [] None) w0); try reflexivity.
  - simpl. lia.
  - simpl. repeat constructor; set_solver.
  - repeat constructor; simpl; apply not_elem_of_empty.
  - repeat constructor; apply wiki_known; lia.
Defined.

(* ================================================================= *)
(** * The bound on the pages of one category, from the answers of the
      remote side *)

Section Eligible.

Variable s : session.
Variable api_url out_fh lang : string.
Variable max_pages_per_cat : nat.
Variable seen : nat.
Variable path : list string.

Local Abbreviation member_step :=
  (crawl_member s api_url out_fh lang max_pages_per_cat seen path).






Variable answer : Z -> option body.


End Eligible.





(* ================================================================= *)
(** * Crawls that end *)

Section Ends.

Variable s : session.
Variable bound : nat.
Hypothesis Hs : single_batches s bound.

Variable api_url out_fh lang : string.
Variable max_pages_per_cat : nat.

Lemma crawl_member_ends (seen : nat) path (count : nat) (m : member) (w : world) :
  (crawl_member s api_url out_fh lang max_pages_per_cat seen path count m w).1
  <> Diverge.
Proof.
  destruct (crawl_member s api_url out_fh lang max_pages_per_cat
              seen path count m w) as [res w'] eqn:E.
  apply crawl_member_cases in E
    as [[_ [->| ->]]|(w1 & i & _ & _ & _ & _ & [(t & _ & -> & _)|(_ & (msg & ->) & _)])];
    discriminate.
Qed.

(** The first round of an enumeration: the listing is fetched, or the
    error of [api_get] comes out. *)
Lemma gen_next_first (fuel : nat) params cont (w : world) :
  (exists e w1,
      gen_next (S fuel) s api_url (Generator params [] (Some cont)) w
      = (Raise e, w1))
  \/ (exists w1,
        gen_next (S fuel) s api_url (Generator params [] (Some cont)) w
        = (Ok None, w1))
  \/ (exists m ms w1,
        gen_next (S fuel) s api_url (Generator params [] (Some cont)) w
        = (Ok (Some (m, Generator (cont ∪ params) ms None)), w1)
        /\ (length ms < bound)%nat).
Proof.
  rewrite gen_next_refill.
  pose proof (api_get_attempts_inv s api_url (cont ∪ params) MAX_RETRIES w) as Hinv.
  pose proof (api_get_attempts_ends s api_url (cont ∪ params) MAX_RETRIES w) as He.
  fold (api_get s api_url (cont ∪ params) w) in Hinv, He.
  destruct (api_get s api_url (cont ∪ params) w) as [[data|e|] w1];
    simpl in He; [|left; eauto|done].
  destruct (Hinv data eq_refl) as [c Hc].
  destruct (Hs _ _ _ _ Hc) as [Hcont Hlen]. rewrite Hcont.
  destruct (b_members data) as [|m ms].
  - right. left. exists w1. apply gen_next_stop.
  - right. right. exists m, ms, w1. rewrite gen_next_buffer.
    split; [reflexivity | simpl in Hlen; lia].
Qed.

Lemma crawl_members_ends_buffer (fuel seen : nat) path params (ms : list member)
    (count : nat) (w : world) :
  (length ms < fuel)%nat ->
  (crawl_members s api_url out_fh lang max_pages_per_cat fuel seen path
     (Generator params ms None) count w).1 <> Diverge.
Proof.
  revert fuel count w. induction ms as [|m ms IH]; intros fuel count w Hfuel.
  all: destruct fuel as [|fuel]; [simpl in Hfuel; lia|].
  all: rewrite crawl_members_S, ?gen_next_stop, ?gen_next_buffer.
  { discriminate. }
  pose proof (crawl_member_ends seen path count m w) as Hm.
  destruct (crawl_member s api_url out_fh lang max_pages_per_cat
              seen path count m w) as [[[c|]|e|] w1]; simpl in Hm; try done.
  apply IH. simpl in Hfuel. lia.
Qed.

Lemma crawl_members_ends (fuel seen : nat) path params cont (count : nat)
    (w : world) :
  (bound + 2 <= fuel)%nat ->
  (crawl_members s api_url out_fh lang max_pages_per_cat fuel seen path
     (Generator params [] (Some cont)) count w).1 <> Diverge.
Proof.
  intros Hfuel. destruct fuel as [|[|fuel]]; try lia.
  rewrite crawl_members_S.
  destruct (gen_next_first fuel params cont w)
    as [(e & w1 & ->)|[(w1 & ->)|(m & ms & w1 & -> & Hlen)]]; try discriminate.
  pose proof (crawl_member_ends seen path count m w1) as Hm.
  destruct (crawl_member s api_url out_fh lang max_pages_per_cat
              seen path count m w1) as [[[c|]|e|] w2]; simpl in Hm; try done.
  apply crawl_members_ends_buffer. lia.
Qed.

Lemma crawl_subcats_ends_buffer (fuel : nat) recurse path params
    (ms : list member) (w : world) :
  (forall sub path' w1, (recurse sub path' w1).1 <> Diverge) ->
  (length ms < fuel)%nat ->
  (crawl_subcats s api_url fuel recurse path (Generator params ms None) w).1
  <> Diverge.
Proof.
  intros Hrec. revert fuel w. induction ms as [|m ms IH]; intros fuel w Hfuel.
  all: destruct fuel as [|fuel]; [simpl in Hfuel; lia|].
  all: rewrite crawl_subcats_S, ?gen_next_stop, ?gen_next_buffer.
  { discriminate. }
  assert (Hm : (crawl_subcat recurse path m w).1 <> Diverge).
  { unfold crawl_subcat. destruct (bool_decide _); [discriminate | apply Hrec]. }
  destruct (crawl_subcat recurse path m w) as [[[]|e|] w1]; simpl in Hm; try done.
  apply IH. simpl in Hfuel. lia.
Qed.

Lemma crawl_subcats_ends (fuel : nat) recurse path params cont (w : world) :
  (forall sub path' w1, (recurse sub path' w1).1 <> Diverge) ->
  (bound + 2 <= fuel)%nat ->
  (crawl_subcats s api_url fuel recurse path (Generator params [] (Some cont)) w).1
  <> Diverge.
Proof.
  intros Hrec Hfuel. destruct fuel as [|[|fuel]]; try lia.
  rewrite crawl_subcats_S.
  destruct (gen_next_first fuel params cont w)
    as [(e & w1 & ->)|[(w1 & ->)|(m & ms & w1 & -> & Hlen)]]; try discriminate.
  assert (Hm : (crawl_subcat recurse path m w1).1 <> Diverge).
  { unfold crawl_subcat. destruct (bool_decide _); [discriminate | apply Hrec]. }
  destruct (crawl_subcat recurse path m w1) as [[[]|e|] w2]; simpl in Hm; try done.
  apply crawl_subcats_ends_buffer; [exact Hrec | lia].
Qed.

Lemma crawl_category_ends (fuel depth : nat) category seen_pages category_path
    (w : world) :
  (bound + 2 <= fuel)%nat ->
  (crawl_category s api_url out_fh lang max_pages_per_cat fuel depth category
     seen_pages category_path w).1 <> Diverge.
Proof.
  intros Hfuel. rewrite crawl_category_resolved.
  generalize (resolved_set seen_pages w) (resolved_path category category_path)
    (resolved_world seen_pages w).
  clear seen_pages category_path w. revert category.
  induction depth as [|depth IH]; intros category seen path w.
  all: rewrite crawl_category_eq.
  all: match goal with |- context [crawl_pages _ _ _ _ _ _ ?c ?r ?p ?w1] =>
         pose proof (crawl_members_ends fuel r p
                       (g_params (get_category_members c "page" 500)) ∅ O w1
                       Hfuel) as Hp;
         change (Generator (g_params (get_category_members c "page" 500))
                   [] (Some ∅))
           with (get_category_members c "page" 500) in Hp;
         fold (crawl_pages s api_url out_fh lang max_pages_per_cat fuel c r p w1)
           in Hp;
         destruct (crawl_pages s api_url out_fh lang max_pages_per_cat fuel c r p w1)
           as [[[]|e|] w2]
       end; simpl in Hp; try done.
  apply (crawl_subcats_ends fuel _ path
           (g_params (get_category_members category "subcat" 500)) ∅ w2);
    [|exact Hfuel].
  intros sub path' w3. apply IH.
Qed.

End Ends.

Lemma driver_run_ends (crawl : string -> string -> M unit)
    (ps : list (string * string)) (w w' : world) (r : result unit) :
  (forall lang cat w1, (crawl lang cat w1).1 <> Diverge) ->
  driver_run crawl ps w r w' -> r = Ok tt.
Proof.
  intros Hends. induction 1 as [| | |lang cat ps w w1 E]; try done.
  specialize (Hends lang cat w). by rewrite E in Hends.
Qed.

(** X27.  Crawls that end.  When no answer of the remote side carries a
    continuation token and no listing has more than [bound] members, every
    loop of a crawl comes to its end within [bound + 2] rounds, at any depth:
    a call of [crawl_category] returns or raises, and a run returns
    normally. *)
Theorem crawl_terminates (s : session) (bound fuel : nat)
    (api_url out_fh lang : string) (max_pages_per_cat depth : nat)
    (category : string) (seen_pages : option nat)
    (category_path : option (list string))
    (langs categories : list string) (w : world) :
  single_batches s bound ->
  (bound + 2 <= fuel)%nat ->
  (crawl_category s api_url out_fh lang max_pages_per_cat fuel depth category
     seen_pages category_path w).1 <> Diverge
  /\ (main s fuel langs categories out_fh max_pages_per_cat depth w).1 = Ok tt.
Proof.
  intros Hs Hfuel. split; [by apply (crawl_category_ends s bound)|].
  pose proof (main_driver s fuel langs categories out_fh max_pages_per_cat depth w)
    as D.
  eapply driver_run_ends; [|exact D].
  intros lg cat w1. unfold fresh_crawl. by apply (crawl_category_ends s bound).
Qed.

Lemma wiki_single_batches : single_batches wiki 3.
Proof.
  intros c url params data. unfold wiki.
  destruct (params !! "pageids") as [[n|x]|]; simpl.
  1: intros [= <-]; simpl; split; [reflexivity | lia].
  all: intros [= <-]; simpl; split; [reflexivity|].
  all: unfold wiki_members.
  all: repeat (match goal with |- context [String.eqb ?a ?b] =>
                 destruct (String.eqb a b) end); simpl; lia.
Qed.

(** A run over the small encyclopedia, two levels deep. *)
Lemma crawl_terminates_witness :
  (main wiki 9 ["en"] ["Physics"; "Mathematics"] "out.jsonl" 20 2 w0).1 = Ok tt.
Proof.
  apply (crawl_terminates wiki 3 9 en_api "out.jsonl" "en" 20 2 "Physics" None None
           ["en"] ["Physics"; "Mathematics"] w0).
  - exact wiki_single_batches.
  - lia.
Defined.

(* ================================================================= *)
(** * Pages seen in another crawl *)

Lemma fresh_crawl_known (s : session) (fuel : nat) (out_fh : string)
    (max_pages : nat) (lang category : string) (title text : Z -> string)
    (ms : list member) (data : body) (w : world) :
  (forall c,
     succeeded (s c (mw_api_endpoint lang) (listing_query category "page"))
     = Some data) ->
  b_members data = ms ->
  b_continue data = None ->
  (length ms + 2 <= fuel)%nat ->
  NoDup (m_pageid <$> ms) ->
  Forall (known s (mw_api_endpoint lang) title text) ms ->
  exists w' l,
    crawl_pair s fuel out_fh max_pages 0 lang category w = (Ok tt, w')
    /\ trace w' = trace w ++ l
    /\ writes l
       = record_line
         <$> take max_pages (record_of lang [category] title text <$> ms).
Proof.
  intros Hd Hms Hcont Hfuel Hnd Hknown.
  rewrite crawl_pair_cases. unfold fresh_crawl.
  rewrite crawl_category_top, crawl_category_eq.
  set (w1 := (print (LogCrawling lang [category] 0) (new_set w).2).2).
  destruct (crawl_pages_run s (mw_api_endpoint lang) out_fh lang max_pages fuel
              category (next_set w) [category] title text ms data w1)
    as (w' & l & -> & Tr & Hw & _); try done.
  { apply Forall_forall. intros m _. simpl. rewrite decide_True by done.
    apply not_elem_of_empty. }
  exists w', (ENewSet (next_set w) :: EPrint (LogCrawling lang [category] 0) :: l).
  split; [reflexivity|]. split; [|exact Hw].
  rewrite Tr. subst w1. simpl. by rewrite <- !app_assoc.
Qed.

(** X28.  The set of seen pages belongs to one crawl: a run that is given
    the same category twice writes its pages twice.  With a remote side that
    always answers the listing of the category with the same batch of known
    pages, the run over the categories [category; category] writes the
    records of the category and then the same records again. *)
Theorem main_repeats_across_crawls (s : session) (fuel : nat) (outpath : string)
    (max_pages : nat) (lang category : string) (title text : Z -> string)
    (ms : list member) (data : body) (w : world) :
  (forall c,
     succeeded (s c (mw_api_endpoint lang) (listing_query category "page"))
     = Some data) ->
  b_members data = ms ->
  b_continue data = None ->
  (length ms + 2 <= fuel)%nat ->
  NoDup (m_pageid <$> ms) ->
  Forall (known s (mw_api_endpoint lang) title text) ms ->
  let run := main s fuel [lang] [category; category] outpath max_pages 0 w in
  let records :=
    record_line <$> take max_pages (record_of lang [category] title text <$> ms) in
  run.1 = Ok tt
  /\ writes (events w run.2) = records ++ records.
Proof.
  intros Hd Hms Hcont Hfuel Hnd Hknown run records. subst run.
  assert (E : exists w' l,
             main s fuel [lang] [category; category] outpath max_pages 0 w
             = (Ok tt, w')
             /\ trace w' = trace w ++ l /\ writes l = records ++ records).
  { unfold main, bind. cbn [open_w for_each]. unfold bind.
    match goal with |- context [crawl_pair _ _ _ _ _ _ _ ?w1] =>
      destruct (fresh_crawl_known s fuel outpath max_pages lang category
                  title text ms data w1) as (w2 & l2 & -> & T2 & W2)
    end; try done.
    destruct (fresh_crawl_known s fuel outpath max_pages lang category title text
                ms data w2) as (w3 & l3 & -> & T3 & W3); try done.
    exists w3, (EOpen outpath :: l2 ++ l3). split; [reflexivity|]. split.
    - rewrite T3, T2. simpl. by rewrite <- !app_assoc.
    - simpl. by rewrite writes_app, W2, W3. }
  destruct E as (w' & l & -> & Tr & Wr).
  split; [reflexivity|]. cbn [fst snd]. by rewrite (events_app _ _ _ Tr).
Qed.

(** Mathematics asked for twice, with a bound of two pages. *)
Lemma main_repeats_across_crawls_witness :
  (main wiki 9 ["en"] ["Mathematics"; "Mathematics"] "out.jsonl" 2 0 w0).1 = Ok tt
  /\ writes
       (events w0
          (main wiki 9 ["en"] ["Mathematics"; "Mathematics"] "out.jsonl" 2 0 w0).2)
     = (record_line
        <$> take 2 (record_of "en" ["Mathematics"] wiki_title wiki_text
                    <$> [Member 4 "Algebra"; Member 5 "Number theory";
                         Member 6 "Topology"]))
       ++ (record_line
           <$> take 2 (record_of "en" ["Mathematics"] wiki_title wiki_text
                       <$> [Member 4 "Algebra"; Member 5 "Number theory";
                            Member 6 "Topology"])).
Proof.
  apply (main_repeats_across_crawls wiki 9 "out.jsonl" 2 "en" "Mathematics"
           wiki_title wiki_text
           [Member 4 "Algebra"; Member 5 "Number theory"; Member 6 "Topology"]
           (Body [Member 4 "Algebra"; Member 5 "Number theory";
                  Member 6 "Topology"] [] None) w0).
  - reflexivity.
  - reflexivity.
  - reflexivity.
  - simpl. lia.
  - simpl. repeat constructor; set_solver.
  - repeat constructor; apply wiki_known; lia.
Defined.


(* ================================================================= *)
(** * How much a crawl can ask for *)

Lemma costs_refl (w : world) : costs 0 0 w w.
Proof. exists []. rewrite app_nil_r. simpl. by repeat split. Qed.

Lemma costs_trans (n1 n2 c1 c2 : nat) (w1 w2 w3 : world) :
  costs n1 c1 w1 w2 -> costs n2 c2 w2 w3 -> costs (n1 + n2) (c1 + c2) w1 w3.
Proof.
  intros (l1 & T1 & R1 & E1) (l2 & T2 & R2 & E2). exists (l1 ++ l2).
  split; [rewrite T2, T1; by rewrite app_assoc|].
  rewrite requests_app, length_app, entered_app. lia.
Qed.

Lemma costs_le (n m c d : nat) (w w' : world) :
  (n <= m)%nat -> (c <= d)%nat -> costs n c w w' -> costs m d w w'.
Proof. intros Hn Hc (l & T & R & E). exists l. repeat split; try done; lia. Qed.

Section Cost.

Variable s : session.
Variable bound : nat.
Hypothesis Hs : single_batches s bound.

Variable api_url out_fh lang : string.
Variable max_pages_per_cat : nat.

Lemma api_get_costs params (w : world) :
  costs 3 0 w (api_get s api_url params w).2.
Proof.
  unfold api_get, MAX_RETRIES.
  destruct (api_get_attempts_backoff s api_url params 3 w)
    as (k & l & Hk & _ & Tr & Rq & _ & _ & _).
  pose proof (api_get_attempts_quiet s api_url params 3 w) as [_ _ _ (l' & Tr' & A)].
  rewrite Tr in Tr'. apply app_inv_head in Tr' as <-.
  exists l. split; [exact Tr|]. rewrite Rq, length_replicate, (entered_net _ A).
  split; lia.
Qed.

Lemma get_page_extract_costs pageid title (w : world) :
  costs 3 0 w (get_page_extract s api_url pageid title w).2.
Proof.
  unfold get_page_extract.
  destruct pageid as [pid|]; [|destruct title as [t|]]; unfold bind; simpl.
  3: { eapply costs_le; [| |apply costs_refl]; lia. }
  all: match goal with |- context [api_get ?s0 ?u ?p ?w0] =>
         pose proof (api_get_costs p w0) as Q;
         destruct (api_get s0 u p w0) as [[data|e|] w1]
       end; simpl in *; try exact Q.
  all: destruct (b_pages data) as [|[key p] rest]; simpl; try exact Q.
  all: destruct (PyStr.startswith key "-"); exact Q.
Qed.

Lemma crawl_member_costs (seen : nat) path (count : nat) (m : member)
    (w : world) :
  costs 3 0 w
    (crawl_member s api_url out_fh lang max_pages_per_cat seen path count m w).2.
Proof.
  assert (Z0 : forall w1, costs 3 0 w1 w1).
  { intros w1. eapply costs_le; [| |apply costs_refl]; lia. }
  unfold crawl_member.
  destruct (max_pages_per_cat <=? count)%nat; [apply Z0|].
  unfold bind, try_except, set_contains, ret.
  destruct (bool_decide (m_pageid m ∈ sets w seen)); [apply Z0|].
  pose proof (get_page_extract_costs (Some (m_pageid m)) None w) as Q.
  destruct (get_page_extract s api_url (Some (m_pageid m)) None w)
    as [[[i|]|e|] w1]; simpl in *; try exact Q.
  - destruct (PyStr.is_empty (PyStr.strip (i_extract i))); [exact Q|].
    destruct (i_title i) as [t|]; simpl; [|exact Q].
    replace 3%nat with (3 + 0)%nat by lia. change O with (0 + 0)%nat.
    eapply costs_trans; [exact Q|].
    eexists [_; _]. split; [simpl; by rewrite <- app_assoc|]. simpl. lia.
  - replace 3%nat with (3 + 0)%nat by lia. change O with (0 + 0)%nat.
    eapply costs_trans; [exact Q|].
    eexists [_]. split; [reflexivity|]. simpl. lia.
Qed.

(** The first round of an enumeration costs one call of [api_get]; what it
    leaves in the buffer costs nothing more. *)
Lemma gen_next_first_costs (fuel : nat) params cont (w : world) :
  costs 3 0 w (gen_next fuel s api_url (Generator params [] (Some cont)) w).2
  /\ forall m g' w1,
       gen_next fuel s api_url (Generator params [] (Some cont)) w
       = (Ok (Some (m, g')), w1) ->
       exists ms, g' = Generator (cont ∪ params) ms None
                  /\ (length ms < bound)%nat.
Proof.
  destruct fuel as [|fuel].
  { split; [|discriminate]. eapply costs_le; [| |apply costs_refl]; lia. }
  rewrite gen_next_refill.
  pose proof (api_get_attempts_inv s api_url (cont ∪ params) MAX_RETRIES w) as Hinv.
  pose proof (api_get_costs (cont ∪ params) w) as Q.
  fold (api_get s api_url (cont ∪ params) w) in Hinv.
  destruct (api_get s api_url (cont ∪ params) w) as [[data|e|] w1];
    simpl in Q; try (split; [exact Q | discriminate]).
  destruct (Hinv data eq_refl) as [c Hc].
  destruct (Hs _ _ _ _ Hc) as [Hcont Hlen]. rewrite Hcont.
  destruct (b_members data) as [|m ms].
  - rewrite gen_next_stop. split; [exact Q | discriminate].
  - rewrite gen_next_buffer. split; [exact Q|].
    intros m' g' w2 [= <- <- <-]. exists ms. split; [reflexivity|].
    simpl in Hlen. lia.
Qed.

Lemma crawl_members_costs_buffer (fuel seen : nat) path params
    (ms : list member) (count : nat) (w : world) :
  costs (3 * length ms) 0 w
    (crawl_members s api_url out_fh lang max_pages_per_cat fuel seen path
       (Generator params ms None) count w).2.
Proof.
  assert (Z0 : forall n w1, costs n 0 w1 w1).
  { intros n w1. eapply costs_le; [| |apply costs_refl]; lia. }
  revert fuel count w. induction ms as [|m ms IH]; intros fuel count w.
  all: destruct fuel as [|fuel]; [apply Z0|].
  all: rewrite crawl_members_S, ?gen_next_stop, ?gen_next_buffer.
  { apply Z0. }
  pose proof (crawl_member_costs seen path count m w) as Hm.
  destruct (crawl_member s api_url out_fh lang max_pages_per_cat
              seen path count m w) as [[[c|]|e|] w1]; simpl in Hm.
  2-4: eapply costs_le; [| |exact Hm]; simpl; lia.
  eapply costs_le; [| |eapply costs_trans; [exact Hm | apply IH]]; simpl; lia.
Qed.

Lemma crawl_members_costs (fuel seen : nat) path params cont (count : nat)
    (w : world) :
  costs (3 + 3 * bound) 0 w
    (crawl_members s api_url out_fh lang max_pages_per_cat fuel seen path
       (Generator params [] (Some cont)) count w).2.
Proof.
  destruct fuel as [|fuel].
  { eapply costs_le; [| |apply costs_refl]; lia. }
  rewrite crawl_members_S.
  destruct (gen_next_first_costs fuel params cont w) as [Q Hg].
  destruct (gen_next fuel s api_url (Generator params [] (Some cont)) w)
    as [[[[m g']|]|e|] w1]; simpl in Q.
  2-4: eapply costs_le; [| |exact Q]; lia.
  destruct (Hg m g' w1 eq_refl) as (ms & -> & Hlen).
  pose proof (crawl_member_costs seen path count m w1) as Hm.
  destruct (crawl_member s api_url out_fh lang max_pages_per_cat
              seen path count m w1) as [[[c|]|e|] w2]; simpl in Hm.
  2-4: eapply costs_le; [| |eapply costs_trans; [exact Q | exact Hm]]; lia.
  eapply costs_le;
    [| |eapply costs_trans;
          [exact Q
          |eapply costs_trans;
             [exact Hm | apply (crawl_members_costs_buffer fuel seen path _ ms)]]];
    lia.
Qed.

Lemma crawl_subcats_costs_buffer (sent cats : nat) (fuel : nat) recurse path
    params (ms : list member) (w : world) :
  (forall sub path' w1, costs sent cats w1 (recurse sub path' w1).2) ->
  costs (length ms * sent) (length ms * cats) w
    (crawl_subcats s api_url fuel recurse path (Generator params ms None) w).2.
Proof.
  intros Hrec.
  assert (Z0 : forall n c w1, costs n c w1 w1).
  { intros n c w1. eapply costs_le; [| |apply costs_refl]; lia. }
  revert fuel w. induction ms as [|m ms IH]; intros fuel w.
  all: destruct fuel as [|fuel]; [apply Z0|].
  all: rewrite crawl_subcats_S, ?gen_next_stop, ?gen_next_buffer.
  { apply Z0. }
  assert (Hm : costs sent cats w (crawl_subcat recurse path m w).2).
  { unfold crawl_subcat. destruct (bool_decide _); [apply Z0 | apply Hrec]. }
  destruct (crawl_subcat recurse path m w) as [[[]|e|] w1]; simpl in Hm.
  2-3: eapply costs_le; [| |exact Hm]; simpl; lia.
  eapply costs_le; [| |eapply costs_trans; [exact Hm | apply IH]]; simpl; lia.
Qed.

Lemma crawl_subcats_costs (sent cats : nat) (fuel : nat) recurse path
    params cont (w : world) :
  (forall sub path' w1, costs sent cats w1 (recurse sub path' w1).2) ->
  costs (3 + bound * sent) (bound * cats) w
    (crawl_subcats s api_url fuel recurse path
       (Generator params [] (Some cont)) w).2.
Proof.
  intros Hrec.
  assert (Z0 : forall n c w1, costs n c w1 w1).
  { intros n c w1. eapply costs_le; [| |apply costs_refl]; lia. }
  destruct fuel as [|fuel]; [apply Z0|].
  rewrite crawl_subcats_S.
  destruct (gen_next_first_costs fuel params cont w) as [Q Hg].
  destruct (gen_next fuel s api_url (Generator params [] (Some cont)) w)
    as [[[[m g']|]|e|] w1]; simpl in Q.
  2-4: eapply costs_le; [| |exact Q]; lia.
  destruct (Hg m g' w1 eq_refl) as (ms & -> & Hlen).
  assert (Hm : costs sent cats w1 (crawl_subcat recurse path m w1).2).
  { unfold crawl_subcat. destruct (bool_decide _); [apply Z0 | apply Hrec]. }
  destruct (crawl_subcat recurse path m w1) as [[[]|e|] w2]; simpl in Hm.
  2-3: eapply costs_le; [| |eapply costs_trans; [exact Q | exact Hm]]; nia.
  eapply costs_le;
    [| |eapply costs_trans;
          [exact Q
          |eapply costs_trans;
             [exact Hm
             |apply (crawl_subcats_costs_buffer sent cats fuel recurse path _ ms
                       w2 Hrec)]]];
    nia.
Qed.

Lemma crawl_category_costs (fuel depth : nat) category (seen : nat) path
    (w : world) :
  costs (tree_requests bound depth) (tree_size bound depth) w
    (crawl_category s api_url out_fh lang max_pages_per_cat fuel depth category
       (Some seen) (Some path) w).2.
Proof.
  revert category path w.
  induction depth as [|depth IH]; intros category path w.
  all: rewrite crawl_category_eq.
  all: match goal with |- context [print (LogCrawling ?lg ?p ?d) ?w0] =>
         assert (He : costs 0 1 w0 (print (LogCrawling lg p d) w0).2)
           by (eexists [_]; split; [reflexivity | simpl; lia]);
         set (w1 := (print (LogCrawling lg p d) w0).2) in *
       end.
  all: pose proof (crawl_members_costs fuel seen path
                     (g_params (get_category_members category "page" 500)) ∅ O w1)
         as Hp.
  all: change (Generator (g_params (get_category_members category "page" 500))
                 [] (Some ∅))
         with (get_category_members category "page" 500) in Hp.
  all: fold (crawl_pages s api_url out_fh lang max_pages_per_cat
               fuel category seen path w1) in Hp.
  all: destruct (crawl_pages s api_url out_fh lang max_pages_per_cat
                   fuel category seen path w1) as [[[]|e|] w2]; simpl in Hp.
  all: try (eapply costs_le; [| |eapply costs_trans; [exact He | exact Hp]];
            simpl; lia).
  eapply costs_le;
    [| |eapply costs_trans;
          [exact He
          |eapply costs_trans;
             [exact Hp
             |apply (crawl_subcats_costs (tree_requests bound depth)
                       (tree_size bound depth) fuel _ path
                       (g_params (get_category_members category "subcat" 500))
                       ∅ w2)]]].
  - simpl. lia.
  - simpl. lia.
  - intros sub path' w3. apply IH.
Qed.

End Cost.

(** X29.  How much a crawl can ask for.  When no answer carries a
    continuation token and no listing has more than [bound] members, a crawl
    of depth [depth] enters at most [1 + bound + ... + bound^depth]
    categories, writes at most [max_pages_per_cat] records for each, and
    sends at most three requests for each listing and for each page listed:
    the number of its requests is bounded, whatever the answers are. *)
Theorem crawl_category_cost (s : session) (bound : nat)
    (api_url out_fh lang : string) (max_pages_per_cat fuel depth : nat)
    (category : string) (seen_pages : option nat)
    (category_path : option (list string)) (w : world) :
  single_batches s bound ->
  let l := events w
             (crawl_category s api_url out_fh lang max_pages_per_cat
                fuel depth category seen_pages category_path w).2 in
  (entered l <= tree_size bound depth)%nat
  /\ (length (requests l) <= tree_requests bound depth)%nat
  /\ (length (writes l) <= max_pages_per_cat * tree_size bound depth)%nat.
Proof.
  intros Hs l. subst l. rewrite crawl_category_resolved.
  destruct (crawl_category_costs s bound Hs api_url out_fh lang
              max_pages_per_cat fuel depth category
              (resolved_set seen_pages w)
              (resolved_path category category_path)
              (resolved_world seen_pages w)) as (l & Tr & Rq & En).
  destruct (crawl_category_within_bound s api_url out_fh lang max_pages_per_cat
              fuel depth category (resolved_set seen_pages w)
              (resolved_path category category_path)
              (resolved_world seen_pages w)) as (l' & Tr' & Wl).
  rewrite Tr in Tr'. apply app_inv_head in Tr' as <-.
  assert (H0 : exists l0, trace (resolved_world seen_pages w) = trace w ++ l0
                          /\ writes l0 = [] /\ entered l0 = O
                          /\ requests l0 = []).
  { destruct seen_pages; simpl.
    - exists []. by rewrite app_nil_r.
    - by exists [ENewSet (next_set w)]. }
  destruct H0 as (l0 & T0 & W0 & E0 & R0).
  rewrite T0, <- app_assoc in Tr.
  rewrite (events_app _ _ _ Tr), writes_app, entered_app, requests_app.
  rewrite W0, E0, R0. simpl.
  split; [exact En|]. split; [exact Rq|]. nia.
Qed.

(** The crawl of Physics in the small encyclopedia, one level deep. *)
Lemma crawl_category_cost_witness :
  (length
     (requests
        (events w0
           (crawl_category wiki en_api "out.jsonl" "en" 20 9 1 "Physics"
              None None w0).2))
   <= tree_requests 3 1)%nat.
Proof.
  apply (crawl_category_cost wiki 3 en_api "out.jsonl" "en" 20 9 1 "Physics"
           None None w0).
  exact wiki_single_batches.
Defined.

Lemma driver_run_costs (s : session) (bound : nat) (fuel : nat) (out_fh : string)
    (max_pages depth : nat) (ps : list (string * string)) (w w' : world)
    (r : result unit) :
  single_batches s bound ->
  driver_run (fresh_crawl s fuel out_fh max_pages depth) ps w r w' ->
  costs (length ps * tree_requests bound depth)
    (length ps * tree_size bound depth) w w'.
Proof.
  intros Hs.
  assert (Hpair : forall lang cat w1,
            costs (tree_requests bound depth) (tree_size bound depth) w1
              (fresh_crawl s fuel out_fh max_pages depth lang cat w1).2).
  { intros lang cat w1. unfold fresh_crawl. rewrite crawl_category_top.
    destruct (crawl_category_costs s bound Hs (mw_api_endpoint lang) out_fh lang
                max_pages fuel depth cat (next_set w1) [cat] (new_set w1).2)
      as (l & Tr & Rq & En).
    exists (ENewSet (next_set w1) :: l). split; [|by split].
    rewrite Tr. simpl. by rewrite <- app_assoc. }
  induction 1 as [w|lang cat ps w w1 r w2 E _ IH|lang cat ps w e w1 r w2 E _ IH
                  |lang cat ps w w1 E].
  - apply costs_refl.
  - pose proof (Hpair lang cat w) as H1. rewrite E in H1.
    eapply costs_le; [| |eapply costs_trans; [exact H1 | exact IH]]; simpl; lia.
  - pose proof (Hpair lang cat w) as H1. rewrite E in H1. simpl in H1.
    assert (H2 : costs 0 0 w1 (logged_and_waited lang cat e w1)).
    { eexists [_; _]. split; [simpl; by rewrite <- app_assoc | simpl; lia]. }
    eapply costs_le;
      [| |eapply costs_trans; [exact H1 | eapply costs_trans; [exact H2 | exact IH]]];
      simpl; lia.
  - pose proof (Hpair lang cat w) as H1. rewrite E in H1.
    eapply costs_le; [| |exact H1]; simpl; lia.
Qed.

(** X30.  How much a run can ask for.  Under the same conditions a run
    sends at most [tree_requests bound depth] requests for each pair of a
    language and a category, and its output file gets at most
    [max_pages * tree_size bound depth] lines for each pair. *)
Theorem main_cost (s : session) (bound : nat) (fuel : nat)
    (langs categories : list string) (outpath : string) (max_pages depth : nat)
    (w : world) :
  single_batches s bound ->
  let l := events w (main s fuel langs categories outpath max_pages depth w).2 in
  (length (requests l)
   <= length langs * length categories * tree_requests bound depth)%nat
  /\ (length (writes l)
      <= length langs * length categories
         * (max_pages * tree_size bound depth))%nat.
Proof.
  intros Hs l. subst l.
  pose proof (main_driver s fuel langs categories outpath max_pages depth w) as D.
  pose proof (driver_run_within_bound _ _ _ _ _ _ _ _ _ D) as (l' & Tr' & Wl & _).
  apply (driver_run_costs s bound) in D as (l & Tr & Rq & En); [|exact Hs].
  rewrite Tr in Tr'. apply app_inv_head in Tr' as <-.
  simpl in Tr. rewrite <- app_assoc in Tr.
  rewrite (events_app _ _ _ Tr). simpl.
  rewrite all_pairs_length in Rq, En. split; [exact Rq | nia].
Qed.

(** A run over Physics and Mathematics in the small encyclopedia. *)
Lemma main_cost_witness :
  (length
     (requests
        (events w0
           (main wiki 9 ["en"] ["Physics"; "Mathematics"] "out.jsonl" 20 1 w0).2))
   <= 1 * 2 * tree_requests 3 1)%nat.
Proof.
  apply (main_cost wiki 3 9 ["en"] ["Physics"; "Mathematics"] "out.jsonl" 20 1 w0).
  exact wiki_single_batches.
Defined.
